(** * EarCV: the iterative refinement loops and the kernel-row consensus

    A shallow embedding of the algorithmic core of EarCV:
    - [krn.py], function [krn]: the per-band fine pass (lines 148-162), the
      pooling of valley indices (96-168), the clustering into consensus peaks
      (186-202), the adaptive pruning (209-230), the drawing loop (242-245)
      and the returned statistics (174, 254-268);
    - [main.py], function [main]: the ear clean-up loop (343-377) and the
      silk clean-up loop (497-521);
    and of the code around it:
    - [main.py]: the colour checker option and the tests on it (229-230,
      280-285, with [args_log.py] line 27), the rows of the colour and
      feature tables (245-256, 689-710) and the order of the ears (385-393);
    - [qr.py], function [qr_scan]: the scan of the whole image and the scan
      by windows (69-125);
    - [cob_shank_segmentation.py]: the components [top_seg] and [bottom_seg]
      keep (61-68, 107-125).

    Calls into OpenCV, SciPy and the modules of the repository that are not
    part of the sources at hand ([utility], [find_ears]) are taken as
    parameters of the sections that use them.  A Python [float] or
    [np.float64] is a binary64 value carried as an exact rational (or
    [nan]); sums, differences and products are rounded to binary64.  Loops
    run under a budget of condition tests ([fuel]), and the theorems give a
    budget under which they return. *)

From Stdlib Require Import ZArith QArith Qround Qabs List Bool Lia Lqa.
From Stdlib Require Import Sorting.Permutation Sorting.Sorted.
From Stdlib Require String Ascii.
Import ListNotations.

Set Implicit Arguments.

(* ================================================================== *)
(** * Python control: exceptions, fuel and [while] *)
(* ================================================================== *)

Module Py.

(** The built-in exceptions the modelled code can raise. *)
Inductive exn : Type :=
| IndexError
| ValueError
| TypeError
| NameError.

(** The outcome of running a piece of Python: it returns a value, raises, or
    (for a loop run under a step budget) has not finished within the budget. *)
Inductive run (A : Type) : Type :=
| Returns (a : A)
| Raises (e : exn)
| OutOfFuel.

Arguments Raises {A} e.
Arguments OutOfFuel {A}.

Definition bind {A B} (m : run A) (k : A -> run B) : run B :=
  match m with
  | Returns a => k a
  | Raises e => Raises e
  | OutOfFuel => OutOfFuel
  end.

Notation "x <- m ;; k" := (bind m (fun x => k))
  (at level 61, m at next level, right associativity).
Notation "' p <- m ;; k" := (bind m (fun p => k))
  (at level 61, p pattern, m at next level, right associativity).

(** [while cond: body], run for at most [fuel] evaluations of the condition.
    Both the condition and the body may raise. *)
Fixpoint while {S : Type} (fuel : nat) (cond : S -> run bool)
    (body : S -> run S) (s : S) : run S :=
  match fuel with
  | O => OutOfFuel
  | Datatypes.S fuel' =>
      match cond s with
      | Returns true =>
          match body s with
          | Returns s' => while fuel' cond body s'
          | Raises e => Raises e
          | OutOfFuel => OutOfFuel
          end
      | Returns false => Returns s
      | Raises e => Raises e
      | OutOfFuel => OutOfFuel
      end
  end.

(** [for x in xs: body], the body threading a state and possibly raising. *)
Fixpoint for_each {A S : Type} (xs : list A) (body : S -> A -> run S) (s : S)
    : run S :=
  match xs with
  | [] => Returns s
  | x :: xs' => s' <- body s x ;; for_each xs' body s'
  end.

(** [range(n)]; empty when [n <= 0]. *)
Definition range (n : Z) : list nat := seq 0 (Z.to_nat n).

(** [l[i]] for [0 <= i < len(l)]; [IndexError] past the end. *)
Definition getitem {A} (l : list A) (i : nat) : run A :=
  match nth_error l i with
  | Some x => Returns x
  | None => Raises IndexError
  end.

End Py.

Import Py.

(* ================================================================== *)
(** * Binary64 values *)
(* ================================================================== *)

Module Float.

Local Open Scope Q_scope.

(** A [float] / [np.float64] value: not-a-number, or a finite value carried
    as an exact rational.  Infinities do not arise in the modelled code. *)
Inductive float64 : Type :=
| NaN
| Fin (q : Q).

(** Nearest integer, ties to even. *)
Definition round_half_even (q : Q) : Z :=
  let f := Qfloor q in
  match Qcompare (q - inject_Z f) (1 # 2) with
  | Lt => f
  | Gt => (f + 1)%Z
  | Eq => if Z.even f then f else (f + 1)%Z
  end.

Definition Qpow2 (e : Z) : Q :=
  if (0 <=? e)%Z then inject_Z (2 ^ e) else 1 / inject_Z (2 ^ (- e)).

(** The exponent [e] with [2^e <= q < 2^(e+1)], for [q > 0]. *)
Definition binade (q : Q) : Z :=
  let e0 := (Z.log2 (Qnum q) - Z.log2 (Zpos (Qden q)))%Z in
  if Qle_bool (Qpow2 e0) q then e0 else (e0 - 1)%Z.

(** Rounding of a real to the nearest binary64 value (53 significant bits,
    ties to even).  The exponent range is not modelled: the quantities
    rounded here are convexities, thresholds and pixel distances. *)
Definition round64 (q : Q) : Q :=
  if Qeq_bool q 0 then 0
  else
    let ulp := Qpow2 (binade (Qabs q) - 52) in
    Qred (inject_Z (round_half_even (q / ulp)) * ulp).

(** A decimal literal of the source, such as [0.9]. *)
Definition lit (q : Q) : float64 := Fin (round64 q).

(** [float(n)] for an integer; exact below [2^53], which covers every column
    index of an image. *)
Definition of_int (n : Z) : float64 := Fin (inject_Z n).

Definition fsub (a b : float64) : float64 :=
  match a, b with
  | Fin x, Fin y => Fin (round64 (x - y))
  | _, _ => NaN
  end.

Definition fadd (a b : float64) : float64 :=
  match a, b with
  | Fin x, Fin y => Fin (round64 (x + y))
  | _, _ => NaN
  end.

Definition fmul (a b : float64) : float64 :=
  match a, b with
  | Fin x, Fin y => Fin (round64 (x * y))
  | _, _ => NaN
  end.

Definition fhalf (a : float64) : float64 :=
  match a with
  | Fin x => Fin (round64 (x / 2))
  | NaN => NaN
  end.

(** Comparisons: every comparison with [NaN] is [False]. *)
Definition flt (a b : float64) : bool :=
  match a, b with
  | Fin x, Fin y => negb (Qle_bool y x)
  | _, _ => false
  end.

Definition fle (a b : float64) : bool :=
  match a, b with
  | Fin x, Fin y => Qle_bool x y
  | _, _ => false
  end.

Definition fgt (a b : float64) : bool := flt b a.

Definition feq (a b : float64) : bool :=
  match a, b with
  | Fin x, Fin y => Qeq_bool x y
  | _, _ => false
  end.

Definition is_nan (a : float64) : bool :=
  match a with
  | NaN => true
  | Fin _ => false
  end.

(** Truncation toward zero. *)
Definition truncate (x : Q) : Z :=
  if Qle_bool 0 x then Qfloor x else Qceiling x.

(** [int(x)]: [ValueError] on [NaN]. *)
Definition int_of (a : float64) : run Z :=
  match a with
  | NaN => Raises ValueError
  | Fin x => Returns (truncate x)
  end.

End Float.

Import Float.

(* ================================================================== *)
(** * The NumPy functions used by [krn] *)
(* ================================================================== *)

Module Np.

Local Open Scope Z_scope.

Section Sorting.
Variable A : Type.
Variable leb : A -> A -> bool.

Fixpoint insert (x : A) (l : list A) : list A :=
  match l with
  | [] => [x]
  | y :: r => if leb x y then x :: l else y :: insert x r
  end.

(** [np.sort]: the ascending rearrangement of the array. *)
Fixpoint sort (l : list A) : list A :=
  match l with
  | [] => []
  | x :: r => insert x (sort r)
  end.
End Sorting.

Definition sort_int : list Z -> list Z := sort Z.leb.

Definition value (a : float64) : Q :=
  match a with
  | Fin q => q
  | NaN => 0
  end.

Definition sort_float : list float64 -> list float64 :=
  sort (fun a b => Qle_bool (value a) (value b)).

(** [np.diff] of an integer array: [a[i+1] - a[i]]. *)
Fixpoint diff_int (a : list Z) : list Z :=
  match a with
  | x :: (y :: _) as r => (y - x)%Z :: diff_int r
  | _ => []
  end.

(** [np.diff] of a float array. *)
Fixpoint diff (a : list float64) : list float64 :=
  match a with
  | x :: (y :: _) as r => fsub y x :: diff r
  | _ => []
  end.

(** [np.median] of an integer array: the middle element of the sorted array,
    or the mean of the two middle ones, as a float; [nan] for an empty array.
    The sum of two column indices and its half are exact in binary64. *)
Definition median_int (a : list Z) : float64 :=
  let s := sort_int a in
  let n := length s in
  match n with
  | O => NaN
  | _ =>
      if Nat.even n
      then Fin (Qred (inject_Z (nth (n / 2 - 1) s 0%Z + nth (n / 2) s 0%Z) / 2))
      else of_int (nth (n / 2) s 0%Z)
  end.

(** [np.median] of a float array: [nan] when the array is empty or holds a
    [nan]. *)
Definition median (a : list float64) : float64 :=
  if existsb is_nan a then NaN
  else
    let s := sort_float a in
    let n := length s in
    match n with
    | O => NaN
    | _ =>
        if Nat.even n
        then fhalf (fadd (nth (n / 2 - 1) s NaN) (nth (n / 2) s NaN))
        else nth (n / 2) s NaN
    end.

Definition fmax (a b : float64) : float64 :=
  match a, b with
  | Fin x, Fin y => if Qle_bool x y then b else a
  | _, _ => NaN
  end.

(** [np.max]: [ValueError] on an empty array; a [nan] propagates. *)
Definition max (a : list float64) : run float64 :=
  match a with
  | [] => Raises ValueError
  | x :: r => Returns (fold_left fmax r x)
  end.

End Np.

(* ================================================================== *)
(** * krn.py *)
(* ================================================================== *)

Module Krn.

Local Open Scope Z_scope.

(** ** Clustering into consensus peaks (lines 186-202) *)

(** The state of the clustering loop: [cur_list], [prev_ele] and
    [clustered_list]. *)
Record cluster_state : Type := mkCluster {
  cur_list : list Z;
  prev_ele : Z;
  clustered_list : list (list Z)
}.

(** One iteration of [for i in range(len(all_peaks))] (lines 193-198), at the
    element [x = all_peaks[i]]. *)
Definition cluster_step (all_peaks_diff_med : float64) (st : cluster_state)
    (x : Z) : cluster_state :=
  if fle (of_int (Z.abs (x - prev_ele st))) all_peaks_diff_med
  then mkCluster (cur_list st ++ [x]) x (clustered_list st)
  else mkCluster [x] x (clustered_list st ++ [cur_list st]).

(** Lines 187-199: the clusters of the sorted pooled indices.  Reading
    [all_peaks[0]] raises [IndexError] on an empty array. *)
Definition clusters (all_peaks : list Z) : run (list (list Z)) :=
  let all_peaks_diff := Np.diff_int all_peaks in
  let all_peaks_diff_med := Np.median_int all_peaks_diff in
  prev <- getitem all_peaks 0 ;;
  let st :=
    fold_left
      (fun st i => cluster_step all_peaks_diff_med st (nth i all_peaks 0%Z))
      (range (Z.of_nat (length all_peaks)))
      (mkCluster [] prev [])
  in
  Returns (clustered_list st ++ [cur_list st]).

(** Lines 186-202: [all_peaks_final] before pruning. *)
Definition consensus (pooled : list Z) : run (list float64) :=
  cl <- clusters (Np.sort_int pooled) ;;
  Returns (map Np.median_int cl).

(** ** Adaptive pruning (lines 209-230) *)

(** [l.remove(l[i])]: Python removes the first element that is the object
    [l[i]] or compares equal to it. *)
Fixpoint list_remove (x : float64) (i : nat) (l : list float64) {struct l}
    : list float64 :=
  match l with
  | [] => []
  | y :: r =>
      match i with
      | O => r
      | S i' => if feq y x then r else y :: list_remove x i' r
      end
  end.

(** The state of the inner loop (lines 219-224). *)
Record inner_state : Type := mkInner {
  in_peaks : list float64;
  in_prev : float64;
  in_i : nat
}.

(** [i < len(all_peaks_final)]. *)
Definition inner_cond (s : inner_state) : run bool :=
  Returns (in_i s <? length (in_peaks s))%nat.

(** Lines 220-224. *)
Definition inner_body (threshold diff_max : float64) (s : inner_state)
    : run inner_state :=
  x <- getitem (in_peaks s) (in_i s) ;;
  if flt (fsub x (in_prev s)) (fmul threshold diff_max)
  then
    let peaks := list_remove x (in_i s) (in_peaks s) in
    Returns (mkInner peaks (in_prev s) (in_i s))
  else Returns (mkInner (in_peaks s) x (in_i s + 1)).

(** One outer pass, lines 214-224: it starts from the clustered list again. *)
Definition prune_pass (fuel : nat) (threshold : float64)
    (all_peaks_final_temp : list float64) : run (list float64) :=
  let all_peaks_final := all_peaks_final_temp in
  let all_peaks_final_diff := Np.diff all_peaks_final in
  all_peaks_final_diff_max <- Np.max all_peaks_final_diff ;;
  prev <- getitem all_peaks_final 0 ;;
  s <- while fuel inner_cond (inner_body threshold all_peaks_final_diff_max)
         (mkInner all_peaks_final prev 1) ;;
  Returns (in_peaks s).

(** The state of the outer loop (lines 210-230); [broke] records that the
    [break] of line 230 was taken. *)
Record outer_state : Type := mkOuter {
  all_peaks_final : list float64;
  num_peaks_iter : nat;
  threshold : float64;
  num_exec : nat;
  broke : bool
}.

(** [num_peaks_iter < 6], unless the [break] was taken. *)
Definition outer_cond (s : outer_state) : run bool :=
  Returns (negb (broke s) && (num_peaks_iter s <? 6)%nat).

(** Lines 214-230. *)
Definition outer_body (fuel : nat) (all_peaks_final_temp : list float64)
    (s : outer_state) : run outer_state :=
  peaks <- prune_pass fuel (threshold s) all_peaks_final_temp ;;
  let num_exec' := (num_exec s + 1)%nat in
  Returns (mkOuter peaks (length peaks) (fsub (threshold s) (lit (1 # 10)))
             num_exec' (6 <? num_exec')%nat).

(** Lines 209-230, from the clustered list. *)
Definition prune (fuel : nat) (all_peaks_final : list float64)
    : run outer_state :=
  let all_peaks_final_temp := all_peaks_final in
  while fuel outer_cond (outer_body fuel all_peaks_final_temp)
    (mkOuter all_peaks_final 0 (lit (9 # 10)) 0 false).

(** ** Drawing and the returned tuple (lines 239-268) *)

(** Lines 242-245: the [x] coordinate [int(lines[i])] of every line drawn on
    the proof image. *)
Definition draw_lines (lines : list float64) : run (list Z) :=
  for_each lines (fun xs l => x1 <- int_of l ;; Returns (xs ++ [x1])) [].

(** The tuple returned by [krn]; the proof image is represented by the
    columns of the lines drawn on it. *)
Record krn_result : Type := mkResult {
  diff_pre_consensus : float64;
  diff_post_consensus : float64;
  num_peaks : nat;
  krn_proof : list Z
}.

(** Lines 174-268, from the per-band medians [dis_kernel] and the pooled
    valley indices [all_peaks] left by the band loop. *)
Definition krn_consensus (fuel : nat) (dis_kernel : list float64)
    (all_peaks : list Z) : run krn_result :=
  let diff_pre := Np.median dis_kernel in
  peaks <- consensus all_peaks ;;
  s <- prune fuel peaks ;;
  let lines := all_peaks_final s in
  proof <- draw_lines lines ;;
  let diff_post := Np.median (Np.diff lines) in
  Returns (mkResult diff_pre diff_post (length lines) proof).

(** ** The fine pass over one band (lines 148-162) *)

(** A call into a library that returns or raises. *)
Definition call {A} (r : exn + A) : run A :=
  match r with
  | inl e => Raises e
  | inr a => Returns a
  end.

(** The valleys [c] and the next window length [u]. *)
Record fine_state : Type := mkFine {
  c : list Z;
  u : Z
}.

Section FinePass.
(** For the profile [x] of the band at hand and a window length [w]:
    [argrelextrema(rescale_linear(savgol_filter(x, w, 4), 0, h), np.less)[0]],
    or the exception SciPy raises. *)
Variable smoothed_valleys : Z -> exn + list Z.

(** [len(c) > 9]. *)
Definition fine_cond (s : fine_state) : run bool :=
  Returns (9 <? length (c s))%nat.

(** Lines 152-162. *)
Definition fine_body (s : fine_state) : run fine_state :=
  let window_len := u s in
  c' <- call (smoothed_valleys window_len) ;;
  Returns (mkFine c' (2 + u s)).

(** Lines 148-162, from [c = argrelextrema(x, np.less)[0]]. *)
Definition fine_pass (fuel : nat) (c0 : list Z) : run fine_state :=
  while fuel fine_cond fine_body (mkFine c0 19).
End FinePass.

(** ** The band loop (lines 96-168) *)

Section Bands.
(** [utility.ranges(N, nb)]: the list of ["start,end"] strings, each given
    as the pair of its two numbers. *)
Variable ranges : Z -> Z -> list (Z * Z).
(** For the band of columns [lo..hi): the valleys of its raw profile
    (line 148), and those of its smoothed profile (lines 158-161). *)
Variable raw_valleys : Z -> Z -> list Z.
Variable smoothed_valleys : Z -> Z -> Z -> exn + list Z.

(** Lines 96-99: the start column of every range, without the first and
    the last one ([a[1:len(a)-1]]). *)
Definition band_starts (width : Z) : list Z :=
  let a := map fst (ranges width 6) in
  skipn 1 (firstn (length a - 1) a).

(** The bands the loop of line 111 visits: [(b[i], b[i+1])] for
    [i in range(len(b)-1)]. *)
Definition bands (width : Z) : list (Z * Z) :=
  let b := band_starts width in
  map (fun i => (nth i b 0%Z, nth (i + 1) b 0%Z))
    (range (Z.of_nat (length b) - 1)).

(** Lines 113-168, one pass of the loop over the band of columns
    [lo..hi): the fine pass, the band's median difference appended to
    [dis_kernel] and its valleys to [all_peaks]. *)
Definition band_body (fuel : nat) (acc : list float64 * list Z)
    (band : Z * Z) : run (list float64 * list Z) :=
  let '(dis_kernel, all_peaks) := acc in
  let '(lo, hi) := band in
  s <- fine_pass (smoothed_valleys lo hi) fuel (raw_valleys lo hi) ;;
  let dif := Np.diff_int (c s) in
  let median_dif := Np.median_int dif in
  Returns (dis_kernel ++ [median_dif], all_peaks ++ c s).

(** Lines 106-168: [dis_kernel] and [all_peaks] after the loop. *)
Definition band_loop (fuel : nat) (width : Z)
    : run (list float64 * list Z) :=
  for_each (bands width) (band_body fuel) ([], []).

(** [krn], lines 96-268, for a rotated ear crop [width] columns wide. *)
Definition krn (fuel : nat) (width : Z) : run krn_result :=
  '(dis_kernel, all_peaks) <- band_loop fuel width ;;
  krn_consensus fuel dis_kernel all_peaks.
End Bands.

End Krn.

(* ================================================================== *)
(** * main.py *)
(* ================================================================== *)

Module Main.

Local Open Scope Z_scope.

(** ** Ear clean-up module (lines 343-377) *)

Section EarCleanup.
Variable mask : Type.
(** [cv2.morphologyEx(m, MORPH_OPEN, getStructuringElement(MORPH_RECT,
    (k, k)), iterations=n)]. *)
Variable morph_open : mask -> Z -> Z -> mask.
(** [find_ears.filter(filename, m, min_area, max_area, aspect_ratio,
    solidity)[0]] for the filter settings of the run. *)
Variable filter : mask -> mask.
(** [find_ears.calculate_area_cov]: [None] when the coefficient of
    variation cannot be computed (line 348: a single ear). *)
Variable calculate_area_cov : mask -> option float64.

(** The variables of the loop: [filtered], [cov] and [i]. *)
Record cleanup_state : Type := mkCleanup {
  filtered : mask;
  cov : option float64;
  cl_i : Z
}.

(** [cov > max_cov and i <= max_iterations]; ordering [None] against a
    float raises [TypeError]. *)
Definition cleanup_cond (max_cov max_iterations : float64)
    (s : cleanup_state) : run bool :=
  match cov s with
  | None => Raises TypeError
  | Some v =>
      Returns (fgt v max_cov && fle (of_int (cl_i s)) max_iterations)
  end.

(** Lines 358-361 (371-374). *)
Definition cleanup_body (s : cleanup_state) : run cleanup_state :=
  let i := cl_i s in
  let mask' := morph_open (filtered s) i i in
  let filtered' := filter mask' in
  let cov' := calculate_area_cov filtered' in
  Returns (mkCleanup filtered' cov' (i + 1)).

(** Lines 355-361 and 368-374: the two loops have the same text. *)
Definition cleanup_loop (fuel : nat) (max_cov max_iterations : float64)
    (filtered0 : mask) (cov0 : option float64) : run cleanup_state :=
  while fuel (cleanup_cond max_cov max_iterations) cleanup_body
    (mkCleanup filtered0 cov0 1).

(** Lines 343-377.  The result carries the binding of the local [i] left
    behind ([None]: no loop ran, [i] is unbound). *)
Definition ear_cleanup_module (fuel : nat)
    (ear_cleanup : option (float64 * float64)) (filtered0 : mask)
    : run (mask * option float64 * option Z) :=
  let cov0 := calculate_area_cov filtered0 in
  match cov0 with
  | None => Returns (filtered0, cov0, None)
  | Some v =>
      if fgt v (lit (35 # 100)) then
        s <- cleanup_loop fuel (lit (35 # 100)) (of_int 10) filtered0 cov0 ;;
        Returns (filtered s, cov s, Some (cl_i s))
      else
        match ear_cleanup with
        | Some (max_cov, max_iterations) =>
            s <- cleanup_loop fuel max_cov max_iterations filtered0 cov0 ;;
            Returns (filtered s, cov s, Some (cl_i s))
        | None => Returns (filtered0, cov0, None)
        end
  end.
End EarCleanup.

(** ** Silk clean-up module (lines 497-521) *)

Section SilkCleanup.
Variable mask : Type.
Variable morph_open : mask -> Z -> Z -> mask.
(** [find_ears.calculate_convexity]. *)
Variable calculate_convexity : mask -> float64.

(** The variables of the loop of lines 516-521; [silk_i] is the local [i]
    of [main], unbound ([None]) until some loop has assigned it. *)
Record silk_state : Type := mkSilk {
  b_chnnl : mask;
  delta_conv : float64;
  silk_i : option Z
}.

(** [delta_conv < conv_var and i <= i_var]: [i] is read only when the
    first comparison holds; reading it unbound raises [NameError]. *)
Definition silk_cond (conv_var i_var : float64) (s : silk_state)
    : run bool :=
  if flt (delta_conv s) conv_var then
    match silk_i s with
    | None => Raises NameError
    | Some i => Returns (fle (of_int i) i_var)
    end
  else Returns false.

(** Lines 517-521; [convexity] is the value computed at line 497. *)
Definition silk_body (convexity : float64) (s : silk_state)
    : run silk_state :=
  match silk_i s with
  | None => Raises NameError
  | Some i =>
      let b' := morph_open (b_chnnl s) (2 + i) (1 + i) in
      let convexity2 := calculate_convexity b' in
      Returns (mkSilk b' (fsub convexity2 convexity) (Some (i + 1)))
  end.

(** The test of line 511. *)
Definition silk_triggered (convexity : float64)
    (silk_cleanup : option (float64 * float64)) : bool :=
  flt convexity (lit (87 # 100))
  || match silk_cleanup with Some _ => true | None => false end.

(** Lines 513-521. *)
Definition silk_loop (fuel : nat) (conv_var i_var convexity : float64)
    (b0 : mask) (i : option Z) : run silk_state :=
  let delta_conv := lit (1 # 1000) in
  while fuel (silk_cond conv_var i_var) (silk_body convexity)
    (mkSilk b0 delta_conv i).

(** Lines 497-521 for one ear: [i_in] is the binding of [i] on entry,
    [silk_cleanup] the custom thresholds of [args.silk_cleanup].  The
    result is the channel mask and the binding of [i] on exit. *)
Definition silk_cleanup_module (fuel : nat) (i_in : option Z)
    (silk_cleanup : option (float64 * float64)) (b0 : mask)
    : run (mask * option Z) :=
  let convexity := calculate_convexity b0 in
  let '(i, thresholds) :=
    if flt convexity (lit (87 # 100))
    then (Some 1, Some (lit (4 # 100), of_int 10))
    else (i_in, silk_cleanup)
  in
  if silk_triggered convexity silk_cleanup then
    match thresholds with
    | Some (conv_var, i_var) =>
        s <- silk_loop fuel conv_var i_var convexity b0 i ;;
        Returns (b_chnnl s, silk_i s)
    | None => Raises NameError
    end
  else Returns (b0, i).
End SilkCleanup.

End Main.

(* ================================================================== *)
(** * main.py: the ears, the options and the result tables *)
(* ================================================================== *)

Module Ears.

Local Open Scope Z_scope.

Section SortEars.
Variable contour : Type.
(** [cv2.boundingRect(c)]: the tuple [(x, y, w, h)]. *)
Variable boundingRect : contour -> Z * Z * Z * Z.

(** The sort key of line 388, [b[1][0]]: the left edge of the box. *)
Definition box_x (b : contour * (Z * Z * Z * Z)) : Z :=
  let '(x, _, _, _) := snd b in x.

(** Lines 386-388: the contours and their boxes, sorted (stably) by the left
    edge of the box.  Unzipping no pair at all yields nothing, and unpacking
    that into the two names raises [ValueError]. *)
Definition sort_ears (cnts : list contour)
    : run (list contour * list (Z * Z * Z * Z)) :=
  let boundingBoxes := map boundingRect cnts in
  let pairs :=
    Np.sort (fun a b => box_x a <=? box_x b) (combine cnts boundingBoxes) in
  match pairs with
  | [] => Raises ValueError
  | _ => Returns (map fst pairs, map snd pairs)
  end.

(** Lines 390-393: [number_of_ears] after the loop over the contours. *)
Definition count_ears (cnts : list contour) : Z :=
  fold_left (fun number_of_ears _ => number_of_ears + 1) cnts 0.
End SortEars.

End Ears.

Module Options.

Import String.

(** How an option declared with [nargs='?'] occurs on the command line:
    not at all, without a value, or with one. *)
Inductive occurrence : Type :=
| Absent
| Bare
| Given (value : string).

(** The value argparse stores for such an option. *)
Inductive pyvalue : Type :=
| PyNone
| PyStr (s : string).

(** args_log.py line 27: [add_argument("-clr", "--color_checker",
    default="None", nargs='?', const='')].  The default is the string
    ["None"]. *)
Definition color_checker (o : occurrence) : pyvalue :=
  match o with
  | Absent => PyStr "None"
  | Bare => PyStr ""
  | Given value => PyStr value
  end.

(** [s[0]] for a string: its first character, as a string. *)
Definition str_first (s : string) : run string :=
  match s with
  | EmptyString => Raises IndexError
  | String ch _ => Returns (String ch EmptyString)
  end.

(** main.py lines 229-230: [None] when the colour correction module is
    skipped, else the argument [args.color_checker[0]] handed to
    [utility.img_parse]. *)
Definition color_reference (color_checker : pyvalue) : run (option string) :=
  match color_checker with
  | PyNone => Returns None
  | PyStr s => reff <- str_first s ;; Returns (Some reff)
  end.

(** The image the pixels-per-metric module measures on. *)
Inductive ppm_image : Type :=
| TarChk
| Img.

(** main.py lines 280-285: [ppm.ppm_square] is run on the colour checker
    mask [tar_chk] when [args.color_checker is not None], else on [img]. *)
Definition ppm_input (color_checker : pyvalue) : ppm_image :=
  match color_checker with
  | PyNone => Img
  | PyStr _ => TarChk
  end.

End Options.

Module Table.

Import String.

Section Dict.
Variable V : Type.

(** A [dict] with string keys, in insertion order. *)
Definition dict : Type := list (string * V).

(** [d[k] = v]: a key already present keeps its place and takes the new
    value. *)
Fixpoint dict_set (d : dict) (k : string) (v : V) : dict :=
  match d with
  | [] => [(k, v)]
  | (k', v') :: r =>
      if String.eqb k' k then (k', v) :: r else (k', v') :: dict_set r k v
  end.

(** [d.get(k)]. *)
Fixpoint dict_get (d : dict) (k : string) : option V :=
  match d with
  | [] => None
  | (k', v') :: r => if String.eqb k' k then Some v' else dict_get r k
  end.

(** A dict display [{k1: v1, k2: v2, ...}]. *)
Definition dict_of (items : list (string * V)) : dict :=
  fold_left (fun d kv => dict_set d (fst kv) (snd kv)) items [].

(** [csv.DictWriter(f, fieldnames=fieldnames).writerow(rowdict)], with the
    defaults [restval=''] and [extrasaction='raise']: a key outside
    [fieldnames] raises [ValueError]; the row has, for every field name in
    order, [rowdict.get(key, restval)]. *)
Definition writerow (fieldnames : list string) (restval : V) (rowdict : dict)
    : run (list V) :=
  if forallb (fun kv => existsb (String.eqb (fst kv)) fieldnames) rowdict
  then
    Returns
      (map (fun key =>
              match dict_get rowdict key with
              | Some v => v
              | None => restval
              end) fieldnames)
  else Raises ValueError.

(** main.py lines 248-251. *)
Definition color_headers : list string :=
  ["Filename"; "Overall improvement"; "Square1"; "Square1"; "Square3";
   "Square4"; "Square5"; "Square6"; "Square7"; "Square8"; "Square9";
   "Square10"; "Square11"; "Square12"; "Square13"; "Square14"; "Square15";
   "Square16"; "Square17"; "Square18"; "Square19"; "Square20"; "Square21";
   "Square22"; "Square23"; "Square24"]%string.

(** main.py line 256: the row written to color_correction.csv,
    [writer.writerow({headers[i]: csv_field[i] for i in range(26)})], for the
    sequence [csv_field] returned by [colorcorrection.color_correct]. *)
Definition color_row (restval : V) (csv_field : list V) : run (list V) :=
  rowdict <-
    for_each (range 26)
      (fun d i =>
         k <- getitem color_headers i ;;
         v <- getitem csv_field i ;;
         Returns (dict_set d k v)) [] ;;
  writerow color_headers restval rowdict.

(** main.py lines 693-696. *)
Definition features_headers : list string :=
  ["Filename"; "Ear Number"; "Ear_Area"; "Ear_Box_Area"; "Ear_Box_Length";
   "Ear_Box_Width"; "Max_Width"; "perimeters"; "Convexity"; "Solidity";
   "Convexity_polyDP"; "Taper"; "Taper_Convexity"; "Taper_Solidity";
   "Taper_Convexity_polyDP"; "Widths_Sdev"; "Cents_Sdev"; "Tip_Area";
   "Bottom_Area"; "Krnl_Area"; "Kernel_Length"; "Krnl_Convexity"; "Tip_Fill";
   "Bottom_Fill"; "Krnl_Fill"; "Blue"; "Red"; "Green"; "Hue"; "Sat"; "Vol";
   "Light"; "A_chnnl"; "B_chnnl"]%string.

(** The keys of the dict display of lines 703-710, in the order written. *)
Definition features_keys : list string :=
  ["Filename"; "Ear Number"; "Ear_Area"; "Ear_Box_Area"; "Ear_Box_Length";
   "Ear_Box_Width"; "Max_Width"; "perimeters"; "Convexity"; "Solidity";
   "Convexity_polyDP"; "Taper"; "Taper_Convexity"; "Taper_Solidity";
   "Taper_Convexity_polyDP"; "Widths_Sdev"; "Cents_Sdev"; "Tip_Area";
   "Bottom_Area"; "Krnl_Area"; "Kernel_Length"; "Krnl_Convexity"; "Tip_Fill";
   "Bottom_Fill"; "Krnl_Fill"; "Blue"; "Red"; "Green"; "Hue"; "Sat"; "Vol";
   "Light"; "A_chnnl"; "B_chnnl"]%string.

(** main.py lines 703-710: the row written to features.csv, for the values
    of the 34 variables of the display, in the order written. *)
Definition features_row (restval : V) (values : list V) : run (list V) :=
  writerow features_headers restval (dict_of (combine features_keys values)).
End Dict.

End Table.

(* ================================================================== *)
(** * qr.py *)
(* ================================================================== *)

Module Qr.

Local Open Scope Z_scope.

Section QrScan.
Variable image : Type.
(** A symbol decoded by pyzbar, with its [type], [data] and [rect]. *)
Variable symbol : Type.
Variable text : Type.
(** [255 - cvtColor(inRange(img, (0,0,0), (200,200,200)), GRAY2BGR)]. *)
Variable invert : image -> image.
(** [img[i:i+h, j:j+w]]. *)
Variable crop : image -> Z -> Z -> Z -> Z -> image.
(** [img.shape]: height and width. *)
Variable shape : image -> Z * Z.
(** [pyzbar.decode]. *)
Variable decode : image -> list symbol.
(** [QRcode.data.decode("utf-8")]; a [UnicodeDecodeError] is a
    [ValueError]. *)
Variable data_decode : symbol -> exn + text.
(** [utility.start_points(size, split_size, overlap)]. *)
Variable start_points : Z -> Z -> float64 -> list Z.

(** The variables returned at line 125: [QRcode] is the symbol whose [type]
    and [rect] are [QRcodeType] and [QRcodeRect]. *)
Record qr_state : Type := mkQr {
  QRcode : option symbol;
  QRcodeData : option text;
  qr_count : Z;
  qr_proof : option image
}.

(** Lines 86-90 and 117-120: [for QRcode in decode(inverted)]. *)
Definition read_symbols (symbols : list symbol) (st : qr_state)
    : run qr_state :=
  for_each symbols
    (fun st sym =>
       data <- Krn.call (data_decode sym) ;;
       Returns (mkQr (Some sym) (Some data) (qr_count st) (qr_proof st)))
    st.

(** Lines 83-90 and 114-121: the flag tells whether a code was found (where
    the window loop takes its [break]). *)
Definition scan_image (inverted : image) (st : qr_state)
    : run (qr_state * bool) :=
  match decode inverted with
  | [] => Returns (st, false)
  | _ =>
      st' <- read_symbols (decode inverted)
               (mkQr (QRcode st) (QRcodeData st) (qr_count st)
                  (Some inverted)) ;;
      Returns (st', true)
  end.

(** Lines 102-121, [for j in X_points], in the row [i]. *)
Fixpoint scan_row (qr_img : image) (split_height split_width i : Z)
    (X_points : list Z) (st : qr_state) : run (qr_state * bool) :=
  match X_points with
  | [] => Returns (st, false)
  | j :: X_points' =>
      let split := crop qr_img i j split_height split_width in
      let st1 :=
        mkQr (QRcode st) (QRcodeData st) (qr_count st + 1) (qr_proof st) in
      '(st2, found) <- scan_image (invert split) st1 ;;
      if found then Returns (st2, true)
      else scan_row qr_img split_height split_width i X_points' st2
  end.

(** Lines 101-124, [for i in Y_points]: the [else: continue] goes to the
    next row when the row was not left by [break]; otherwise the outer loop
    is left too. *)
Fixpoint scan_rows (qr_img : image) (split_height split_width : Z)
    (Y_points X_points : list Z) (st : qr_state) : run qr_state :=
  match Y_points with
  | [] => Returns st
  | i :: Y_points' =>
      '(st', found) <-
        scan_row qr_img split_height split_width i X_points st ;;
      if found then Returns st'
      else scan_rows qr_img split_height split_width Y_points' X_points st'
  end.

(** [qr_scan], lines 69-125. *)
Definition qr_scan (qr_img : image) (qr_window_size : option float64)
    (overlap : float64) : run qr_state :=
  match qr_window_size with
  | None =>
      '(st, _) <- scan_image (invert qr_img) (mkQr None None 1 None) ;;
      Returns st
  | Some size =>
      let '(img_h, img_w) := shape qr_img in
      split_width <- int_of size ;;
      split_height <- int_of size ;;
      let X_points := start_points img_w split_width overlap in
      let Y_points := start_points img_h split_height overlap in
      scan_rows qr_img split_height split_width Y_points X_points
        (mkQr None None 0 None)
  end.
End QrScan.

End Qr.

(* ================================================================== *)
(** * cob_shank_segmentation.py *)
(* ================================================================== *)

Module CobShank.

Local Open Scope Z_scope.

Section Components.
Variable pixel : Type.

(** A single-channel image, and the label image [output] of
    [cv2.connectedComponentsWithStats]. *)
Definition gray : Type := pixel -> Z.

(** [img[output == label] = 255]. *)
Definition paint (output : pixel -> Z) (img : gray) (label : Z) : gray :=
  fun p => if output p =? label then 255 else img p.

(** [np.zeros(shape, np.uint8)]. *)
Definition zeros : gray := fun _ => 0.

(** [range(a, b)]. *)
Definition range_from (a b : Z) : list Z :=
  map (fun k => a + Z.of_nat k) (seq 0 (Z.to_nat (b - a))).

(** [top_seg], lines 63-68. *)
Definition top_seg_components (output : pixel -> Z) (extent : Z) : gray :=
  fold_left (paint output) (range_from 1 extent) zeros.

(** [bottom_seg], lines 111-125: [sizes] is the last column of [stats],
    [n_centroids] is [len(centroids)], [height] and [width] the shape of the
    red channel. *)
Definition bottom_seg_components (output : pixel -> Z) (nb_components : Z)
    (sizes : list Z) (n_centroids : Z) (height width : Z) : run gray :=
  bottom <-
    (if (1 <? length sizes)%nat then
       for_each (range_from 2 nb_components)
         (fun bottom i =>
            size <- getitem sizes (Z.to_nat i) ;;
            if fgt (of_int size)
                 (fmul (of_int (height * width)) (lit (1 # 1000)))
            then Returns (paint output bottom i)
            else Returns bottom)
         zeros
     else Returns zeros) ;;
  let bottom := paint output bottom n_centroids in
  Returns (paint output bottom (n_centroids - 1)).
End Components.

End CobShank.

(* ================================================================== *)
(** * The vocabulary of the statements *)
(* ================================================================== *)

Import Krn Main.

Section Sublist.
Variable A : Type.

(** [sub] is [l] with some elements deleted. *)
Inductive sublist : list A -> list A -> Prop :=
| sublist_nil : sublist [] []
| sublist_skip x sub l : sublist sub l -> sublist sub (x :: l)
| sublist_keep x sub l : sublist sub l -> sublist (x :: sub) (x :: l).

End Sublist.

(** ** Clustering as the specification words it *)

Module Spec.

Local Open Scope Z_scope.

(** "Walk the sorted sequence and group an index into the current cluster if
    |index - previousIndex| <= medianGap, else start a new cluster": the
    clusters of [rest], after [previousIndex], the last index of the cluster
    [current] being built. *)
Fixpoint spec_walk (medianGap : float64) (previousIndex : Z)
    (current : list Z) (rest : list Z) : list (list Z) :=
  match rest with
  | [] => [current]
  | index :: rest' =>
      if fle (of_int (Z.abs (index - previousIndex))) medianGap
      then spec_walk medianGap index (current ++ [index]) rest'
      else current :: spec_walk medianGap index [index] rest'
  end.

(** "Sort pooled indices ascending; compute the median of consecutive
    differences (medianGap)": the first index opens the first cluster. *)
Definition spec_clusters (pooled : list Z) : list (list Z) :=
  match Np.sort_int pooled with
  | [] => []
  | first :: rest =>
      let medianGap := Np.median_int (Np.diff_int (first :: rest)) in
      spec_walk medianGap first [first] rest
  end.

(** "Each cluster collapses to its median." *)
Definition spec_consensus (pooled : list Z) : list float64 :=
  map Np.median_int (spec_clusters pooled).

End Spec.

Import Spec.

(** ** Consensus peaks and pruning *)

(** A strictly increasing sequence of floats: every element is below every
    later one (so none is [nan] when there are two or more, and no value
    occurs twice). *)
Definition increasing (l : list float64) : Prop :=
  StronglySorted (fun a b => flt a b = true) l.

Definition finite_from (lo : Z) (m : float64) : Prop :=
  exists v, m = Fin v /\ inject_Z lo <= v.

(** The invariant of the inner loop: the list is the pass's input with some
    elements deleted, and the index stays within it, past the first
    element. *)
Definition inner_inv (l0 : list float64) (s : inner_state) : Prop :=
  sublist (in_peaks s) l0 /\ (1 <= in_i s <= length (in_peaks s))%nat.

(** The threshold of pass [k] (the first pass is pass 0): [0.9], lowered by
    [0.1] after every pass, in binary64. *)
Fixpoint nth_threshold (k : nat) : float64 :=
  match k with
  | O => lit (9 # 10)
  | S k' => fsub (nth_threshold k') (lit (1 # 10))
  end.

(** The invariant of the outer loop over the clustered list [peaks]: after
    [num_exec] passes the state holds the result of the last pass, run at
    the threshold of that pass on [peaks] itself, and every earlier pass left
    fewer than 6 peaks. *)
Definition outer_inv (fuel : nat) (peaks : list float64) (s : outer_state)
    : Prop :=
  threshold s = nth_threshold (num_exec s) /\
  broke s = (6 <? num_exec s)%nat /\
  (num_exec s <= 7)%nat /\
  (num_exec s = 0%nat ->
   num_peaks_iter s = 0%nat /\ all_peaks_final s = peaks) /\
  (forall n, num_exec s = S n ->
     prune_pass fuel (nth_threshold n) peaks = Returns (all_peaks_final s) /\
     num_peaks_iter s = length (all_peaks_final s) /\
     forall j r, (j < n)%nat ->
       prune_pass fuel (nth_threshold j) peaks = Returns r ->
       (length r < 6)%nat).

(** The peaks a pass keeps after [prev], the last peak retained so far: a
    peak goes when its gap to [prev] is below [bound]. *)
Fixpoint retain (bound prev : float64) (l : list float64) : list float64 :=
  match l with
  | [] => []
  | x :: r =>
      if flt (fsub x prev) bound
      then retain bound prev r
      else x :: retain bound x r
  end.

(** The largest gap between neighbours of the clustered list. *)
Definition max_gap (peaks : list float64) : float64 :=
  match Np.diff peaks with
  | [] => NaN
  | d :: ds => fold_left Np.fmax ds d
  end.

(** A pass at threshold [thr]: the first peak stays, and each later peak
    stays unless its gap to the previous retained peak is less than
    [thr * max_gap]. *)
Definition pass_spec (thr : float64) (peaks : list float64) : list float64 :=
  match peaks with
  | [] => []
  | p0 :: rest => p0 :: retain (fmul thr (max_gap peaks)) p0 rest
  end.

(** ** Bands *)

(** The statistic of one band (lines 165-166). *)
Definition band_median (c : list Z) : float64 :=
  Np.median_int (Np.diff_int c).

Section BandVocabulary.
Variable raw_valleys : Z -> Z -> list Z.
Variable smoothed_valleys : Z -> Z -> Z -> exn + list Z.

(** [c] is what the fine pass leaves for the band. *)
Definition band_result (fuel : nat) (band : Z * Z) (c : list Z) : Prop :=
  exists u,
    fine_pass (smoothed_valleys (fst band) (snd band)) fuel
      (raw_valleys (fst band) (snd band)) = Returns (mkFine c u).

End BandVocabulary.

(** ** The silk loop *)

Section SilkVocabulary.
Variable mask : Type.
Variable morph_open : mask -> Z -> Z -> mask.
Variable calculate_convexity : mask -> float64.

(** The channel mask after [n] iterations started with [i = i0]: iteration
    [k] (counted from 0) opens with a [(2+i) x (2+i)] element, [1+i] times,
    where [i = i0 + k]. *)
Fixpoint opened (b0 : mask) (i0 : Z) (n : nat) : mask :=
  match n with
  | O => b0
  | S k =>
      let i := (i0 + Z.of_nat k)%Z in
      morph_open (opened b0 i0 k) (2 + i) (1 + i)
  end.

(** [delta_conv] after [n] iterations: [0.001] before the first, then the
    convexity just measured minus [convexity], the value measured before
    the loop. *)
Definition delta_after (convexity : float64) (b0 : mask) (i0 : Z) (n : nat)
    : float64 :=
  match n with
  | O => lit (1 # 1000)
  | S _ => fsub (calculate_convexity (opened b0 i0 n)) convexity
  end.

Definition silk_state_at (convexity : float64) (b0 : mask) (i0 : Z) (n : nat)
    : silk_state mask :=
  mkSilk (opened b0 i0 n) (delta_after convexity b0 i0 n)
    (Some (i0 + Z.of_nat n)%Z).

End SilkVocabulary.

(** The number of iterations the bound [i <= i_var] leaves from [i]. *)
Definition iterations_left (i_var : float64) (i : Z) : nat :=
  match i_var with
  | Fin q => Z.to_nat (Qfloor q + 1 - i)
  | NaN => 0
  end.

(** ** Inputs for the witnesses and the counterexamples *)

(** A raw profile with 10 valleys. *)
Definition ten_valleys : list Z := [1; 3; 5; 7; 9; 11; 13; 15; 17; 19]%Z.



(** Modelled from the spec: [utility.ranges] is not among the sources.
    Section 4.6 has the ear "split into a fixed number of vertical bands";
    this instance cuts the columns [0, N) into [nb] ranges of equal width,
    each given by its start and end column. *)
Definition ranges_even (N nb : Z) : list (Z * Z) :=
  map (fun i => (N * Z.of_nat i / nb, N * (Z.of_nat i + 1) / nb)%Z)
    (range nb).

(** An ear whose three visited bands have few valleys: no band needs the
    fine pass to smooth. *)
Definition raw_example (lo hi : Z) : list Z :=
  if (lo =? 10)%Z then [10; 50; 90]%Z
  else if (lo =? 20)%Z then [12; 53]%Z
  else if (lo =? 30)%Z then [11; 52]%Z
  else [7; 8; 9]%Z.

Definition smoothed_example (lo hi w : Z) : exn + list Z := inl ValueError.

(** An ear whose convexity goes 0.75, 0.78125, 0.8125 with the openings;
    the mask is represented by the number of openings applied to it. *)
Definition open_once (m : nat) (ksize iterations : Z) : nat := S m.

Definition convexity_example (m : nat) : float64 :=
  match m with
  | 0%nat => Fin (3 # 4)
  | 1%nat => Fin (25 # 32)
  | 2%nat => Fin (13 # 16)
  | _ => Fin (7 # 8)
  end.

(** A photograph with two regions, of areas 100 and 400: the mask is
    represented by the number of regions that pass the filter.  An opening
    with a structuring element of size 2 or more removes the small region. *)
Definition open_two_regions (m : nat) (ksize iterations : Z) : nat :=
  if (2 <=? ksize)%Z then 1%nat else m.

Definition keep_regions (m : nat) : nat := m.

(** The coefficient of variation is 0.6 while both regions are there, and
    undefined on a single region. *)
Definition cov_two_regions (m : nat) : option float64 :=
  if (m <? 2)%nat then None else Some (Fin (6 # 10)).

(** The same photograph with a coefficient of variation of 0.3. *)
Definition cov_two_regions_mild (m : nat) : option float64 :=
  if (m <? 2)%nat then None else Some (Fin (3 # 10)).

(** A photograph whose regions stay apart: the coefficient of variation is
    0.6 whatever the mask. *)
Definition cov_steady (m : nat) : option float64 := Some (Fin (6 # 10)).

(** ** The spacing of the pruned peaks *)

(** Every peak of [l] is at least [bound] after the one before it, the
    first one after [prev]: no gap is below [bound]. *)
Fixpoint spaced (bound prev : float64) (l : list float64) : Prop :=
  match l with
  | [] => True
  | x :: r => flt (fsub x prev) bound = false /\ spaced bound x r
  end.

(** ** The windows of the QR scan *)

(** The corners [(i, j)] of the windows, row by row. *)
Definition windows (Y_points X_points : list Z) : list (Z * Z) :=
  flat_map (fun i => map (fun j => (i, j)) X_points) Y_points.

Section QrVocabulary.
Variable image : Type.
Variable symbol : Type.
Variable text : Type.

(** The variables of the scan after [n] more windows were counted. *)
Definition counted (st : Qr.qr_state image symbol text) (n : nat)
    : Qr.qr_state image symbol text :=
  Qr.mkQr (Qr.QRcode st) (Qr.QRcodeData st) (Qr.qr_count st + Z.of_nat n)%Z
    (Qr.qr_proof st).
End QrVocabulary.

(** ** Inputs for the examples of the QR scan and of the components *)

(** Modelled from the spec: [utility.start_points] is not among the
    sources, and the specification leaves the QR scan to an external
    collaborator without describing the grid.  This instance, for the
    examples only, puts a window at 0 and one against the far edge. *)
Definition start_points_example (size split_size : Z) (overlap : float64)
    : list Z :=
  [0; size - split_size]%Z.

(** A photograph 300 high and 500 wide, represented by the corner of the
    window cut from it ([None]: the whole photograph); the window at row 200
    and column 0 shows two codes, 7 and 8. *)
Definition crop_example (img : option (Z * Z)) (i j h w : Z)
    : option (Z * Z) :=
  Some (i, j).

Definition shape_example (img : option (Z * Z)) : Z * Z := (300, 500)%Z.

Definition decode_example (img : option (Z * Z)) : list Z :=
  match img with
  | Some (i, j) => if ((i =? 200) && (j =? 0))%Z then [7; 8]%Z else []
  | None => []
  end.

Definition data_example (s : Z) : exn + Z := inr s.

(** A label image of one row: the pixel at column [p] has the label [p]
    when [p] is below [nb], else the background label 0. *)
Definition labels_example (nb : Z) (p : Z) : Z :=
  if ((0 <=? p) && (p <? nb))%Z then p else 0%Z.

(** An ear whose second band has 11 raw valleys, so that the fine pass
    smooths it. *)
Definition raw_example_busy (lo hi : Z) : list Z :=
  if (lo =? 20)%Z then (0 :: ten_valleys)%Z else [10; 50; 90]%Z.


(* ================================================================== *)
(** * Reasoning about [while] loops *)
(* ================================================================== *)

Section WhileRules.
Variable S : Type.
Variable cond : S -> run bool.
Variable body : S -> run S.

Lemma while_unfold (fuel : nat) (s : S) :
  while (Datatypes.S fuel) cond body s =
  match cond s with
  | Returns true =>
      match body s with
      | Returns s' => while fuel cond body s'
      | Raises e => Raises e
      | OutOfFuel => OutOfFuel
      end
  | Returns false => Returns s
  | Raises e => Raises e
  | OutOfFuel => OutOfFuel
  end.
Proof. reflexivity. Qed.

(** Partial correctness: an invariant of the body holds on exit, where the
    condition is false. *)
Lemma while_invariant (I : S -> Prop) :
  (forall s s', I s -> cond s = Returns true -> body s = Returns s' -> I s') ->
  forall fuel s s',
    I s -> while fuel cond body s = Returns s' ->
    I s' /\ cond s' = Returns false.
Proof.
  intros Hstep fuel.
  induction fuel as [|fuel IH]; intros s s' Hs Hrun; [discriminate|].
  rewrite while_unfold in Hrun.
  destruct (cond s) as [[|]| |] eqn:Hc; try discriminate.
  - destruct (body s) as [s1| |] eqn:Hb; try discriminate.
    eapply IH; [|exact Hrun]. eapply Hstep; eauto.
  - inversion Hrun; subst. auto.
Qed.

(** Total correctness: under an invariant that keeps the condition and the
    body from raising, with a measure that the body decreases, the loop
    returns within [measure + 1] tests of the condition, in a state where
    the invariant holds and the condition is false. *)
Lemma while_total (I : S -> Prop) (m : S -> nat) :
  (forall s, I s -> exists b, cond s = Returns b) ->
  (forall s, I s -> cond s = Returns true ->
             exists s', body s = Returns s' /\ I s' /\ (m s' < m s)%nat) ->
  forall fuel s, I s -> (m s < fuel)%nat ->
    exists s', while fuel cond body s = Returns s' /\ I s' /\
               cond s' = Returns false.
Proof.
  intros Hc Hb fuel.
  induction fuel as [|fuel IH]; intros s Hs Hm; [lia|].
  rewrite while_unfold.
  destruct (Hc s Hs) as [[|] Ec]; rewrite Ec.
  - destruct (Hb s Hs Ec) as (s1 & Eb & Hs1 & Hlt). rewrite Eb.
    apply IH; [exact Hs1 | lia].
  - exists s. auto.
Qed.

(** More fuel does not change a finished run. *)
Lemma while_fuel_mono (fuel fuel' : nat) (s : S) :
  (fuel <= fuel')%nat ->
  while fuel cond body s <> OutOfFuel ->
  while fuel' cond body s = while fuel cond body s.
Proof.
  revert fuel' s.
  induction fuel as [|fuel IH]; intros fuel' s Hle Hrun.
  - exfalso. apply Hrun. reflexivity.
  - destruct fuel' as [|fuel']; [lia|].
    rewrite !while_unfold in *.
    destruct (cond s) as [[|]| |]; try reflexivity.
    destruct (body s) as [s1| |]; try reflexivity.
    apply IH; [lia | exact Hrun].
Qed.
End WhileRules.

(* ================================================================== *)
(** * Lists *)
(* ================================================================== *)

Section ListFacts.
Variable A : Type.

(** Looping over [range(len(l))] and reading [l[i]] visits the elements of
    [l] in order. *)
Lemma map_nth_range (d : A) (l : list A) :
  map (fun i => nth i l d) (range (Z.of_nat (length l))) = l.
Proof.
  unfold range. rewrite Nat2Z.id.
  induction l as [|x l IH]; [reflexivity|].
  cbn [length seq map nth]. f_equal.
  rewrite <- seq_shift, map_map. exact IH.
Qed.

Lemma fold_left_map_in (B C : Type) (f : C -> A -> C) (g : B -> A)
    (l : list B) (c0 : C) :
  fold_left (fun c b => f c (g b)) l c0 = fold_left f (map g l) c0.
Proof.
  revert c0. induction l as [|b l IH]; intro c0; [reflexivity|].
  cbn. apply IH.
Qed.

Lemma fold_range_nth (C : Type) (f : C -> A -> C) (d : A) (l : list A)
    (c0 : C) :
  fold_left (fun c i => f c (nth i l d)) (range (Z.of_nat (length l))) c0
  = fold_left f l c0.
Proof.
  rewrite (fold_left_map_in f (fun i => nth i l d)).
  now rewrite map_nth_range.
Qed.

Lemma sublist_refl (l : list A) : sublist l l.
Proof. induction l; constructor; assumption. Qed.

Lemma sublist_trans (l1 l2 l3 : list A) :
  sublist l1 l2 -> sublist l2 l3 -> sublist l1 l3.
Proof.
  intros H12 H23. revert l1 H12.
  induction H23 as [|x sub l H23 IH|x sub l H23 IH]; intros l1 H12.
  - exact H12.
  - constructor. apply IH, H12.
  - inversion H12 as [|y sub' l' H12'|y sub' l' H12']; subst.
    + apply sublist_skip. apply IH. exact H12'.
    + apply sublist_keep. apply IH. exact H12'.
Qed.

Lemma sublist_Forall (P : A -> Prop) (sub l : list A) :
  sublist sub l -> Forall P l -> Forall P sub.
Proof.
  induction 1 as [|x sub l _ IH|x sub l _ IH]; intro HF.
  - constructor.
  - inversion HF; subst. auto.
  - inversion HF; subst. constructor; auto.
Qed.

Lemma sublist_StronglySorted (R : A -> A -> Prop) (sub l : list A) :
  sublist sub l -> StronglySorted R l -> StronglySorted R sub.
Proof.
  induction 1 as [|x sub l Hs IH|x sub l Hs IH]; intro HS.
  - constructor.
  - inversion HS; subst. auto.
  - inversion HS; subst. constructor; [auto|].
    eapply sublist_Forall; eauto.
Qed.
End ListFacts.

(* ================================================================== *)
(** * Facts about the NumPy functions *)
(* ================================================================== *)

Section SortFacts.
Variable A : Type.
Variable leb : A -> A -> bool.

Lemma insert_perm (x : A) (l : list A) :
  Permutation (x :: l) (Np.insert leb x l).
Proof.
  induction l as [|y l IH]; cbn; [reflexivity|].
  destruct (leb x y); [reflexivity|].
  rewrite perm_swap. now constructor.
Qed.

Lemma sort_perm (l : list A) : Permutation l (Np.sort leb l).
Proof.
  induction l as [|x l IH]; cbn; [constructor|].
  rewrite <- insert_perm. now constructor.
Qed.

Lemma sort_length (l : list A) : length (Np.sort leb l) = length l.
Proof. symmetry. apply Permutation_length, sort_perm. Qed.

Lemma sort_In (x : A) (l : list A) : In x (Np.sort leb l) <-> In x l.
Proof.
  split; apply Permutation_in; [symmetry|]; apply sort_perm.
Qed.
End SortFacts.

Lemma insert_int_sorted (x : Z) (l : list Z) :
  StronglySorted Z.le l -> StronglySorted Z.le (Np.insert Z.leb x l).
Proof.
  induction 1 as [|y l Hs IH Hy]; cbn.
  - repeat constructor.
  - destruct (Z.leb_spec x y).
    + constructor; [constructor; assumption|].
      constructor; [assumption|].
      eapply Forall_impl; [|exact Hy]. cbn. intros; lia.
    + constructor; [exact IH|].
      eapply Permutation_Forall; [apply insert_perm|].
      constructor; [lia | exact Hy].
Qed.

(** [np.sort] returns an ascending array. *)
Lemma sort_int_sorted (l : list Z) : StronglySorted Z.le (Np.sort_int l).
Proof.
  unfold Np.sort_int.
  induction l as [|x l IH]; cbn; [constructor|].
  now apply insert_int_sorted.
Qed.

(** The differences of an ascending array are not negative. *)
Lemma diff_int_nonneg (l : list Z) :
  StronglySorted Z.le l -> Forall (fun d => (0 <= d)%Z) (Np.diff_int l).
Proof.
  induction 1 as [|x l Hs IH Hx]; [constructor|].
  destruct l as [|y l]; [constructor|].
  cbn [Np.diff_int]. constructor; [|exact IH].
  inversion Hx; subst. lia.
Qed.

Lemma diff_int_length (l : list Z) :
  length (Np.diff_int l) = (length l - 1)%nat.
Proof.
  induction l as [|x [|y l] IH]; try reflexivity.
  cbn [Np.diff_int length] in *. lia.
Qed.

(** The median of a non-empty integer array is a finite value between any
    two bounds of its elements. *)
Lemma median_int_bounds (l : list Z) (lo hi : Z) :
  l <> [] ->
  (forall x, In x l -> (lo <= x <= hi)%Z) ->
  exists q, Np.median_int l = Fin q /\ inject_Z lo <= q /\ q <= inject_Z hi.
Proof.
  intros Hne Hb.
  assert (Hnth : forall i, (i < length l)%nat ->
            (lo <= nth i (Np.sort_int l) 0%Z <= hi)%Z).
  { intros i Hi. apply Hb. apply (sort_In Z.leb).
    apply nth_In. unfold Np.sort_int. now rewrite sort_length. }
  unfold Np.median_int.
  assert (Hlen : length (Np.sort_int l) = length l)
    by apply sort_length.
  rewrite Hlen.
  destruct (length l) as [|n] eqn:Hn.
  { destruct l; [congruence | discriminate]. }
  assert (Hhalf : (Datatypes.S n / 2 < Datatypes.S n)%nat)
    by (apply Nat.div_lt; lia).
  destruct (Nat.even (Datatypes.S n)).
  - eexists. split; [reflexivity|].
    rewrite Qred_correct.
    pose proof (Hnth (Datatypes.S n / 2 - 1)%nat ltac:(lia)) as Ha.
    pose proof (Hnth (Datatypes.S n / 2)%nat Hhalf) as Hb'.
    set (a := nth (Datatypes.S n / 2 - 1) (Np.sort_int l) 0%Z) in *.
    set (b := nth (Datatypes.S n / 2) (Np.sort_int l) 0%Z) in *.
    rewrite inject_Z_plus.
    assert (inject_Z lo <= inject_Z a) by (rewrite <- Zle_Qle; lia).
    assert (inject_Z lo <= inject_Z b) by (rewrite <- Zle_Qle; lia).
    assert (inject_Z a <= inject_Z hi) by (rewrite <- Zle_Qle; lia).
    assert (inject_Z b <= inject_Z hi) by (rewrite <- Zle_Qle; lia).
    clearbody a b.
    change ((inject_Z a + inject_Z b) / 2)
      with ((inject_Z a + inject_Z b) * (1 # 2)).
    lra.
  - eexists. split; [reflexivity|].
    pose proof (Hnth (Datatypes.S n / 2)%nat Hhalf) as Hb'.
    split; rewrite <- Zle_Qle; lia.
Qed.

Lemma list_upper_bound (l : list Z) :
  forall x, In x l -> (x <= fold_right Z.max 0 l)%Z.
Proof.
  induction l as [|y l IH]; cbn; [tauto|].
  intros x [->|Hx]; [lia|]. specialize (IH x Hx). lia.
Qed.

Lemma median_int_nonneg (l : list Z) :
  l <> [] -> Forall (fun d => (0 <= d)%Z) l ->
  exists q, Np.median_int l = Fin q /\ 0 <= q.
Proof.
  intros Hne Hpos.
  destruct (@median_int_bounds l 0%Z (fold_right Z.max 0%Z l) Hne)
    as (q & Hq & Hlo & _).
  - intros x Hx. split; [|now apply list_upper_bound].
    rewrite Forall_forall in Hpos. now apply Hpos.
  - exists q. split; [exact Hq | exact Hlo].
Qed.

(* ================================================================== *)
(** * Clustering: the statement of the specification *)
(* ================================================================== *)

(** The loop of lines 192-199 builds the clusters of the walk. *)
Lemma cluster_fold_walk (med : float64) (rest : list Z) (st : cluster_state) :
  let st' := fold_left (cluster_step med) rest st in
  clustered_list st' ++ [cur_list st'] =
  clustered_list st ++ spec_walk med (prev_ele st) (cur_list st) rest.
Proof.
  revert st. induction rest as [|x rest IH]; intro st; [reflexivity|].
  cbn [fold_left spec_walk]. cbv zeta in IH. rewrite IH.
  unfold cluster_step.
  destruct (fle (of_int (Z.abs (x - prev_ele st))) med); cbn.
  - reflexivity.
  - now rewrite <- app_assoc.
Qed.

Lemma spec_walk_length (med : float64) (rest : list Z) :
  forall prev current,
    (1 <= length (spec_walk med prev current rest))%nat.
Proof.
  induction rest as [|x rest IH]; intros prev current; cbn [spec_walk].
  - cbn. lia.
  - destruct (fle _ _); [apply IH | cbn; lia].
Qed.

(** On at least two pooled indices the median gap is a number, not negative,
    so the first index joins the empty [cur_list]. *)
Lemma clusters_refine_spec (pooled : list Z) :
  (2 <= length pooled)%nat ->
  clusters (Np.sort_int pooled) = Returns (spec_clusters pooled).
Proof.
  intro Hlen.
  unfold clusters, spec_clusters.
  pose proof (sort_length Z.leb pooled) as Hl. fold Np.sort_int in Hl.
  pose proof (sort_int_sorted pooled) as Hsorted.
  destruct (Np.sort_int pooled) as [|first rest] eqn:Hs; [cbn in Hl; lia|].
  destruct (@median_int_nonneg (Np.diff_int (first :: rest)))
    as (q & Hq & Hq0).
  { intro E. apply (f_equal (@length Z)) in E.
    rewrite diff_int_length in E. cbn in E, Hl. lia. }
  { now apply diff_int_nonneg. }
  cbn [getitem nth_error bind]. rewrite fold_range_nth.
  cbn [fold_left]. f_equal.
  rewrite cluster_fold_walk.
  assert (Hle : Qle_bool (inject_Z 0) q = true) by now apply Qle_bool_iff.
  unfold cluster_step. cbn [prev_ele cur_list clustered_list].
  rewrite Z.sub_diag, Hq. cbn [Z.abs of_int fle].
  rewrite Hle. reflexivity.
Qed.

Lemma consensus_refine_spec (pooled : list Z) :
  (2 <= length pooled)%nat ->
  consensus pooled = Returns (spec_consensus pooled).
Proof.
  intro Hlen. unfold consensus, spec_consensus.
  now rewrite clusters_refine_spec.
Qed.

(** C1 (as amended). Given two or more pooled valley indices, the
    clustering of [krn] sorts them, takes the median of their consecutive
    differences as the median gap, walks the sorted sequence putting an index
    into the current cluster when its distance to the preceding index is at
    most the median gap and opening a new cluster otherwise, and maps every
    cluster to its median: it computes [spec_clusters] and [spec_consensus].
    For the pooled indices 10, 12, 50, 53, 90 (in any order) the differences
    are 2, 38, 3, 37, the median gap is 20, the clusters are [10,12],
    [50,53], [90] and the consensus peaks are 11, 51.5, 90. *)
Theorem C1_clustering_follows_spec :
  (forall pooled : list Z, (2 <= length pooled)%nat ->
     clusters (Np.sort_int pooled) = Returns (spec_clusters pooled) /\
     consensus pooled = Returns (spec_consensus pooled)) /\
  Np.sort_int [53; 10; 90; 12; 50]%Z = [10; 12; 50; 53; 90]%Z /\
  Np.diff_int [10; 12; 50; 53; 90]%Z = [2; 38; 3; 37]%Z /\
  Np.median_int [2; 38; 3; 37]%Z = Fin 20 /\
  clusters [10; 12; 50; 53; 90]%Z
    = Returns [[10; 12]; [50; 53]; [90]]%Z /\
  consensus [10; 12; 50; 53; 90]%Z = Returns [Fin 11; Fin (103 # 2); Fin 90] /\
  consensus [53; 10; 90; 12; 50]%Z = Returns [Fin 11; Fin (103 # 2); Fin 90].
Proof.
  split; [|repeat split; reflexivity].
  intros pooled Hlen. split.
  - now apply clusters_refine_spec.
  - now apply consensus_refine_spec.
Qed.

Lemma C1_clustering_follows_spec_witness :
  consensus [53; 10; 90; 12; 50]%Z
  = Returns (spec_consensus [53; 10; 90; 12; 50]%Z).
Proof.
  refine (proj2 (proj1 C1_clustering_follows_spec [53; 10; 90; 12; 50]%Z _)).
  cbn. lia.
Defined.

(** C1 as stated fails on a single pooled index: the array of differences
    is empty and its median is [nan], so the test of line 193 fails for the
    index itself; the loop closes the still empty first cluster and the code
    returns the two clusters [] and [5], with the consensus peaks [nan] and
    5, where the walk of the claim gives the one cluster [5] and the one
    peak 5. *)
Lemma C1_single_index_counterexample :
  clusters (Np.sort_int [5]%Z) = Returns [[]; [5]%Z] /\
  spec_clusters [5]%Z = [[5]%Z] /\
  consensus [5]%Z = Returns [NaN; Fin 5] /\
  spec_consensus [5]%Z = [Fin 5] /\
  consensus [5]%Z <> Returns (spec_consensus [5]%Z).
Proof. repeat split; try reflexivity. discriminate. Qed.

(* ================================================================== *)
(** * The consensus peaks increase *)
(* ================================================================== *)

(** The medians of the clusters of a walk over an ascending sequence
    increase: a new cluster opens at an index farther than the median gap,
    hence strictly after the last index of the cluster before it. *)
Lemma walk_medians_increasing (q : Q) (rest : list Z) :
  0 <= q ->
  forall (prev : Z) (current : list Z) (lo : Z),
    current <> [] ->
    (forall x, In x current -> (lo <= x <= prev)%Z) ->
    StronglySorted Z.le (prev :: rest) ->
    increasing (map Np.median_int (spec_walk (Fin q) prev current rest)) /\
    Forall (finite_from lo)
      (map Np.median_int (spec_walk (Fin q) prev current rest)).
Proof.
  intro Hq.
  induction rest as [|x rest IH]; intros prev current lo Hne Hcur Hsorted.
  - cbn [spec_walk map].
    destruct (median_int_bounds Hne Hcur) as (m & Hm & Hlo & _).
    rewrite Hm. split.
    + repeat constructor.
    + constructor; [|constructor]. exists m. auto.
  - assert (Hprev : (prev <= x)%Z).
    { inversion Hsorted as [|? ? _ Hall]; subst.
      inversion Hall; subst. assumption. }
    assert (Hsorted' : StronglySorted Z.le (x :: rest))
      by (inversion Hsorted; assumption).
    cbn [spec_walk].
    destruct (fle (of_int (Z.abs (x - prev))) (Fin q)) eqn:Hgap.
    + apply IH; [| |exact Hsorted'].
      * destruct current; discriminate.
      * intros y Hy. apply in_app_or in Hy. destruct Hy as [Hy|[<-|[]]].
        -- specialize (Hcur y Hy). lia.
        -- destruct current as [|c0 current]; [congruence|].
           specialize (Hcur c0 (or_introl eq_refl)). lia.
    + assert (Hlt : (prev < x)%Z).
      { cbn [fle of_int] in Hgap.
        destruct (Z.eq_dec prev x) as [->|Hneq]; [|lia].
        rewrite Z.sub_diag in Hgap. cbn [Z.abs] in Hgap.
        assert (Qle_bool (inject_Z 0) q = true) by now apply Qle_bool_iff.
        congruence. }
      destruct (median_int_bounds Hne Hcur) as (m & Hm & Hlo & Hhi).
      destruct (IH x [x] x) as [Hinc Hfin]; [discriminate| |exact Hsorted'|].
      { intros y [<-|[]]. lia. }
      assert (Hlo_prev : (lo <= prev)%Z).
      { destruct current as [|c0 current]; [congruence|].
        specialize (Hcur c0 (or_introl eq_refl)). lia. }
      cbn [map]. rewrite Hm. split.
      * constructor; [exact Hinc|].
        eapply Forall_impl; [|exact Hfin].
        intros a (v & -> & Hv). cbn [flt].
        apply negb_true_iff. destruct (Qle_bool v m) eqn:E; [|reflexivity].
        apply Qle_bool_iff in E.
        assert (inject_Z prev < inject_Z x) by (rewrite <- Zlt_Qlt; lia).
        lra.
      * constructor; [exists m; auto|].
        eapply Forall_impl; [|exact Hfin].
        intros a (v & -> & Hv). exists v. split; [reflexivity|].
        assert (inject_Z lo <= inject_Z x) by (rewrite <- Zle_Qle; lia).
        lra.
Qed.

(** The consensus peaks of two or more pooled indices are finite and
    strictly increasing. *)
Lemma consensus_increasing (pooled : list Z) :
  (2 <= length pooled)%nat ->
  exists peaks,
    consensus pooled = Returns peaks /\ increasing peaks /\
    Forall (fun m => is_nan m = false) peaks /\ (1 <= length peaks)%nat.
Proof.
  intro Hlen. exists (spec_consensus pooled).
  split; [now apply consensus_refine_spec|].
  unfold spec_consensus, spec_clusters.
  pose proof (sort_length Z.leb pooled) as Hl. fold Np.sort_int in Hl.
  pose proof (sort_int_sorted pooled) as Hsorted.
  destruct (Np.sort_int pooled) as [|first rest] eqn:Hs; [cbn in Hl; lia|].
  destruct (@median_int_nonneg (Np.diff_int (first :: rest)))
    as (q & Hq & Hq0).
  { intro E. apply (f_equal (@length Z)) in E.
    rewrite diff_int_length in E. cbn in E, Hl. lia. }
  { now apply diff_int_nonneg. }
  cbv zeta. rewrite Hq.
  destruct (@walk_medians_increasing q rest Hq0 first [first] first)
    as [Hinc Hfin]; [discriminate| |exact Hsorted|].
  { intros y [<-|[]]. lia. }
  split; [exact Hinc|]. split.
  - eapply Forall_impl; [|exact Hfin]. intros a (v & -> & _). reflexivity.
  - rewrite length_map. apply spec_walk_length.
Qed.

(* ================================================================== *)
(** * Pruning only deletes *)
(* ================================================================== *)

Lemma list_remove_sublist (x : float64) (l : list float64) :
  forall i, sublist (list_remove x i l) l.
Proof.
  induction l as [|y l IH]; intro i; cbn [list_remove]; [constructor|].
  destruct i as [|i].
  - constructor. apply sublist_refl.
  - destruct (feq y x).
    + constructor. apply sublist_refl.
    + apply sublist_keep. apply IH.
Qed.

Lemma list_remove_length (x : float64) (l : list float64) :
  forall i, (i < length l)%nat ->
    length (list_remove x i l) = (length l - 1)%nat.
Proof.
  induction l as [|y l IH]; intros i Hi; cbn [list_remove length] in *.
  - lia.
  - destruct i as [|i]; [lia|].
    destruct (feq y x); [lia|].
    cbn [length]. rewrite IH by lia. lia.
Qed.

Lemma getitem_lt (A : Type) (l : list A) (i : nat) :
  (i < length l)%nat -> exists x, getitem l i = Returns x /\ In x l.
Proof.
  intro Hi. unfold getitem.
  destruct (nth_error l i) as [x|] eqn:E.
  - exists x. split; [reflexivity|]. eapply nth_error_In; eauto.
  - apply nth_error_None in E. lia.
Qed.

Lemma inner_body_inv (thr dmax : float64) (l0 : list float64)
    (s : inner_state) :
  inner_inv l0 s -> inner_cond s = Returns true ->
  exists s', inner_body thr dmax s = Returns s' /\ inner_inv l0 s' /\
    (length (in_peaks s') - in_i s' < length (in_peaks s) - in_i s)%nat.
Proof.
  intros [Hsub Hi] Hc. unfold inner_cond in Hc.
  assert (Hlt : (in_i s < length (in_peaks s))%nat).
  { inversion Hc as [E]. now apply Nat.ltb_lt in E. }
  unfold inner_body.
  destruct (getitem_lt (in_peaks s) Hlt) as (x & -> & _). cbn [bind].
  pose proof (list_remove_length x (in_peaks s) Hlt) as Hrm.
  destruct (flt _ _); eexists; (split; [reflexivity|]); unfold inner_inv;
    cbn [in_peaks in_i].
  - split; [split|].
    + eapply sublist_trans; [apply list_remove_sublist | exact Hsub].
    + lia.
    + lia.
  - split; [split|]; [exact Hsub | lia | lia].
Qed.

(** A pass over two or more peaks returns, with enough fuel for the inner
    loop, what is left of its input; the first peak is never up for
    removal. *)
Lemma prune_pass_total (fuel : nat) (thr : float64) (l : list float64) :
  (2 <= length l)%nat -> (length l <= fuel)%nat ->
  exists r, prune_pass fuel thr l = Returns r /\ sublist r l /\
            (1 <= length r)%nat.
Proof.
  intros Hlen Hfuel. unfold prune_pass.
  destruct l as [|a [|b t]]; cbn [length] in Hlen; try lia.
  cbn [Np.diff Np.max getitem nth_error bind].
  set (dmax := fold_left Np.fmax _ _).
  destruct (@while_total _ inner_cond (inner_body thr dmax)
              (inner_inv (a :: b :: t))
              (fun s => (length (in_peaks s) - in_i s)%nat))
    with (fuel := fuel) (s := mkInner (a :: b :: t) a 1)
    as (s' & Hrun & [Hsub Hi] & _).
  - intros s _. eexists. reflexivity.
  - intros s Hs Hc. apply inner_body_inv; assumption.
  - split; [apply sublist_refl | cbn; lia].
  - cbn [in_peaks in_i length] in *. lia.
  - rewrite Hrun. cbn [bind]. exists (in_peaks s').
    repeat split; [exact Hsub | lia].
Qed.

Lemma inner_body_sublist (thr dmax : float64) (l : list float64)
    (s s' : inner_state) :
  sublist (in_peaks s) l -> inner_body thr dmax s = Returns s' ->
  sublist (in_peaks s') l.
Proof.
  intros Hsub Hb. unfold inner_body in Hb.
  destruct (getitem (in_peaks s) (in_i s)) as [x| |]; try discriminate.
  cbn [bind] in Hb.
  destruct (flt _ _); inversion Hb; subst; cbn [in_peaks].
  - eapply sublist_trans; [apply list_remove_sublist | exact Hsub].
  - exact Hsub.
Qed.

Lemma prune_pass_sublist (fuel : nat) (thr : float64) (l r : list float64) :
  prune_pass fuel thr l = Returns r -> sublist r l.
Proof.
  unfold prune_pass. intro H.
  destruct (Np.max (Np.diff l)) as [dmax| |]; try discriminate.
  destruct (getitem l 0) as [prev| |]; try discriminate.
  cbn [bind] in H.
  destruct (while fuel inner_cond (inner_body thr dmax) (mkInner l prev 1))
    as [s| |] eqn:Hrun; try discriminate.
  cbn [bind] in H. inversion H; subst.
  refine (proj1 (@while_invariant _ inner_cond (inner_body thr dmax)
                   (fun s => sublist (in_peaks s) l) _ fuel _ _ _ Hrun)).
  - intros s0 s1 Hs0 _ Hb. eapply inner_body_sublist; eauto.
  - apply sublist_refl.
Qed.

(** Whatever the outer loop returns is the clustered list with some peaks
    deleted. *)
Lemma prune_sublist (fuel : nat) (peaks : list float64) (s : outer_state) :
  prune fuel peaks = Returns s -> sublist (all_peaks_final s) peaks.
Proof.
  unfold prune. intro Hrun.
  refine (proj1 (@while_invariant _ outer_cond (outer_body fuel peaks)
                   (fun s => sublist (all_peaks_final s) peaks) _ fuel _ _ _
                   Hrun)).
  - intros s0 s1 _ _ Hb. unfold outer_body in Hb.
    destruct (prune_pass fuel (threshold s0) peaks) as [r| |] eqn:E;
      try discriminate.
    cbn [bind] in Hb. inversion Hb; subst. cbn [all_peaks_final].
    eapply prune_pass_sublist; eauto.
  - apply sublist_refl.
Qed.

(** C9 (as amended). For two or more pooled valley indices the consensus
    peaks produced by the clustering are finite and strictly increasing,
    hence without duplicates: a cluster's median lies strictly above the
    median of the cluster before it.  Pruning only deletes peaks, so what it
    returns is strictly increasing as well. *)
Theorem C9_consensus_peaks_increase (pooled : list Z) :
  (2 <= length pooled)%nat ->
  exists peaks,
    consensus pooled = Returns peaks /\
    increasing peaks /\
    forall fuel s, prune fuel peaks = Returns s ->
      sublist (all_peaks_final s) peaks /\ increasing (all_peaks_final s).
Proof.
  intro Hlen.
  destruct (consensus_increasing pooled Hlen) as (peaks & Hc & Hinc & _ & _).
  exists peaks. repeat split; try assumption.
  - now apply prune_sublist with (fuel := fuel).
  - eapply sublist_StronglySorted; [|exact Hinc].
    now apply prune_sublist with (fuel := fuel).
Qed.

Lemma C9_consensus_peaks_increase_witness :
  exists peaks,
    consensus [53; 10; 90; 12; 50]%Z = Returns peaks /\
    increasing peaks /\
    forall fuel s, prune fuel peaks = Returns s ->
      sublist (all_peaks_final s) peaks /\ increasing (all_peaks_final s).
Proof.
  apply (C9_consensus_peaks_increase [53; 10; 90; 12; 50]%Z).
  cbn. lia.
Defined.

(** C9 as stated fails on a single pooled valley: the median of its (empty)
    array of differences is [nan], the comparison of line 193 is false for
    the first index, an empty cluster is closed before it, and the consensus
    list is [nan, 5.0], which is not increasing. *)
Lemma C9_single_valley_counterexample :
  consensus [5]%Z = Returns [NaN; Fin 5] /\ ~ increasing [NaN; Fin 5].
Proof.
  split; [reflexivity|].
  intro H. inversion H as [|? ? _ Hall]; subst.
  inversion Hall; subst. discriminate.
Qed.

(* ================================================================== *)
(** * The outer pruning loop *)
(* ================================================================== *)

Lemma outer_body_inv (fuel : nat) (peaks : list float64) (s : outer_state) :
  (2 <= length peaks)%nat -> (length peaks <= fuel)%nat ->
  outer_inv fuel peaks s -> outer_cond s = Returns true ->
  exists s', outer_body fuel peaks s = Returns s' /\ outer_inv fuel peaks s' /\
             (7 - num_exec s' < 7 - num_exec s)%nat.
Proof.
  intros Hlen Hfuel (Hthr & Hbroke & Hle & H0 & HS) Hc.
  unfold outer_cond in Hc. inversion Hc as [E]. clear Hc.
  apply andb_true_iff in E. destruct E as [Eb En].
  apply negb_true_iff in Eb. apply Nat.ltb_lt in En.
  rewrite Hbroke in Eb. apply Nat.ltb_ge in Eb.
  unfold outer_body.
  destruct (@prune_pass_total fuel (threshold s) peaks Hlen Hfuel)
    as (r & Hr & _ & _).
  rewrite Hr. cbn [bind]. eexists. split; [reflexivity|].
  unfold outer_inv.
  cbn [threshold broke num_exec num_peaks_iter all_peaks_final].
  replace (num_exec s + 1)%nat with (S (num_exec s)) by lia.
  split; [|lia].
  split; [cbn [nth_threshold]; now rewrite Hthr|].
  split; [reflexivity|]. split; [lia|]. split; [discriminate|].
  - intros n Hn. inversion Hn; subst n. rewrite <- Hthr.
    split; [exact Hr|]. split; [reflexivity|].
    intros j r' Hj Hr'.
    destruct (num_exec s) as [|n0] eqn:Hexec; [lia|].
    destruct (HS n0 eq_refl) as (Hlast & Hnum & Hearlier).
    destruct (Nat.eq_dec j n0) as [->|Hneq].
    + rewrite Hlast in Hr'. inversion Hr'; subst. lia.
    + apply (Hearlier j r'); [lia | exact Hr'].
Qed.

(** With room for seven passes (eight tests of the condition) and for the
    inner loop, pruning two or more peaks returns. *)
Lemma prune_total (fuel : nat) (peaks : list float64) :
  (2 <= length peaks)%nat -> (8 <= fuel)%nat -> (length peaks <= fuel)%nat ->
  exists s, prune fuel peaks = Returns s /\ outer_inv fuel peaks s /\
            outer_cond s = Returns false.
Proof.
  intros Hlen H8 Hfuel. unfold prune.
  apply (@while_total _ outer_cond (outer_body fuel peaks)
           (outer_inv fuel peaks) (fun s => (7 - num_exec s)%nat)).
  - intros s _. eexists. reflexivity.
  - intros s Hs Hc. now apply outer_body_inv.
  - unfold outer_inv. cbn. repeat split; try lia; try discriminate.
  - cbn. lia.
Qed.

(** A [nan] at the head of the list stays there: the inner loop starts at
    index 1, and no element compares equal to [nan]. *)
Lemma prune_pass_head_nan (fuel : nat) (thr : float64)
    (t r : list float64) :
  prune_pass fuel thr (NaN :: t) = Returns r -> exists t', r = NaN :: t'.
Proof.
  unfold prune_pass. intro H.
  destruct (Np.max (Np.diff (NaN :: t))) as [dmax| |]; try discriminate.
  cbn [getitem nth_error bind] in H.
  destruct (while fuel inner_cond (inner_body thr dmax)
              (mkInner (NaN :: t) NaN 1)) as [s| |] eqn:Hrun;
    try discriminate.
  cbn [bind] in H. inversion H; subst.
  refine (proj1 (proj1 (@while_invariant _ inner_cond (inner_body thr dmax)
     (fun s => (exists t', in_peaks s = NaN :: t') /\ (1 <= in_i s)%nat)
     _ fuel _ _ _ Hrun))).
  - intros s0 s1 [[t0 Ht0] Hi] _ Hb. unfold inner_body in Hb.
    destruct (getitem (in_peaks s0) (in_i s0)) as [x| |]; try discriminate.
    cbn [bind] in Hb.
    destruct (flt _ _); inversion Hb; subst; cbn [in_peaks in_i].
    + rewrite Ht0. destruct (in_i s0) as [|i]; [lia|].
      cbn [list_remove feq]. split; [eexists; reflexivity | lia].
    + split; [eexists; eassumption | lia].
  - cbn. split; [eexists; reflexivity | lia].
Qed.

Lemma prune_head_nan (fuel : nat) (t : list float64) (s : outer_state) :
  prune fuel (NaN :: t) = Returns s ->
  exists t', all_peaks_final s = NaN :: t'.
Proof.
  unfold prune. intro Hrun.
  refine (proj1 (@while_invariant _ outer_cond (outer_body fuel (NaN :: t))
     (fun s => exists t', all_peaks_final s = NaN :: t') _ fuel _ _ _ Hrun)).
  - intros s0 s1 _ _ Hb. unfold outer_body in Hb.
    destruct (prune_pass fuel (threshold s0) (NaN :: t)) as [r| |] eqn:E;
      try discriminate.
    cbn [bind] in Hb. inversion Hb; subst. cbn [all_peaks_final].
    eapply prune_pass_head_nan; eauto.
  - eexists. reflexivity.
Qed.

(** Fewer than two peaks: the first pass takes [np.max] of an empty array. *)
Lemma prune_few_peaks (fuel : nat) (peaks : list float64) :
  (length peaks < 2)%nat -> prune (S fuel) peaks = Raises ValueError.
Proof.
  intro Hlen. destruct peaks as [|a [|b t]]; cbn [length] in Hlen; try lia;
    reflexivity.
Qed.

(** The drawing loop converts every peak with [int]. *)
Lemma draw_lines_from (lines : list float64) :
  forall acc,
    Forall (fun m => is_nan m = false) lines ->
    for_each lines (fun xs l => x1 <- int_of l ;; Returns (xs ++ [x1])) acc
    = Returns (acc ++ map (fun m => truncate (Np.value m)) lines).
Proof.
  induction lines as [|m lines IH]; intros acc Hfin; cbn [for_each map].
  - now rewrite app_nil_r.
  - inversion Hfin as [|? ? Hm Hrest]; subst.
    destruct m as [|v]; [discriminate|]. cbn [int_of bind Np.value].
    rewrite IH by assumption. now rewrite <- app_assoc.
Qed.

Lemma draw_lines_finite (lines : list float64) :
  Forall (fun m => is_nan m = false) lines ->
  draw_lines lines = Returns (map (fun m => truncate (Np.value m)) lines).
Proof. intro H. unfold draw_lines. now rewrite draw_lines_from. Qed.

Lemma draw_lines_head_nan (t : list float64) :
  draw_lines (NaN :: t) = Raises ValueError.
Proof. reflexivity. Qed.

Lemma consensus_single (x : Z) : consensus [x] = Returns [NaN; of_int x].
Proof. reflexivity. Qed.

Lemma consensus_empty : consensus [] = Raises IndexError.
Proof. reflexivity. Qed.

(** [krn] returns only from two or more pooled valleys that split into two
    or more clusters. *)
Lemma krn_consensus_returns_inv (fuel : nat) (dis : list float64)
    (pooled : list Z) (r : krn_result) :
  krn_consensus fuel dis pooled = Returns r ->
  (2 <= length pooled)%nat /\
  exists peaks, consensus pooled = Returns peaks /\ (2 <= length peaks)%nat.
Proof.
  unfold krn_consensus. intro H.
  destruct pooled as [|x [|y pooled]].
  - rewrite consensus_empty in H. discriminate.
  - rewrite consensus_single in H. cbn [bind] in H.
    destruct (prune fuel [NaN; of_int x]) as [s| |] eqn:Hp; try discriminate.
    destruct (prune_head_nan _ _ Hp) as [t' Ht'].
    cbn [bind] in H. rewrite Ht', draw_lines_head_nan in H. discriminate.
  - split; [cbn; lia|].
    destruct (consensus (x :: y :: pooled)) as [peaks| |] eqn:Hc;
      try discriminate.
    exists peaks. split; [reflexivity|].
    destruct (le_lt_dec 2 (length peaks)) as [|Hfew]; [assumption|].
    cbn [bind] in H. destruct fuel as [|fuel]; [discriminate|].
    rewrite (prune_few_peaks fuel _ Hfew) in H. discriminate.
Qed.

Lemma krn_consensus_returns (fuel : nat) (dis : list float64)
    (pooled : list Z) (peaks : list float64) :
  consensus pooled = Returns peaks ->
  (2 <= length pooled)%nat -> (2 <= length peaks)%nat ->
  (8 <= fuel)%nat -> (length peaks <= fuel)%nat ->
  exists s,
    prune fuel peaks = Returns s /\
    krn_consensus fuel dis pooled =
    Returns (mkResult (Np.median dis)
               (Np.median (Np.diff (all_peaks_final s)))
               (length (all_peaks_final s))
               (map (fun m => truncate (Np.value m)) (all_peaks_final s))).
Proof.
  intros Hc Hpooled Hpeaks H8 Hfuel.
  destruct (consensus_increasing pooled Hpooled)
    as (peaks' & Hc' & _ & Hfin & _).
  rewrite Hc in Hc'. inversion Hc'; subst peaks'.
  destruct (@prune_total fuel peaks Hpeaks H8 Hfuel) as (s & Hs & _ & _).
  exists s. split; [exact Hs|].
  unfold krn_consensus. rewrite Hc. cbn [bind]. rewrite Hs. cbn [bind].
  rewrite draw_lines_finite; [reflexivity|].
  eapply sublist_Forall; [|exact Hfin].
  eapply prune_sublist; eauto.
Qed.

(** C10. [krn] has a precondition the specification does not state.  On an
    empty pooled array reading [all_peaks[0]] raises [IndexError].  When the
    clustering yields fewer than two consensus peaks, [np.max] of the empty
    array of differences raises [ValueError] in the first pruning pass.  A
    single pooled valley ends in [ValueError] too ([int] of the [nan] peak
    that the clustering puts first).  So [krn] returns only when two or more
    pooled valleys give two or more consensus peaks, and in that case, given
    the fuel for seven passes, it does return. *)
Theorem C10_krn_needs_two_consensus_peaks :
  (forall fuel dis, krn_consensus fuel dis [] = Raises IndexError) /\
  (forall fuel dis pooled peaks,
     consensus pooled = Returns peaks -> (length peaks < 2)%nat ->
     krn_consensus (S fuel) dis pooled = Raises ValueError) /\
  (forall fuel dis x, (8 <= fuel)%nat ->
     krn_consensus fuel dis [x] = Raises ValueError) /\
  (forall fuel dis pooled r,
     krn_consensus fuel dis pooled = Returns r ->
     (2 <= length pooled)%nat /\
     exists peaks,
       consensus pooled = Returns peaks /\ (2 <= length peaks)%nat) /\
  (forall fuel dis pooled peaks,
     consensus pooled = Returns peaks ->
     (2 <= length pooled)%nat -> (2 <= length peaks)%nat ->
     (8 <= fuel)%nat -> (length peaks <= fuel)%nat ->
     exists r, krn_consensus fuel dis pooled = Returns r).
Proof.
  split; [reflexivity|]. split; [|split; [|split]].
  - intros fuel dis pooled peaks Hc Hfew. unfold krn_consensus.
    rewrite Hc. cbn [bind]. now rewrite prune_few_peaks.
  - intros fuel dis x H8. unfold krn_consensus.
    rewrite consensus_single. cbn [bind].
    destruct (@prune_total fuel [NaN; of_int x]) as (s & Hs & _ & _);
      [cbn; lia | exact H8 | cbn; lia |].
    rewrite Hs. cbn [bind].
    destruct (prune_head_nan _ _ Hs) as [t' Ht'].
    now rewrite Ht', draw_lines_head_nan.
  - intros fuel dis pooled r H. eapply krn_consensus_returns_inv; eauto.
  - intros fuel dis pooled peaks Hc H2 H2' H8 Hfuel.
    destruct (@krn_consensus_returns fuel dis pooled peaks Hc H2 H2' H8 Hfuel)
      as (s & _ & Hr).
    eexists. exact Hr.
Qed.

Lemma C10_krn_needs_two_consensus_peaks_witness :
  (krn_consensus 1 [] [10; 12]%Z = Raises ValueError) /\
  (krn_consensus 8 [] [5]%Z = Raises ValueError) /\
  (exists r, krn_consensus 8 [] [10; 12; 50; 53; 90]%Z = Returns r).
Proof.
  destruct C10_krn_needs_two_consensus_peaks
    as (_ & Hfew & Hone & _ & Hret).
  split; [|split].
  - apply (Hfew 0%nat [] [10; 12]%Z [Fin 11]); [reflexivity | cbn; lia].
  - apply (Hone 8%nat [] 5%Z). lia.
  - apply (Hret 8%nat [] [10; 12; 50; 53; 90]%Z
             [Fin 11; Fin (103 # 2); Fin 90]);
      [reflexivity | cbn; lia | cbn; lia | lia | cbn; lia].
Defined.

(* ================================================================== *)
(** * What one pruning pass keeps *)
(* ================================================================== *)

Lemma flt_not_feq (a b : float64) : flt a b = true -> feq a b = false.
Proof.
  destruct a as [|x], b as [|y]; cbn; try reflexivity; try discriminate.
  intro H. apply negb_true_iff in H.
  destruct (Qeq_bool x y) eqn:E; [|reflexivity].
  apply Qeq_bool_iff in E.
  assert (Qle_bool y x = true)
    by (apply Qle_bool_iff; rewrite E; apply Qle_refl).
  congruence.
Qed.

Lemma increasing_app_before (pre : list float64) (x : float64)
    (r : list float64) :
  increasing (pre ++ x :: r) -> Forall (fun y => feq y x = false) pre.
Proof.
  unfold increasing. induction pre as [|y pre IH]; cbn; intro H.
  - constructor.
  - inversion H as [|? ? Hs Hall]; subst. constructor; [|auto].
    apply flt_not_feq. rewrite Forall_forall in Hall.
    apply Hall. apply in_or_app. right. left. reflexivity.
Qed.

Lemma list_remove_at (x : float64) (pre r : list float64) :
  Forall (fun y => feq y x = false) pre ->
  list_remove x (length pre) (pre ++ x :: r) = pre ++ r.
Proof.
  induction 1 as [|y pre Hy _ IH]; cbn; [reflexivity|].
  now rewrite Hy, IH.
Qed.

Lemma getitem_app (A : Type) (pre : list A) (x : A) (r : list A) :
  getitem (pre ++ x :: r) (length pre) = Returns x.
Proof.
  unfold getitem. rewrite nth_error_app2 by lia.
  now rewrite Nat.sub_diag.
Qed.

(** On an increasing list the inner loop computes [retain]: [l.remove(l[i])]
    deletes the element at [i], no earlier element being equal to it. *)
Lemma inner_loop_retain (thr dmax : float64) (suf : list float64) :
  forall (pre : list float64) (prev : float64) (fuel : nat),
    (length suf < fuel)%nat ->
    increasing (pre ++ suf) ->
    exists s,
      while fuel inner_cond (inner_body thr dmax)
        (mkInner (pre ++ suf) prev (length pre)) = Returns s /\
      in_peaks s = pre ++ retain (fmul thr dmax) prev suf.
Proof.
  induction suf as [|x r IH]; intros pre prev fuel Hfuel Hinc;
    (destruct fuel as [|fuel]; [cbn in Hfuel; lia|]);
    rewrite while_unfold; unfold inner_cond at 1; cbn [in_peaks in_i].
  - rewrite app_nil_r, Nat.ltb_irrefl. eexists. split; [reflexivity|].
    cbn. now rewrite app_nil_r.
  - assert (Hlt : (length pre <? length (pre ++ x :: r))%nat = true).
    { apply Nat.ltb_lt. rewrite length_app. cbn. lia. }
    rewrite Hlt. unfold inner_body at 1. cbn [in_peaks in_i in_prev].
    rewrite getitem_app. cbn [bind retain].
    destruct (flt (fsub x prev) (fmul thr dmax)).
    + rewrite list_remove_at by (eapply increasing_app_before; eauto).
      apply IH; [cbn in Hfuel; lia|].
      unfold increasing in *.
      eapply sublist_StronglySorted; [|exact Hinc].
      clear. induction pre; cbn.
      * constructor. apply sublist_refl.
      * now apply sublist_keep.
    + replace (length pre + 1)%nat with (length (pre ++ [x]))
        by (rewrite length_app; reflexivity).
      replace (pre ++ x :: r) with ((pre ++ [x]) ++ r) in *
        by (now rewrite <- app_assoc).
      destruct (IH (pre ++ [x]) x fuel) as (s & Hs & Hp);
        [cbn in Hfuel; lia | exact Hinc |].
      exists s. split; [exact Hs|]. rewrite Hp. now rewrite <- app_assoc.
Qed.

(** A pass of the code is [pass_spec] on an increasing list. *)
Lemma prune_pass_spec (fuel : nat) (thr : float64) (l : list float64) :
  increasing l -> (2 <= length l)%nat -> (length l <= fuel)%nat ->
  prune_pass fuel thr l = Returns (pass_spec thr l).
Proof.
  intros Hinc Hlen Hfuel.
  destruct l as [|a [|b t]]; cbn [length] in Hlen; try lia.
  unfold prune_pass, pass_spec.
  assert (Hmax : Np.max (Np.diff (a :: b :: t))
                 = Returns (max_gap (a :: b :: t))) by reflexivity.
  rewrite Hmax. cbn [getitem nth_error bind].
  destruct (@inner_loop_retain thr (max_gap (a :: b :: t))
              (b :: t) [a] a fuel) as (s & Hs & Hp).
  - cbn [length] in *. lia.
  - exact Hinc.
  - cbn [app length] in Hs. rewrite Hs. cbn [bind]. now rewrite Hp.
Qed.

(** C3 (as amended). Pruning an increasing clustered list of two or more
    peaks runs passes at the thresholds 0.9, 0.9 - 0.1, ... (binary64).
    Every pass starts again from the whole clustered list and removes the
    peaks whose gap to the previous retained peak is less than the threshold
    times the largest gap of the clustered list.  The loop goes on while a
    pass leaves fewer than 6 peaks: it stops after the first pass that
    leaves 6 or more, and in any case after the seventh pass. *)
Theorem C3_adaptive_pruning (fuel : nat) (peaks : list float64) :
  increasing peaks -> (2 <= length peaks)%nat ->
  (8 <= fuel)%nat -> (length peaks <= fuel)%nat ->
  exists s n,
    prune fuel peaks = Returns s /\
    num_exec s = S n /\ (n <= 6)%nat /\
    nth_threshold 0 = lit (9 # 10) /\
    (forall k, nth_threshold (S k) = fsub (nth_threshold k) (lit (1 # 10))) /\
    all_peaks_final s = pass_spec (nth_threshold n) peaks /\
    (forall j, (j < n)%nat ->
       (length (pass_spec (nth_threshold j) peaks) < 6)%nat) /\
    ((6 <= length (all_peaks_final s))%nat \/ n = 6%nat).
Proof.
  intros Hinc Hlen H8 Hfuel.
  destruct (@prune_total fuel peaks Hlen H8 Hfuel)
    as (s & Hrun & (Hthr & Hbroke & Hle & H0 & HS) & Hexit).
  unfold outer_cond in Hexit. inversion Hexit as [E]. clear Hexit.
  apply andb_false_iff in E.
  destruct (num_exec s) as [|n] eqn:Hn.
  { exfalso. destruct (H0 eq_refl) as [Hnum _].
    rewrite Hbroke, Hnum in E. cbn in E. destruct E; discriminate. }
  destruct (HS n eq_refl) as (Hlast & Hnum & Hearlier).
  rewrite (prune_pass_spec (nth_threshold n) Hinc Hlen Hfuel) in Hlast.
  inversion Hlast as [Hfinal].
  exists s, n.
  split; [exact Hrun|]. split; [exact Hn|]. split; [lia|].
  split; [reflexivity|]. split; [reflexivity|].
  split; [symmetry; exact Hfinal|].
  split.
  - intros j Hj. apply (Hearlier j); [exact Hj|].
    now apply prune_pass_spec.
  - rewrite Hbroke, Hnum in E. destruct E as [E|E].
    + right. apply negb_false_iff, Nat.ltb_lt in E. lia.
    + left. apply Nat.ltb_ge in E. exact E.
Qed.

Lemma C3_adaptive_pruning_witness :
  exists s n,
    prune 8 [Fin 11; Fin (103 # 2); Fin 90] = Returns s /\
    num_exec s = S n /\ (n <= 6)%nat /\
    nth_threshold 0 = lit (9 # 10) /\
    (forall k, nth_threshold (S k) = fsub (nth_threshold k) (lit (1 # 10))) /\
    all_peaks_final s
      = pass_spec (nth_threshold n) [Fin 11; Fin (103 # 2); Fin 90] /\
    (forall j, (j < n)%nat ->
       (length (pass_spec (nth_threshold j) [Fin 11; Fin (103 # 2); Fin 90])
        < 6)%nat) /\
    ((6 <= length (all_peaks_final s))%nat \/ n = 6%nat).
Proof.
  apply (@C3_adaptive_pruning 8 [Fin 11; Fin (103 # 2); Fin 90]).
  - repeat constructor.
  - cbn. lia.
  - lia.
  - cbn. lia.
Defined.

(** C3 as stated fails on the consensus peaks of scenario C: three peaks
    are left after every pass, fewer than 6, yet the loop does not exit; it
    runs seven passes, not six.  With six evenly spaced peaks the first pass
    leaves 6 peaks and the loop exits after that one pass. *)
Lemma C3_seven_passes_counterexample :
  (exists s,
     prune 8 [Fin 11; Fin (103 # 2); Fin 90] = Returns s /\
     all_peaks_final s = [Fin 11; Fin (103 # 2); Fin 90] /\
     num_peaks_iter s = 3%nat /\ num_exec s = 7%nat) /\
  (exists s,
     prune 8 [Fin 0; Fin 10; Fin 20; Fin 30; Fin 40; Fin 50] = Returns s /\
     num_peaks_iter s = 6%nat /\ num_exec s = 1%nat).
Proof.
  split; eexists; (split; [vm_compute; reflexivity|]); cbn; auto.
Qed.

(* ================================================================== *)
(** * The fine pass *)
(* ================================================================== *)

Section FinePassFacts.
Variable smoothed_valleys : Z -> exn + list Z.


(** The same, the window [u0 + 2k] making SciPy raise. *)
Lemma fine_loop_raises (k : nat) :
  forall (c0 : list Z) (e : exn) (u0 : Z) (fuel : nat),
    (9 < length c0)%nat ->
    (forall j, (j < k)%nat ->
       exists cj, smoothed_valleys (u0 + 2 * Z.of_nat j)%Z = inr cj /\
                  (9 < length cj)%nat) ->
    smoothed_valleys (u0 + 2 * Z.of_nat k)%Z = inl e ->
    (k + 1 <= fuel)%nat ->
    while fuel fine_cond (fine_body smoothed_valleys) (mkFine c0 u0)
    = Raises e.
Proof.
  induction k as [|k IH]; intros c0 e u0 fuel Hc0 Hbig Hk Hfuel;
    (destruct fuel as [|fuel]; [lia|]);
    rewrite while_unfold; unfold fine_cond at 1; cbn [c u];
    (assert (E : (9 <? length c0)%nat = true) by now apply Nat.ltb_lt);
    rewrite E; unfold fine_body at 1; cbn [c u].
  - replace (u0 + 2 * Z.of_nat 0)%Z with u0 in Hk by lia.
    now rewrite Hk.
  - destruct (Hbig 0%nat ltac:(lia)) as (c1 & Hc1 & Hlen1).
    replace (u0 + 2 * Z.of_nat 0)%Z with u0 in Hc1 by lia.
    rewrite Hc1. cbn [call bind].
    apply (IH c1 e (2 + u0)%Z fuel Hlen1); try lia.
    + intros j Hj. destruct (Hbig (S j) ltac:(lia)) as (cj & Hcj & Hlenj).
      exists cj. split; [|exact Hlenj].
      rewrite <- Hcj. f_equal. lia.
    + rewrite <- Hk. f_equal. lia.
Qed.

(** The loop exits only on 9 valleys or fewer. *)
Lemma fine_pass_at_most_9 (fuel : nat) (c0 : list Z) (s : fine_state) :
  fine_pass smoothed_valleys fuel c0 = Returns s -> (length (c s) <= 9)%nat.
Proof.
  unfold fine_pass. intro Hrun.
  destruct (@while_invariant _ fine_cond (fine_body smoothed_valleys)
              (fun _ => True) (fun _ _ _ _ _ => I) fuel _ _ I Hrun)
    as [_ Hc].
  unfold fine_cond in Hc. inversion Hc as [E].
  apply Nat.ltb_ge in E. exact E.
Qed.
End FinePassFacts.

Section FinePassContract.
Variable smoothed_valleys : Z -> exn + list Z.

End FinePassContract.



(* ================================================================== *)
(** * The band loop *)
(* ================================================================== *)

Section BandFacts.
Variable ranges : Z -> Z -> list (Z * Z).
Variable raw_valleys : Z -> Z -> list Z.
Variable smoothed_valleys : Z -> Z -> Z -> exn + list Z.

Local Abbreviation body := (band_body raw_valleys smoothed_valleys).
Local Abbreviation result := (band_result raw_valleys smoothed_valleys).

Lemma band_loop_unfold (fuel : nat) (width : Z) :
  band_loop ranges raw_valleys smoothed_valleys fuel width
  = for_each (bands ranges width) (body fuel) ([], []).
Proof. reflexivity. Qed.

(** The loop appends, band after band, the median of the band and its
    valleys as they are. *)
Lemma band_loop_appends (fuel : nat) (bs : list (Z * Z)) :
  forall (cs : list (list Z)) (dis0 : list float64) (all0 : list Z),
    Forall2 (result fuel) bs cs ->
    for_each bs (body fuel) (dis0, all0)
    = Returns (dis0 ++ map band_median cs, all0 ++ concat cs).
Proof.
  induction bs as [|[lo hi] bs IH]; intros cs dis0 all0 Hcs;
    inversion Hcs as [|? c1 ? cs' [u1 Hc1] Hrest]; subst.
  - cbn. now rewrite !app_nil_r.
  - cbn [for_each band_body]. cbn [fst snd] in Hc1. rewrite Hc1.
    cbn [bind c]. rewrite (IH cs' _ _ Hrest).
    cbn [map concat]. now rewrite <- !app_assoc.
Qed.

Lemma band_loop_inv (fuel : nat) (bs : list (Z * Z)) :
  forall (dis0 dis : list float64) (all0 all : list Z),
    for_each bs (body fuel) (dis0, all0) = Returns (dis, all) ->
    exists cs,
      Forall2 (result fuel) bs cs /\
      dis = dis0 ++ map band_median cs /\ all = all0 ++ concat cs.
Proof.
  induction bs as [|[lo hi] bs IH]; intros dis0 dis all0 all Hrun.
  - cbn in Hrun. inversion Hrun; subst. exists [].
    repeat split; [constructor | |]; cbn; now rewrite app_nil_r.
  - cbn [for_each band_body] in Hrun.
    destruct (fine_pass (smoothed_valleys lo hi) fuel (raw_valleys lo hi))
      as [[c1 u1]| |] eqn:Hc1; try discriminate.
    cbn [bind c] in Hrun.
    destruct (IH _ _ _ _ Hrun) as (cs & Hcs & Hdis & Hall).
    exists (c1 :: cs). split; [|split].
    + constructor; [|exact Hcs]. exists u1. exact Hc1.
    + rewrite Hdis. cbn [map]. now rewrite <- app_assoc.
    + rewrite Hall. cbn [concat]. now rewrite <- app_assoc.
Qed.

(** With six ranges the loop visits three bands: those between the second
    and the fifth range start. *)
Lemma bands_of_six (width : Z) :
  length (ranges width 6) = 6%nat ->
  bands ranges width =
  let start k := fst (nth k (ranges width 6) (0, 0)%Z) in
  [(start 1%nat, start 2%nat); (start 2%nat, start 3%nat);
   (start 3%nat, start 4%nat)].
Proof.
  intro Hlen. unfold bands, band_starts.
  destruct (ranges width 6) as [|r0 [|r1 [|r2 [|r3 [|r4 [|r5 [|r6 l]]]]]]];
    try discriminate.
  reflexivity.
Qed.
End BandFacts.

(** C6 (as amended). [krn] asks for 6 ranges of the columns, keeps their
    start columns without the first and the last, and visits the 3 bands
    between neighbouring starts that remain: from the start of the second
    range to that of the third, of the third to the fourth, and of the fourth
    to the fifth.  The valleys of each visited band are appended to the
    pooled array as they are, band after band. *)
Theorem C6_three_bands_pooled (ranges : Z -> Z -> list (Z * Z))
    (raw_valleys : Z -> Z -> list Z)
    (smoothed_valleys : Z -> Z -> Z -> exn + list Z) (width : Z) :
  length (ranges width 6%Z) = 6%nat ->
  let start k := fst (nth k (ranges width 6%Z) (0, 0)%Z) in
  let band1 := (start 1%nat, start 2%nat) in
  let band2 := (start 2%nat, start 3%nat) in
  let band3 := (start 3%nat, start 4%nat) in
  bands ranges width = [band1; band2; band3] /\
  (forall fuel c1 c2 c3,
     band_result raw_valleys smoothed_valleys fuel band1 c1 ->
     band_result raw_valleys smoothed_valleys fuel band2 c2 ->
     band_result raw_valleys smoothed_valleys fuel band3 c3 ->
     band_loop ranges raw_valleys smoothed_valleys fuel width
     = Returns ([band_median c1; band_median c2; band_median c3],
                c1 ++ c2 ++ c3)) /\
  (forall fuel dis_kernel all_peaks,
     band_loop ranges raw_valleys smoothed_valleys fuel width
     = Returns (dis_kernel, all_peaks) ->
     exists c1 c2 c3,
       band_result raw_valleys smoothed_valleys fuel band1 c1 /\
       band_result raw_valleys smoothed_valleys fuel band2 c2 /\
       band_result raw_valleys smoothed_valleys fuel band3 c3 /\
       all_peaks = c1 ++ c2 ++ c3).
Proof.
  intros Hlen start band1 band2 band3.
  pose proof (bands_of_six ranges width Hlen) as Hb. cbv zeta in Hb.
  fold start in Hb. fold band1 band2 band3 in Hb.
  split; [exact Hb|]. split.
  - intros fuel c1 c2 c3 H1 H2 H3.
    rewrite band_loop_unfold, Hb.
    rewrite (@band_loop_appends raw_valleys smoothed_valleys fuel
               [band1; band2; band3] [c1; c2; c3]).
    + cbn [map concat app]. now rewrite app_nil_r.
    + repeat constructor; assumption.
  - intros fuel dis all Hrun. rewrite band_loop_unfold, Hb in Hrun.
    destruct (@band_loop_inv raw_valleys smoothed_valleys fuel _ _ _ _ _ Hrun)
      as (cs & Hcs & _ & Hall).
    inversion Hcs as [|? c1 ? cs1 H1 Hcs1]; subst.
    inversion Hcs1 as [|? c2 ? cs2 H2 Hcs2]; subst.
    inversion Hcs2 as [|? c3 ? cs3 H3 Hcs3]; subst.
    inversion Hcs3; subst.
    exists c1, c2, c3. repeat split; try assumption.
    cbn [concat app]. now rewrite app_nil_r.
Qed.

Lemma C6_three_bands_pooled_witness :
  bands ranges_even 60%Z = [(10, 20); (20, 30); (30, 40)]%Z /\
  band_loop ranges_even raw_example smoothed_example 1 60%Z
  = Returns ([Fin 40; Fin 41; Fin 41], [10; 50; 90; 12; 53; 11; 52]%Z).
Proof.
  destruct (@C6_three_bands_pooled ranges_even raw_example smoothed_example
              60%Z eq_refl) as (Hbands & Hloop & _).
  split; [exact Hbands|].
  apply (Hloop 1%nat [10; 50; 90]%Z [12; 53]%Z [11; 52]%Z);
    exists 19%Z; reflexivity.
Defined.

(** C6 as stated fails: of the six bands of a 60-column crop the loop
    visits three, not four; the band from column 40 on is never profiled. *)
Lemma C6_three_not_four_counterexample :
  ranges_even 60%Z 6%Z
  = [(0, 10); (10, 20); (20, 30); (30, 40); (40, 50); (50, 60)]%Z /\
  bands ranges_even 60%Z = [(10, 20); (20, 30); (30, 40)]%Z /\
  length (bands ranges_even 60%Z) = 3%nat.
Proof. repeat split. Qed.

(** C7 (as amended). [krn] returns the tuple (diff_pre_consensus,
    diff_post_consensus, num_peaks, krn_proof).  The first statistic is the
    median of the per-band medians: for every visited band the median of the
    differences between that band's neighbouring valleys.  The second is the
    median of the differences between neighbouring peaks of the pruned list,
    and num_peaks is the length of that list.  The peak positions themselves
    are not returned: they are drawn, truncated to whole columns, on the
    proof image. *)
Theorem C7_returned_statistics (ranges : Z -> Z -> list (Z * Z))
    (raw_valleys : Z -> Z -> list Z)
    (smoothed_valleys : Z -> Z -> Z -> exn + list Z)
    (fuel : nat) (width : Z) (cs : list (list Z)) (peaks : list float64) :
  Forall2 (band_result raw_valleys smoothed_valleys fuel)
    (bands ranges width) cs ->
  consensus (concat cs) = Returns peaks ->
  (2 <= length (concat cs))%nat -> (2 <= length peaks)%nat ->
  (8 <= fuel)%nat -> (length peaks <= fuel)%nat ->
  exists s,
    prune fuel peaks = Returns s /\
    krn ranges raw_valleys smoothed_valleys fuel width
    = Returns
        (mkResult
           (Np.median (map band_median cs))
           (Np.median (Np.diff (all_peaks_final s)))
           (length (all_peaks_final s))
           (map (fun m => truncate (Np.value m)) (all_peaks_final s))).
Proof.
  intros Hcs Hc Hpooled Hpeaks H8 Hfuel.
  destruct (@krn_consensus_returns fuel (map band_median cs) (concat cs)
              peaks Hc Hpooled Hpeaks H8 Hfuel) as (s & Hs & Hr).
  exists s. split; [exact Hs|].
  unfold krn. rewrite band_loop_unfold.
  rewrite (@band_loop_appends raw_valleys smoothed_valleys fuel _ cs [] [] Hcs).
  cbn [app bind]. exact Hr.
Qed.

Lemma C7_returned_statistics_witness :
  exists s,
    prune 8 [Fin 11; Fin 50; Fin (105 # 2); Fin 90] = Returns s /\
    krn ranges_even raw_example smoothed_example 8 60%Z
    = Returns
        (mkResult
           (Np.median
              (map band_median [[10; 50; 90]; [12; 53]; [11; 52]]%Z))
           (Np.median (Np.diff (all_peaks_final s)))
           (length (all_peaks_final s))
           (map (fun m => truncate (Np.value m)) (all_peaks_final s))).
Proof.
  apply (@C7_returned_statistics ranges_even raw_example smoothed_example
           8 60%Z [[10; 50; 90]; [12; 53]; [11; 52]]%Z
           [Fin 11; Fin 50; Fin (105 # 2); Fin 90]).
  - repeat constructor; exists 19%Z; reflexivity.
  - reflexivity.
  - cbn. lia.
  - cbn. lia.
  - lia.
  - cbn. lia.
Defined.

(** C7 as stated fails: for the bands with valleys 10, 50, 90 / 12, 53 /
    11, 52 the statistic returned first is 41, the median of the band medians
    40, 41, 41, while the median of the differences of the pooled valleys
    10, 11, 12, 50, 52, 53, 90 is 1.5. *)
Lemma C7_band_medians_counterexample :
  krn ranges_even raw_example smoothed_example 8 60%Z
  = Returns (mkResult (Fin 41) (Fin (79 # 2)) 3 [11; 50; 90]%Z) /\
  Np.median_int
    (Np.diff_int (Np.sort_int [10; 50; 90; 12; 53; 11; 52]%Z))
  = Fin (3 # 2).
Proof. split; vm_compute; reflexivity. Qed.

(* ================================================================== *)
(** * The silk clean-up loop *)
(* ================================================================== *)

Section SilkFacts.
Variable mask : Type.
Variable morph_open : mask -> Z -> Z -> mask.
Variable calculate_convexity : mask -> float64.

Local Abbreviation opened_by := (opened morph_open).
Local Abbreviation delta_at := (delta_after morph_open calculate_convexity).
Local Abbreviation state_at := (silk_state_at morph_open calculate_convexity).

Lemma silk_body_at (convexity : float64) (b0 : mask) (i0 : Z) (n : nat) :
  silk_body morph_open calculate_convexity convexity
    (state_at convexity b0 i0 n)
  = Returns (state_at convexity b0 i0 (S n)).
Proof.
  unfold silk_body, silk_state_at. cbn [silk_i b_chnnl opened delta_after].
  do 3 f_equal. lia.
Qed.

Lemma silk_cond_true (conv_var i_var : float64) (s : silk_state mask) :
  silk_cond conv_var i_var s = Returns true ->
  flt (delta_conv s) conv_var = true /\
  exists i, silk_i s = Some i /\ fle (of_int i) i_var = true.
Proof.
  unfold silk_cond.
  destruct (flt (delta_conv s) conv_var); [|discriminate].
  destruct (silk_i s) as [i|]; [|discriminate].
  intro H. inversion H as [E]. split; [reflexivity|].
  exists i. rewrite E. auto.
Qed.

Lemma silk_cond_at_true (conv_var i_var convexity : float64) (b0 : mask)
    (i0 : Z) (k : nat) :
  silk_cond conv_var i_var (state_at convexity b0 i0 k) = Returns true ->
  flt (delta_at convexity b0 i0 k) conv_var = true /\
  fle (of_int (i0 + Z.of_nat k)) i_var = true.
Proof.
  intro H. apply silk_cond_true in H. destruct H as (Hd & i & Hi & Hle).
  unfold silk_state_at in *. simpl silk_i in Hi. simpl delta_conv in Hd.
  inversion Hi; subst i. auto.
Qed.

Lemma fle_of_int_floor (i : Z) (q : Q) :
  fle (of_int i) (Fin q) = true -> (i <= Qfloor q)%Z.
Proof.
  cbn [fle of_int]. intro H. apply Qle_bool_iff in H.
  apply Qfloor_resp_le in H. now rewrite Qfloor_Z in H.
Qed.

(** The silk loop, entered with [i] bound to [i0], returns after some
    number [n] of iterations: the condition held before each of them and
    fails after the last; the mask has been opened [n] times and
    [delta_conv] is measured against the convexity from before the loop. *)
Lemma silk_loop_total (conv_var i_var convexity : float64) (b0 : mask)
    (i0 : Z) (fuel : nat) :
  (iterations_left i_var i0 < fuel)%nat ->
  exists n,
    silk_loop morph_open calculate_convexity fuel conv_var i_var convexity
      b0 (Some i0)
    = Returns (state_at convexity b0 i0 n) /\
    (forall k, (k < n)%nat ->
       silk_cond conv_var i_var (state_at convexity b0 i0 k)
       = Returns true) /\
    silk_cond conv_var i_var (state_at convexity b0 i0 n)
    = Returns false.
Proof.
  intro Hfuel. unfold silk_loop.
  destruct (@while_total _ (silk_cond conv_var i_var)
              (silk_body morph_open calculate_convexity convexity)
              (fun s => exists n,
                 s = state_at convexity b0 i0 n /\
                 forall k, (k < n)%nat ->
                   silk_cond conv_var i_var (state_at convexity b0 i0 k)
                   = Returns true)
              (fun s => match silk_i s with
                        | Some i => iterations_left i_var i
                        | None => 0%nat
                        end))
    with (fuel := fuel) (s := mkSilk b0 (lit (1 # 1000)) (Some i0))
    as (s' & Hrun & (n & -> & Hbefore) & Hexit).
  - intros s (n & -> & _). unfold silk_cond.
    destruct (flt _ _); cbn [silk_i silk_state_at]; eexists; reflexivity.
  - intros s (n & -> & Hbefore) Hc.
    exists (state_at convexity b0 i0 (S n)).
    split; [apply silk_body_at|]. split.
    + exists (S n). split; [reflexivity|].
      intros k Hk. destruct (Nat.eq_dec k n) as [->|]; [exact Hc|].
      apply Hbefore. lia.
    + apply silk_cond_true in Hc. destruct Hc as (_ & i & Hi & Hle).
      cbn [silk_i silk_state_at] in *. inversion Hi; subst i.
      unfold iterations_left. destruct i_var as [|q]; [discriminate|].
      apply fle_of_int_floor in Hle. lia.
  - exists 0%nat. split; [|intros k Hk; lia].
    unfold silk_state_at. cbn [opened delta_after]. do 2 f_equal. lia.
  - exact Hfuel.
  - exists n. repeat split; assumption.
Qed.
End SilkFacts.

(** C4 (as amended). In every iteration of the silk loop the gain compared
    with the minimum is the convexity after the current opening minus the
    convexity measured once before the loop; the loop goes on while that
    gain (0.001 before the first iteration) is below the minimum and
    [i <= i_var]; iteration [i] opens with a structuring element of size
    [2+i], [1+i] times, and [i] grows by one per iteration. *)
Theorem C4_delta_against_baseline (mask : Type)
    (morph_open : mask -> Z -> Z -> mask)
    (calculate_convexity : mask -> float64)
    (conv_var i_var : float64) (b0 : mask) (i0 : Z) (fuel : nat) :
  let convexity := calculate_convexity b0 in
  let state := silk_state_at morph_open calculate_convexity convexity b0 i0 in
  (iterations_left i_var i0 < fuel)%nat ->
  exists n,
    silk_loop morph_open calculate_convexity fuel conv_var i_var convexity
      b0 (Some i0) = Returns (state n) /\
    (forall k, (k < n)%nat ->
       flt (delta_conv (state k)) conv_var = true /\
       fle (of_int (i0 + Z.of_nat k)) i_var = true) /\
    (flt (delta_conv (state n)) conv_var = false \/
     fle (of_int (i0 + Z.of_nat n)) i_var = false) /\
    delta_conv (state 0%nat) = lit (1 # 1000) /\
    (forall k,
       b_chnnl (state (S k))
       = morph_open (b_chnnl (state k)) (2 + (i0 + Z.of_nat k))%Z
           (1 + (i0 + Z.of_nat k))%Z /\
       delta_conv (state (S k))
       = fsub (calculate_convexity (b_chnnl (state (S k)))) convexity /\
       silk_i (state k) = Some (i0 + Z.of_nat k)%Z).
Proof.
  intros convexity state Hfuel.
  destruct (@silk_loop_total mask morph_open calculate_convexity conv_var
              i_var convexity b0 i0 fuel Hfuel) as (n & Hrun & Hbefore & Hexit).
  exists n. split; [exact Hrun|]. split; [|split; [|split]].
  - intros k Hk. specialize (Hbefore k Hk).
    now apply silk_cond_at_true in Hbefore.
  - unfold silk_cond in Hexit. fold state in Hexit.
    destruct (flt (delta_conv (state n)) conv_var); [|now left].
    right. cbn [silk_i state silk_state_at] in Hexit.
    now inversion Hexit.
  - reflexivity.
  - intro k. repeat split.
Qed.

Lemma C4_delta_against_baseline_witness :
  exists n,
    silk_loop open_once convexity_example 11 (lit (4 # 100)) (of_int 10)
      (Fin (3 # 4)) 0%nat (Some 1%Z)
    = Returns (silk_state_at open_once convexity_example (Fin (3 # 4))
                 0%nat 1 n).
Proof.
  destruct (@C4_delta_against_baseline nat open_once convexity_example
              (lit (4 # 100)) (of_int 10) 0%nat 1%Z 11%nat)
    as (n & Hrun & _).
  - cbn. lia.
  - exists n. exact Hrun.
Defined.

(** C4 as stated fails: with convexity 0.75 before the loop, 0.78125 after
    the first opening and 0.8125 after the second, the loop stops after the
    second iteration with [delta_conv = 0.0625 >= 0.04], the gain over the
    value from before the loop; the gain over the previous iteration is
    0.03125, below 0.04, and [i = 3 <= 10], so the loop of the claim would
    go on. *)
Lemma C4_previous_iteration_counterexample :
  silk_loop open_once convexity_example 11 (lit (4 # 100)) (of_int 10)
    (convexity_example 0) 0%nat (Some 1%Z)
  = Returns (mkSilk 2%nat (Fin (1 # 16)) (Some 3%Z)) /\
  fsub (convexity_example 2) (convexity_example 0) = Fin (1 # 16) /\
  fsub (convexity_example 2) (convexity_example 1) = Fin (1 # 32) /\
  flt (Fin (1 # 32)) (lit (4 # 100)) = true /\
  fle (of_int 3) (of_int 10) = true.
Proof. repeat split; vm_compute; reflexivity. Qed.

(** The silk clean-up of one ear with and without its defaults.  With a
    convexity of 0.87 or more and no custom thresholds the channel mask and
    [i] are left as they are.  With a convexity below 0.87 the defaults 0.04
    and 10 apply and [i] restarts at 1, whatever custom thresholds were given
    and whatever [i] was before: the mask is opened [n] times, at least once
    and at most 10 times, where the gain stayed below 0.04 after each of the
    first [n - 1] openings and the loop stopped because the gain reached
    0.04 or the tenth opening was done. *)
Theorem silk_default_openings (mask : Type)
    (morph_open : mask -> Z -> Z -> mask)
    (calculate_convexity : mask -> float64)
    (fuel : nat) (i_in : option Z)
    (silk_cleanup : option (float64 * float64)) (b0 : mask) :
  let convexity := calculate_convexity b0 in
  let gain := delta_after morph_open calculate_convexity convexity b0 1 in
  (flt convexity (lit (87 # 100)) = false -> silk_cleanup = None ->
   silk_cleanup_module morph_open calculate_convexity fuel i_in silk_cleanup
     b0 = Returns (b0, i_in)) /\
  (flt convexity (lit (87 # 100)) = true -> (10 < fuel)%nat ->
   exists n,
     (1 <= n <= 10)%nat /\
     silk_cleanup_module morph_open calculate_convexity fuel i_in
       silk_cleanup b0
     = Returns (opened morph_open b0 1 n, Some (1 + Z.of_nat n)%Z) /\
     (forall k, (k < n)%nat -> flt (gain k) (lit (4 # 100)) = true) /\
     (n = 10%nat \/ flt (gain n) (lit (4 # 100)) = false)).
Proof.
  intros convexity gain. split.
  - intros Hge ->. unfold silk_cleanup_module, silk_triggered.
    fold convexity. rewrite Hge. reflexivity.
  - intros Hlt Hfuel.
    destruct (@silk_loop_total mask morph_open calculate_convexity
                (lit (4 # 100)) (of_int 10) convexity b0 1%Z fuel)
      as (n & Hrun & Hbefore & Hexit).
    { cbn. lia. }
    assert (Hn1 : (1 <= n)%nat).
    { destruct n as [|n]; [|lia]. vm_compute in Hexit. discriminate. }
    assert (Hn10 : (n <= 10)%nat).
    { specialize (Hbefore (n - 1)%nat ltac:(lia)).
      apply silk_cond_at_true in Hbefore. destruct Hbefore as [_ Hle].
      apply fle_of_int_floor in Hle. rewrite Qfloor_Z in Hle. lia. }
    exists n. split; [lia|]. split; [|split].
    + unfold silk_cleanup_module, silk_triggered. fold convexity.
      rewrite Hlt. cbn [orb]. rewrite Hrun.
      cbn [bind silk_state_at b_chnnl silk_i]. reflexivity.
    + intros k Hk. specialize (Hbefore k Hk).
      apply silk_cond_at_true in Hbefore. exact (proj1 Hbefore).
    + assert (Hc :
        silk_cond (lit (4 # 100)) (of_int 10)
          (silk_state_at morph_open calculate_convexity convexity b0 1 n)
        = if flt (gain n) (lit (4 # 100))
          then Returns (fle (of_int (1 + Z.of_nat n)) (of_int 10))
          else Returns false) by reflexivity.
      rewrite Hc in Hexit. clear Hc.
      destruct (flt (gain n) (lit (4 # 100))); [|now right]. left.
      destruct (Nat.eq_dec n 10) as [|Hne]; [assumption|]. exfalso.
      assert (Hin : fle (of_int (1 + Z.of_nat n)) (of_int 10) = true).
      { cbn [fle of_int]. apply Qle_bool_iff. rewrite <- Zle_Qle. lia. }
      rewrite Hin in Hexit. discriminate.
Qed.

Lemma silk_default_openings_witness :
  exists n,
    (1 <= n <= 10)%nat /\
    silk_cleanup_module open_once convexity_example 11 (Some 7%Z)
      (Some (lit (1 # 100), of_int 2)) 0%nat
    = Returns (opened open_once 0%nat 1 n, Some (1 + Z.of_nat n)%Z).
Proof.
  destruct (@silk_default_openings nat open_once convexity_example 11
              (Some 7%Z) (Some (lit (1 # 100), of_int 2)) 0%nat)
    as (_ & Hdefault).
  destruct Hdefault as (n & Hn & Hmod & _); [reflexivity | lia |].
  exists n. split; [exact Hn | exact Hmod].
Defined.

(** C8 (the code at the failing input). An ear of convexity 0.875 is
    cleaned under the custom thresholds 0.04 and 10: the test of line 511
    holds and the loop of line 516 is reached.  Only the default branch
    (line 501) assigns [i]; the custom branch (lines 506-509) does not.  On a
    photograph with a single ear the ear clean-up ran no loop, [i] is
    unbound, and the condition of the loop raises [NameError].  After an ear
    clean-up that used up its 10 passes [i] is 11, and the ear is not opened
    at all.  With [i = 1], as the default branch sets it, the same loop opens
    the ear. *)
Theorem C8_custom_thresholds_unbound_i :
  convexity_example 3 = Fin (7 # 8) /\
  silk_triggered (convexity_example 3) (Some (lit (4 # 100), of_int 10))
  = true /\
  ear_cleanup_module open_two_regions keep_regions cov_two_regions 12 None
    1%nat = Returns (1%nat, None, None) /\
  silk_cleanup_module open_once convexity_example 11 None
    (Some (lit (4 # 100), of_int 10)) 3%nat = Raises NameError /\
  ear_cleanup_module open_two_regions keep_regions cov_steady 12 None
    2%nat = Returns (1%nat, Some (Fin (6 # 10)), Some 11%Z) /\
  silk_cleanup_module open_once convexity_example 11 (Some 11%Z)
    (Some (lit (4 # 100), of_int 10)) 3%nat = Returns (3%nat, Some 11%Z) /\
  silk_cleanup_module open_once convexity_example 11 (Some 1%Z)
    (Some (lit (4 # 100), of_int 10)) 3%nat = Returns (13%nat, Some 11%Z).
Proof. repeat split; vm_compute; reflexivity. Qed.

(* ================================================================== *)
(** * The ear clean-up loop *)
(* ================================================================== *)

Section CleanupFacts.
Variable mask : Type.
Variable morph_open : mask -> Z -> Z -> mask.
Variable filter : mask -> mask.
Variable calculate_area_cov : mask -> option float64.

(** While the coefficient of variation stays defined, the loop returns
    after at most [max_iterations] passes: either the last coefficient is not
    above [max_cov], or the iterations are used up. *)
Lemma cleanup_loop_total (fuel : nat) (max_cov : float64) (q : Q)
    (filtered0 : mask) (v0 : float64) :
  (forall m, exists v, calculate_area_cov m = Some v) ->
  (Z.to_nat (Qfloor q) < fuel)%nat ->
  exists s v,
    cleanup_loop morph_open filter calculate_area_cov fuel max_cov (Fin q)
      filtered0 (Some v0) = Returns s /\
    cov s = Some v /\
    (1 <= cl_i s)%Z /\
    (cl_i s = 1%Z \/ (cl_i s - 1 <= Qfloor q)%Z) /\
    (fgt v max_cov = false \/ fle (of_int (cl_i s)) (Fin q) = false).
Proof.
  intros Hcov Hfuel. unfold cleanup_loop.
  destruct (@while_total _ (cleanup_cond max_cov (Fin q))
              (cleanup_body morph_open filter calculate_area_cov)
              (fun s => (exists v, cov s = Some v) /\ (1 <= cl_i s)%Z /\
                        (cl_i s = 1%Z \/ (cl_i s - 1 <= Qfloor q)%Z))
              (fun s => Z.to_nat (Qfloor q + 1 - cl_i s)))
    with (fuel := fuel) (s := mkCleanup filtered0 (Some v0) 1)
    as (s & Hrun & ((v & Hv) & H1 & Hle) & Hexit).
  - intros s ((v & Hv) & _). unfold cleanup_cond. rewrite Hv.
    eexists. reflexivity.
  - intros s ((v & Hv) & H1 & Hle) Hc.
    unfold cleanup_cond in Hc. rewrite Hv in Hc. inversion Hc as [E].
    apply andb_true_iff in E. destruct E as [_ E].
    apply fle_of_int_floor in E.
    unfold cleanup_body. eexists. split; [reflexivity|]. cbn [cov cl_i].
    split; [|lia]. split; [apply Hcov|]. split; [lia|]. right. lia.
  - cbn [cov cl_i]. split; [eexists; reflexivity | lia].
  - cbn [cl_i]. replace (Qfloor q + 1 - 1)%Z with (Qfloor q) by lia.
    exact Hfuel.
  - exists s, v.
    split; [exact Hrun|]. split; [exact Hv|]. split; [exact H1|].
    split; [exact Hle|].
    unfold cleanup_cond in Hexit. rewrite Hv in Hexit.
    injection Hexit as E. apply andb_false_iff in E. exact E.
Qed.
End CleanupFacts.

(** C5 (the code at the failing input). With two regions of coefficient of
    variation 0.6 the default loop is entered; the pass with [i = 2] leaves a
    single region, [calculate_area_cov] returns [None], and the next test
    [cov > max_cov] raises [TypeError]: the loop ends neither converged nor
    exhausted.  The custom loop (here max COV 0.2, started at 0.3) does the
    same. *)
Theorem C5_cleanup_loop_type_error :
  ear_cleanup_module open_two_regions keep_regions cov_two_regions 12 None
    2%nat = Raises TypeError /\
  ear_cleanup_module open_two_regions keep_regions cov_two_regions_mild 12
    (Some (lit (2 # 10), of_int 10)) 2%nat = Raises TypeError.
Proof. split; vm_compute; reflexivity. Qed.

(** The clean-up loop where the coefficient of variation stays defined:
    for a limit [max_iterations >= 1] it returns within [max_iterations]
    passes, that is [max_iterations + 1] evaluations of the coefficient with
    the one before the loop, converged (the last coefficient is not above
    [max_cov]) or exhausted ([i] has passed [max_iterations]). *)
Theorem cleanup_loop_converged_or_exhausted (mask : Type)
    (morph_open : mask -> Z -> Z -> mask) (filter : mask -> mask)
    (calculate_area_cov : mask -> option float64)
    (fuel : nat) (max_cov : float64) (max_iterations : Z)
    (filtered0 : mask) (v0 : float64) :
  (forall m, exists v, calculate_area_cov m = Some v) ->
  (1 <= max_iterations)%Z ->
  (Z.to_nat max_iterations < fuel)%nat ->
  exists s v,
    cleanup_loop morph_open filter calculate_area_cov fuel max_cov
      (of_int max_iterations) filtered0 (Some v0) = Returns s /\
    cov s = Some v /\
    (1 <= cl_i s <= max_iterations + 1)%Z /\
    (fgt v max_cov = false \/ (max_iterations < cl_i s)%Z).
Proof.
  intros Hcov H1 Hfuel.
  destruct (@cleanup_loop_total mask morph_open filter calculate_area_cov
              fuel max_cov (inject_Z max_iterations) filtered0 v0 Hcov)
    as (s & v & Hrun & Hv & Hi1 & Hile & Hexit).
  { now rewrite Qfloor_Z. }
  rewrite Qfloor_Z in Hile.
  exists s, v. split; [exact Hrun|]. split; [exact Hv|]. split; [lia|].
  destruct Hexit as [Hconv|Hexh]; [now left|]. right.
  cbn [fle of_int] in Hexh.
  destruct (Z_lt_le_dec max_iterations (cl_i s)) as [|Hle]; [assumption|].
  assert (Qle_bool (inject_Z (cl_i s)) (inject_Z max_iterations) = true).
  { apply Qle_bool_iff. now rewrite <- Zle_Qle. }
  congruence.
Qed.

Lemma cleanup_loop_converged_or_exhausted_witness :
  exists s v,
    cleanup_loop open_two_regions keep_regions cov_steady 11
      (lit (35 # 100)) (of_int 10) 2%nat (Some (Fin (6 # 10))) = Returns s /\
    cov s = Some v /\
    (1 <= cl_i s <= 10 + 1)%Z /\
    (fgt v (lit (35 # 100)) = false \/ (10 < cl_i s)%Z).
Proof.
  apply (@cleanup_loop_converged_or_exhausted nat open_two_regions
           keep_regions cov_steady 11 (lit (35 # 100)) 10%Z 2%nat
           (Fin (6 # 10))).
  - intro m. eexists. reflexivity.
  - lia.
  - cbn. lia.
Defined.

(* ================================================================== *)
(** * Clustering: what the clusters are *)
(* ================================================================== *)

Lemma spec_walk_concat (med : float64) (rest : list Z) :
  forall prev current,
    concat (spec_walk med prev current rest) = current ++ rest.
Proof.
  induction rest as [|index rest IH]; intros prev current; cbn [spec_walk].
  - cbn. reflexivity.
  - destruct (fle _ med).
    + rewrite IH, <- app_assoc. reflexivity.
    + cbn [concat]. rewrite IH. reflexivity.
Qed.

Lemma spec_walk_nonempty (med : float64) (rest : list Z) :
  forall prev current,
    current <> [] ->
    Forall (fun cl => cl <> []) (spec_walk med prev current rest).
Proof.
  induction rest as [|index rest IH]; intros prev current Hc; cbn [spec_walk].
  - constructor; [exact Hc|constructor].
  - destruct (fle _ med).
    + apply IH. destruct current; discriminate.
    + constructor; [exact Hc|]. apply IH. discriminate.
Qed.

Lemma spec_walk_count (med : float64) (rest : list Z) :
  forall prev current,
    (length (spec_walk med prev current rest) <= S (length rest))%nat.
Proof.
  induction rest as [|index rest IH]; intros prev current; cbn [spec_walk].
  - cbn. lia.
  - destruct (fle _ med); cbn [length].
    + specialize (IH index (current ++ [index])). lia.
    + specialize (IH index [index]). lia.
Qed.

Lemma diff_int_snoc (pre : list Z) (a b : Z) :
  Np.diff_int (pre ++ [a; b]) = Np.diff_int (pre ++ [a]) ++ [(b - a)%Z].
Proof.
  induction pre as [|x pre IH]; [reflexivity|].
  destruct pre as [|y pre]; [reflexivity|].
  change (Np.diff_int ((x :: y :: pre) ++ [a; b]))
    with ((y - x)%Z :: Np.diff_int ((y :: pre) ++ [a; b])).
  rewrite IH. reflexivity.
Qed.

(** Within a cluster built by the walk over a sorted array, neighbours are
    at most the median gap apart. *)
Lemma spec_walk_gaps (med : float64) (rest : list Z) :
  forall prev pre,
    StronglySorted Z.le (prev :: rest) ->
    Forall (fun d => fle (of_int d) med = true) (Np.diff_int (pre ++ [prev])) ->
    Forall (fun cl => Forall (fun d => fle (of_int d) med = true)
                        (Np.diff_int cl))
      (spec_walk med prev (pre ++ [prev]) rest).
Proof.
  induction rest as [|index rest IH]; intros prev pre Hs Hpre;
    cbn [spec_walk].
  - constructor; [exact Hpre|constructor].
  - inversion Hs as [|? ? Hs' Hle]; subst.
    inversion Hle as [|? ? Hpi _]; subst.
    destruct (fle (of_int (Z.abs (index - prev))) med) eqn:Hgap.
    + apply IH; [exact Hs'|].
      rewrite <- app_assoc. cbn [app]. rewrite diff_int_snoc.
      apply Forall_app. split; [exact Hpre|].
      constructor; [|constructor].
      rewrite Z.abs_eq in Hgap by lia. exact Hgap.
    + constructor; [exact Hpre|].
      apply (IH index []); [exact Hs'|]. constructor.
Qed.

(** Clustering loses nothing: the clusters are non-empty consecutive runs
    of the sorted pooled indices, which they give back when joined; inside a
    cluster neighbouring indices are at most the median gap apart.  So there
    are at most as many consensus peaks as pooled valleys. *)
Theorem clusters_partition_sorted (pooled : list Z) :
  (2 <= length pooled)%nat ->
  let medianGap := Np.median_int (Np.diff_int (Np.sort_int pooled)) in
  exists cl,
    clusters (Np.sort_int pooled) = Returns cl /\
    consensus pooled = Returns (map Np.median_int cl) /\
    concat cl = Np.sort_int pooled /\
    Forall (fun c => c <> []) cl /\
    (1 <= length cl <= length pooled)%nat /\
    Forall (fun c => Forall (fun d => fle (of_int d) medianGap = true)
                       (Np.diff_int c)) cl.
Proof.
  intros Hlen medianGap. exists (spec_clusters pooled).
  split; [now apply clusters_refine_spec|].
  split; [now apply consensus_refine_spec|].
  unfold spec_clusters. subst medianGap.
  pose proof (sort_length Z.leb pooled) as Hl. fold Np.sort_int in Hl.
  pose proof (sort_int_sorted pooled) as Hsorted.
  destruct (Np.sort_int pooled) as [|first rest] eqn:Hs; [cbn in Hl; lia|].
  cbv zeta. split; [|split; [|split]].
  - rewrite spec_walk_concat. reflexivity.
  - apply spec_walk_nonempty. discriminate.
  - split; [apply spec_walk_length|].
    rewrite <- Hl. cbn [length]. apply spec_walk_count.
  - apply (@spec_walk_gaps _ rest first []); [exact Hsorted|].
    constructor.
Qed.

Lemma clusters_partition_sorted_witness :
  exists cl,
    clusters (Np.sort_int [53; 10; 90; 12; 50]%Z) = Returns cl /\
    consensus [53; 10; 90; 12; 50]%Z = Returns (map Np.median_int cl) /\
    concat cl = Np.sort_int [53; 10; 90; 12; 50]%Z.
Proof.
  destruct (@clusters_partition_sorted [53; 10; 90; 12; 50]%Z)
    as (cl & H1 & H2 & H3 & _).
  - cbn. lia.
  - exists cl. repeat split; assumption.
Defined.

(* ================================================================== *)
(** * Pruning: the spacing it leaves *)
(* ================================================================== *)

Lemma retain_spaced (bound : float64) (l : list float64) :
  forall prev, spaced bound prev (retain bound prev l).
Proof.
  induction l as [|x r IH]; intro prev; cbn [retain]; [exact I|].
  destruct (flt (fsub x prev) bound) eqn:E.
  - apply IH.
  - cbn [spaced]. split; [exact E|apply IH].
Qed.

(** The outer loop ends with the list the last pass left, and that pass ran
    on the clustered list. *)
Lemma prune_last_pass (fuel : nat) (peaks : list float64) :
  increasing peaks -> (2 <= length peaks)%nat ->
  (8 <= fuel)%nat -> (length peaks <= fuel)%nat ->
  exists s n,
    prune fuel peaks = Returns s /\ num_exec s = S n /\ (n <= 6)%nat /\
    all_peaks_final s = pass_spec (nth_threshold n) peaks.
Proof.
  intros Hinc Hlen H8 Hfuel.
  destruct (@prune_total fuel peaks Hlen H8 Hfuel)
    as (s & Hrun & (Hthr & Hbroke & Hle & H0 & HS) & Hexit).
  unfold outer_cond in Hexit. inversion Hexit as [E]. clear Hexit.
  apply andb_false_iff in E.
  destruct (num_exec s) as [|n] eqn:Hn.
  { exfalso. destruct (H0 eq_refl) as [Hnum _].
    rewrite Hbroke, Hnum in E. cbn in E. destruct E; discriminate. }
  destruct (HS n eq_refl) as (Hlast & _).
  rewrite (prune_pass_spec (nth_threshold n) Hinc Hlen Hfuel) in Hlast.
  inversion Hlast as [Hfinal].
  exists s, n.
  repeat split; [exact Hrun | exact Hn | lia | symmetry; exact Hfinal].
Qed.

(** What pruning guarantees about the list it returns: the first consensus
    peak is always kept, and no two neighbouring peaks of the result are
    closer than the bound of the last pass, its threshold times the largest
    gap of the clustered list. *)
Theorem pruned_peaks_are_spaced (fuel : nat) (peaks : list float64) :
  increasing peaks -> (2 <= length peaks)%nat ->
  (8 <= fuel)%nat -> (length peaks <= fuel)%nat ->
  exists s n first kept,
    prune fuel peaks = Returns s /\
    num_exec s = S n /\
    hd_error peaks = Some first /\
    all_peaks_final s = first :: kept /\
    spaced (fmul (nth_threshold n) (max_gap peaks)) first kept.
Proof.
  intros Hinc Hlen H8 Hfuel.
  destruct (prune_last_pass Hinc Hlen H8 Hfuel) as (s & n & Hrun & Hn & _ & Hf).
  destruct peaks as [|p0 rest]; [cbn in Hlen; lia|].
  exists s, n, p0,
    (retain (fmul (nth_threshold n) (max_gap (p0 :: rest))) p0 rest).
  split; [exact Hrun|]. split; [exact Hn|]. split; [reflexivity|].
  split; [exact Hf|]. apply retain_spaced.
Qed.

Lemma pruned_peaks_are_spaced_witness :
  exists s n first kept,
    prune 8 [Fin 11; Fin 12; Fin (103 # 2); Fin 90] = Returns s /\
    num_exec s = S n /\
    hd_error [Fin 11; Fin 12; Fin (103 # 2); Fin 90] = Some first /\
    all_peaks_final s = first :: kept /\
    spaced (fmul (nth_threshold n)
              (max_gap [Fin 11; Fin 12; Fin (103 # 2); Fin 90])) first kept.
Proof.
  apply (@pruned_peaks_are_spaced 8 [Fin 11; Fin 12; Fin (103 # 2); Fin 90]).
  - repeat constructor.
  - cbn. lia.
  - lia.
  - cbn. lia.
Defined.

(* ================================================================== *)
(** * The first statistic and the bands *)
(* ================================================================== *)

Lemma median_int_finite (l : list Z) :
  l <> [] -> exists q, Np.median_int l = Fin q.
Proof.
  intro Hl. unfold Np.median_int.
  pose proof (sort_length Z.leb l) as Hlen. fold Np.sort_int in Hlen.
  destruct (length (Np.sort_int l)) as [|n] eqn:E.
  - destruct l; [congruence|discriminate].
  - destruct (Nat.even (S n)); eexists; reflexivity.
Qed.

Lemma band_median_nan (c : list Z) :
  is_nan (band_median c) = true <-> (length c < 2)%nat.
Proof.
  unfold band_median. split.
  - intro H. destruct c as [|x [|y c]]; cbn [length]; try lia.
    destruct (@median_int_finite (Np.diff_int (x :: y :: c))) as [q Hq];
      [discriminate|].
    rewrite Hq in H. discriminate.
  - intro H. destruct c as [|x [|y c]]; [reflexivity|reflexivity|].
    cbn [length] in H. lia.
Qed.

Lemma existsb_is_nan_false (l : list float64) :
  existsb is_nan l = false -> Forall (fun a => exists q, a = Fin q) l.
Proof.
  induction l as [|a l IH]; intro H; [constructor|].
  cbn [existsb] in H. apply orb_false_iff in H. destruct H as [Ha Hl].
  constructor; [|now apply IH].
  destruct a as [|q]; [discriminate|]. now exists q.
Qed.

Lemma nth_finite (l : list float64) (i : nat) :
  Forall (fun a => exists q, a = Fin q) l -> (i < length l)%nat ->
  exists q, nth i l NaN = Fin q.
Proof.
  intros Hall Hi. rewrite Forall_forall in Hall.
  apply Hall. now apply nth_In.
Qed.

(** [np.median] is [nan] exactly on an empty array and on one that holds a
    [nan]. *)
Lemma median_nan (l : list float64) :
  is_nan (Np.median l) = true <-> l = [] \/ existsb is_nan l = true.
Proof.
  unfold Np.median. split.
  - intro H. destruct (existsb is_nan l) eqn:E; [now right|]. left.
    apply existsb_is_nan_false in E.
    assert (Hs : Forall (fun a => exists q, a = Fin q) (Np.sort_float l)).
    { rewrite Forall_forall in *. intros a Ha. apply E.
      unfold Np.sort_float in Ha. now apply sort_In in Ha. }
    pose proof (sort_length (fun a b => Qle_bool (Np.value a) (Np.value b)) l)
      as Hlen.
    fold Np.sort_float in Hlen.
    destruct (length (Np.sort_float l)) as [|n] eqn:En.
    { destruct l; [reflexivity|discriminate]. }
    exfalso. destruct (Nat.even (S n)).
    + assert (Hdiv : (S n / 2 < S n)%nat)
        by (apply Nat.div_lt; lia).
      destruct (@nth_finite (Np.sort_float l) (S n / 2 - 1) Hs) as [a Ha];
        [lia|].
      destruct (@nth_finite (Np.sort_float l) (S n / 2) Hs) as [b Hb];
        [lia|].
      rewrite Ha, Hb in H. discriminate.
    + assert (Hdiv : (S n / 2 < S n)%nat)
        by (apply Nat.div_lt; lia).
      destruct (@nth_finite (Np.sort_float l) (S n / 2) Hs) as [b Hb];
        [lia|].
      rewrite Hb in H. discriminate.
  - intros [->|H]; [reflexivity|]. rewrite H. reflexivity.
Qed.

Lemma existsb_map_band_median (cs : list (list Z)) :
  existsb is_nan (map band_median cs) = true <->
  Exists (fun c => (length c < 2)%nat) cs.
Proof.
  induction cs as [|c cs IH]; cbn [map existsb].
  - split; [discriminate|]. intro H. inversion H.
  - rewrite orb_true_iff, IH, band_median_nan. split.
    + intros [H|H]; [now left|now right].
    + intro H. inversion H; subst; [now left|now right].
Qed.

(** The first statistic [krn] returns is [nan] exactly when the fine pass
    left fewer than two valleys in one of the bands visited: a single such
    band hides the medians of the others. *)
Theorem krn_diff_pre_nan (ranges : Z -> Z -> list (Z * Z))
    (raw_valleys : Z -> Z -> list Z)
    (smoothed_valleys : Z -> Z -> Z -> exn + list Z)
    (fuel : nat) (width : Z) (r : krn_result) :
  krn ranges raw_valleys smoothed_valleys fuel width = Returns r ->
  exists cs,
    Forall2 (band_result raw_valleys smoothed_valleys fuel)
      (bands ranges width) cs /\
    diff_pre_consensus r = Np.median (map band_median cs) /\
    (is_nan (diff_pre_consensus r) = true <->
     Exists (fun c => (length c < 2)%nat) cs).
Proof.
  unfold krn. rewrite band_loop_unfold. intro H.
  destruct (for_each (bands ranges width)
              (band_body raw_valleys smoothed_valleys fuel) ([], []))
    as [[dis all]| |] eqn:Hloop; try discriminate.
  destruct (@band_loop_inv raw_valleys smoothed_valleys fuel _ [] dis [] all
              Hloop) as (cs & Hcs & -> & ->).
  cbn [bind app] in H.
  destruct (krn_consensus_returns_inv _ _ _ H) as [Hpooled _].
  assert (Hpre : diff_pre_consensus r = Np.median (map band_median cs)).
  { unfold krn_consensus in H.
    destruct (consensus (concat cs)) as [peaks| |]; try discriminate.
    cbn [bind] in H.
    destruct (prune fuel peaks) as [s| |]; try discriminate.
    cbn [bind] in H.
    destruct (draw_lines (all_peaks_final s)) as [proof| |]; try discriminate.
    cbn [bind] in H. injection H as <-. reflexivity. }
  exists cs. split; [exact Hcs|]. split; [exact Hpre|].
  rewrite Hpre, median_nan, existsb_map_band_median.
  split; [|now right]. intros [E|E]; [|exact E].
  destruct cs; [cbn in Hpooled; lia|discriminate].
Qed.

Lemma krn_diff_pre_nan_witness :
  exists cs,
    Forall2 (band_result raw_example smoothed_example 8)
      (bands ranges_even 60%Z) cs /\
    diff_pre_consensus (mkResult (Fin 41) (Fin (79 # 2)) 3 [11; 50; 90]%Z)
    = Np.median (map band_median cs) /\
    (is_nan
       (diff_pre_consensus (mkResult (Fin 41) (Fin (79 # 2)) 3 [11; 50; 90]%Z))
     = true <->
     Exists (fun c => (length c < 2)%nat) cs).
Proof.
  apply (@krn_diff_pre_nan ranges_even raw_example smoothed_example 8 60%Z).
  vm_compute. reflexivity.
Defined.

(* ================================================================== *)
(** * Default settings take precedence over custom ones *)
(* ================================================================== *)

(** When the first coefficient of variation is above 0.35 the ear clean-up
    runs with the defaults 0.35 and 10, and the thresholds given with
    [--ear_cleanup] are not read: whatever they are, the module (as long as
    the coefficient stays defined) returns the same mask after at most 10
    openings, with a coefficient of at most 0.35 or with [i = 11]. *)
Theorem ear_cleanup_custom_ignored (mask : Type)
    (morph_open : mask -> Z -> Z -> mask) (filter : mask -> mask)
    (calculate_area_cov : mask -> option float64)
    (fuel : nat) (filtered0 : mask) (v : float64) :
  (forall m, exists c, calculate_area_cov m = Some c) ->
  calculate_area_cov filtered0 = Some v ->
  fgt v (lit (35 # 100)) = true ->
  (10 < fuel)%nat ->
  exists filtered1 cov1 i,
    (forall ear_cleanup,
       ear_cleanup_module morph_open filter calculate_area_cov fuel
         ear_cleanup filtered0
       = Returns (filtered1, Some cov1, Some i)) /\
    (2 <= i <= 11)%Z /\
    (fgt cov1 (lit (35 # 100)) = false \/ i = 11%Z).
Proof.
  intros Hdef Hcov Hgt Hfuel.
  destruct (@cleanup_loop_total mask morph_open filter calculate_area_cov
              fuel (lit (35 # 100)) (inject_Z 10) filtered0 v Hdef)
    as (s & c & Hrun & Hc & Hi1 & Hile & Hexit).
  { rewrite Qfloor_Z. cbn. lia. }
  rewrite Qfloor_Z in Hile.
  assert (Hi2 : (2 <= cl_i s)%Z).
  { destruct (Z_lt_le_dec (cl_i s) 2) as [Hlt|]; [|assumption]. exfalso.
    assert (E : cl_i s = 1%Z) by lia.
    unfold cleanup_loop in Hrun. destruct fuel as [|fuel]; [lia|].
    rewrite while_unfold in Hrun. unfold cleanup_cond at 1 in Hrun.
    cbn [cov cl_i] in Hrun. rewrite Hgt in Hrun.
    change (fle (of_int 1) (Fin (inject_Z 10))) with true in Hrun.
    cbn [andb] in Hrun. unfold cleanup_body at 1 in Hrun.
    cbn [filtered cl_i] in Hrun.
    apply (@while_invariant _
             (cleanup_cond (lit (35 # 100)) (Fin (inject_Z 10)))
             (cleanup_body morph_open filter calculate_area_cov)
             (fun s => (2 <= cl_i s)%Z)) in Hrun.
    - destruct Hrun as [Hrun _]. lia.
    - intros s0 s1 Hs0 _ Hb. unfold cleanup_body in Hb.
      injection Hb as <-. cbn [cl_i]. lia.
    - cbn [cl_i]. lia. }
  exists (filtered s), c, (cl_i s). split; [|split].
  - intro ear_cleanup. unfold ear_cleanup_module. rewrite Hcov, Hgt.
    change (of_int 10) with (Fin (inject_Z 10)). rewrite Hrun.
    cbn [bind]. rewrite Hc. reflexivity.
  - lia.
  - destruct Hexit as [Hconv|Hexh]; [now left|]. right.
    cbn [fle of_int] in Hexh.
    destruct (Z_lt_le_dec 10 (cl_i s)) as [|Hle]; [lia|].
    assert (Qle_bool (inject_Z (cl_i s)) (inject_Z 10) = true).
    { apply Qle_bool_iff. now rewrite <- Zle_Qle. }
    congruence.
Qed.

Lemma ear_cleanup_custom_ignored_witness :
  exists filtered1 cov1 i,
    (forall ear_cleanup,
       ear_cleanup_module open_two_regions keep_regions cov_steady 11
         ear_cleanup 2%nat
       = Returns (filtered1, Some cov1, Some i)) /\
    (2 <= i <= 11)%Z /\
    (fgt cov1 (lit (35 # 100)) = false \/ i = 11%Z).
Proof.
  apply (@ear_cleanup_custom_ignored nat open_two_regions keep_regions
           cov_steady 11 2%nat (Fin (6 # 10))).
  - intro m. eexists. reflexivity.
  - reflexivity.
  - vm_compute. reflexivity.
  - lia.
Defined.

(* ================================================================== *)
(** * The local [i] shared by the two clean-up modules *)
(* ================================================================== *)

Section SharedIndex.
Variable mask : Type.
Variable morph_open : mask -> Z -> Z -> mask.
Variable filter : mask -> mask.
Variable calculate_area_cov : mask -> option float64.

Lemma cleanup_loop_index (fuel : nat) (max_cov max_iterations : float64)
    (filtered0 : mask) (cov0 : option float64) (s : cleanup_state mask) :
  cleanup_loop morph_open filter calculate_area_cov fuel max_cov
    max_iterations filtered0 cov0 = Returns s ->
  (1 <= cl_i s)%Z.
Proof.
  unfold cleanup_loop. intro H.
  apply (@while_invariant _ (cleanup_cond max_cov max_iterations)
           (cleanup_body morph_open filter calculate_area_cov)
           (fun s => (1 <= cl_i s)%Z)) in H.
  - exact (proj1 H).
  - intros s0 s1 Hi _ Hb. unfold cleanup_body in Hb.
    injection Hb as <-. cbn [cl_i]. lia.
  - cbn [cl_i]. lia.
Qed.

(** The binding of [i] the ear clean-up leaves: none when no loop ran, that
    is when the coefficient of variation is undefined, or is at most 0.35
    and no custom thresholds were given; otherwise the counter of the loop,
    which is at least 1. *)
Lemma ear_cleanup_index (fuel : nat)
    (ear_cleanup : option (float64 * float64)) (filtered0 filtered1 : mask)
    (cov1 : option float64) (i : option Z) :
  ear_cleanup_module morph_open filter calculate_area_cov fuel ear_cleanup
    filtered0 = Returns (filtered1, cov1, i) ->
  match i with
  | None =>
      calculate_area_cov filtered0 = None \/
      (exists v, calculate_area_cov filtered0 = Some v /\
                 fgt v (lit (35 # 100)) = false) /\ ear_cleanup = None
  | Some k =>
      (1 <= k)%Z /\ exists v, calculate_area_cov filtered0 = Some v /\
      (fgt v (lit (35 # 100)) = true \/ ear_cleanup <> None)
  end.
Proof.
  unfold ear_cleanup_module.
  destruct (calculate_area_cov filtered0) as [v|] eqn:Hcov.
  - destruct (fgt v (lit (35 # 100))) eqn:Hgt.
    + destruct (cleanup_loop _ _ _ _ _ _ _ _) as [s| |] eqn:Hloop;
        try discriminate.
      cbn [bind]. intro H. injection H as _ _ <-.
      split; [exact (cleanup_loop_index _ _ _ _ _ Hloop)|].
      exists v. split; [reflexivity|now left].
    + destruct ear_cleanup as [[max_cov max_iterations]|].
      * destruct (cleanup_loop _ _ _ _ _ _ _ _) as [s| |] eqn:Hloop;
          try discriminate.
        cbn [bind]. intro H. injection H as _ _ <-.
        split; [exact (cleanup_loop_index _ _ _ _ _ Hloop)|].
        exists v. split; [reflexivity|]. right. discriminate.
      * intro H. injection H as _ _ <-. right. split; [|reflexivity].
        exists v. split; [reflexivity|exact Hgt].
  - intro H. injection H as _ _ <-. now left.
Qed.
End SharedIndex.

(** The local [i] of [main] is shared by the ear clean-up and the silk
    clean-up, and the silk clean-up sets it only when it applies its
    defaults.  For the first ear, when its convexity is 0.87 or more and it
    is cleaned under custom thresholds (with a minimum gain above 0.001),
    the loop therefore starts from the [i] the ear clean-up left: when that
    ran no loop, reading [i] raises [NameError]; when it left an [i] above
    the custom limit, the ear is not opened at all; otherwise the first
    opening uses a structuring element of size [2+i], not 3.  (A later ear
    starts from the [i] the silk clean-up of the ear before it left.) *)
Theorem silk_custom_starts_from_cleanup_index (mask silk_mask : Type)
    (morph_open : mask -> Z -> Z -> mask) (filter : mask -> mask)
    (calculate_area_cov : mask -> option float64)
    (silk_open : silk_mask -> Z -> Z -> silk_mask)
    (calculate_convexity : silk_mask -> float64)
    (fuel_c fuel : nat) (ear_cleanup : option (float64 * float64))
    (filtered0 filtered1 : mask) (cov1 : option float64) (i : option Z)
    (conv_var i_var : float64) (b0 : silk_mask) :
  ear_cleanup_module morph_open filter calculate_area_cov fuel_c ear_cleanup
    filtered0 = Returns (filtered1, cov1, i) ->
  flt (calculate_convexity b0) (lit (87 # 100)) = false ->
  flt (lit (1 # 1000)) conv_var = true ->
  let silk :=
    silk_cleanup_module silk_open calculate_convexity (S fuel) i
      (Some (conv_var, i_var)) b0 in
  match i with
  | None => silk = Raises NameError
  | Some k =>
      (1 <= k)%Z /\
      (fle (of_int k) i_var = false -> silk = Returns (b0, Some k)) /\
      (fle (of_int k) i_var = true ->
       (iterations_left i_var k <= fuel)%nat ->
       exists n,
         (1 <= n)%nat /\
         silk = Returns (opened silk_open b0 k n, Some (k + Z.of_nat n)%Z) /\
         opened silk_open b0 k 1 = silk_open b0 (2 + k)%Z (1 + k)%Z)
  end.
Proof.
  intros Hclean Hconv Hvar silk.
  assert (Hsilk :
    silk = (s <- silk_loop silk_open calculate_convexity (S fuel) conv_var
                   i_var (calculate_convexity b0) b0 i ;;
            Returns (b_chnnl s, silk_i s))).
  { subst silk. unfold silk_cleanup_module, silk_triggered.
    rewrite Hconv. reflexivity. }
  apply ear_cleanup_index in Hclean.
  destruct i as [k|].
  - destruct Hclean as [Hk _]. split; [exact Hk|]. split.
    + intro Hle. rewrite Hsilk. unfold silk_loop.
      rewrite while_unfold. unfold silk_cond at 1.
      cbn [delta_conv silk_i]. rewrite Hvar, Hle. reflexivity.
    + intros Hle Hfuel.
      destruct (@silk_loop_total silk_mask silk_open calculate_convexity
                  conv_var i_var (calculate_convexity b0) b0 k (S fuel))
        as (n & Hrun & _ & Hexit); [lia|].
      exists n. split; [|split].
      * destruct n as [|n]; [|lia]. exfalso.
        unfold silk_cond, silk_state_at in Hexit.
        cbn [delta_conv silk_i delta_after] in Hexit.
        rewrite Hvar in Hexit.
        replace (k + Z.of_nat 0)%Z with k in Hexit by lia.
        rewrite Hle in Hexit. discriminate.
      * rewrite Hsilk, Hrun. reflexivity.
      * cbn [opened]. do 2 f_equal; lia.
  - rewrite Hsilk. unfold silk_loop. rewrite while_unfold.
    unfold silk_cond. cbn [delta_conv silk_i]. rewrite Hvar. reflexivity.
Qed.

Lemma silk_custom_starts_from_cleanup_index_witness :
  silk_cleanup_module open_once convexity_example 1 None
    (Some (lit (4 # 100), of_int 10)) 3%nat = Raises NameError.
Proof.
  apply (@silk_custom_starts_from_cleanup_index nat nat open_two_regions
           keep_regions cov_two_regions_mild open_once convexity_example
           12 0 None 2%nat 2%nat (Some (Fin (3 # 10))) None
           (lit (4 # 100)) (of_int 10) 3%nat).
  - vm_compute. reflexivity.
  - vm_compute. reflexivity.
  - vm_compute. reflexivity.
Defined.

(* ================================================================== *)
(** * The order of the ears *)
(* ================================================================== *)

Section SortKey.
Variable A : Type.
Variable key : A -> Z.

Local Abbreviation by_key := (fun a b : A => (key a <=? key b)%Z).

Lemma insert_key_sorted (x : A) (l : list A) :
  StronglySorted (fun a b => (key a <= key b)%Z) l ->
  StronglySorted (fun a b => (key a <= key b)%Z) (Np.insert by_key x l).
Proof.
  induction 1 as [|y r Hs IH Hy]; cbn [Np.insert].
  - repeat constructor.
  - destruct (Z.leb_spec (key x) (key y)) as [Hle|Hgt].
    + constructor; [constructor; assumption|].
      constructor; [exact Hle|].
      eapply Forall_impl; [|exact Hy]. intros a Ha. cbn in *. lia.
    + constructor; [exact IH|].
      rewrite Forall_forall in *. intros a Ha.
      apply (Permutation_in a (Permutation_sym (insert_perm by_key x r)))
        in Ha.
      destruct Ha as [<-|Ha]; [lia|now apply Hy].
Qed.

Lemma sort_key_sorted (l : list A) :
  StronglySorted (fun a b => (key a <= key b)%Z) (Np.sort by_key l).
Proof.
  induction l as [|x r IH]; cbn [Np.sort]; [constructor|].
  now apply insert_key_sorted.
Qed.
End SortKey.

Lemma map_fst_combine_map (A B : Type) (f : A -> B) (l : list A) :
  map fst (combine l (map f l)) = l.
Proof.
  induction l as [|x l IH]; [reflexivity|]. cbn. now rewrite IH.
Qed.

Lemma StronglySorted_map (A B : Type) (f : A -> B) (R : B -> B -> Prop)
    (l : list A) :
  StronglySorted (fun a b => R (f a) (f b)) l -> StronglySorted R (map f l).
Proof.
  induction 1 as [|x l Hs IH Hx]; cbn [map]; constructor; [exact IH|].
  rewrite Forall_forall in *. intros b Hb.
  apply in_map_iff in Hb. destruct Hb as (a & <- & Ha). now apply Hx.
Qed.

(** The ears are numbered from left to right: the sorted contours are the
    contours found, each still with its own bounding box, in the order of
    the left edges of the boxes, and [number_of_ears] counts them.  When no
    contour is found, line 388 raises [ValueError]. *)
Theorem ears_left_to_right (contour : Type)
    (boundingRect : contour -> Z * Z * Z * Z) (cnts : list contour) :
  (cnts = [] -> Ears.sort_ears boundingRect cnts = Raises ValueError) /\
  (cnts <> [] ->
   exists sorted_cnts boundingBoxes,
     Ears.sort_ears boundingRect cnts
     = Returns (sorted_cnts, boundingBoxes) /\
     Permutation cnts sorted_cnts /\
     boundingBoxes = map boundingRect sorted_cnts /\
     StronglySorted Z.le
       (map (fun b => let '(x, _, _, _) := b in x) boundingBoxes) /\
     Ears.count_ears sorted_cnts = Z.of_nat (length cnts) /\
     (1 <= Ears.count_ears sorted_cnts)%Z).
Proof.
  split; [intros ->; reflexivity|]. intro Hne.
  unfold Ears.sort_ears.
  set (pairs := Np.sort _ _).
  assert (Hperm : Permutation (combine cnts (map boundingRect cnts)) pairs)
    by apply sort_perm.
  assert (Hfst : Permutation cnts (map fst pairs)).
  { rewrite <- (map_fst_combine_map boundingRect cnts) at 1.
    now apply Permutation_map. }
  assert (Hbox : Forall (fun p => snd p = boundingRect (fst p)) pairs).
  { eapply Permutation_Forall; [exact Hperm|].
    clear. induction cnts as [|c cnts IH]; cbn; constructor; auto. }
  assert (Hcount : forall (l : list contour) (n : Z),
            fold_left (fun number_of_ears _ => (number_of_ears + 1)%Z) l n
            = (n + Z.of_nat (length l))%Z).
  { induction l as [|c l IH]; intro n; cbn [fold_left length].
    - lia.
    - rewrite IH. lia. }
  assert (Hlen : length (map fst pairs) = length cnts)
    by (symmetry; now apply Permutation_length).
  destruct pairs as [|p pairs'] eqn:Hp.
  { exfalso. destruct cnts; [congruence|discriminate]. }
  rewrite <- Hp in *. clear Hp p pairs'.
  exists (map fst pairs), (map snd pairs).
  split; [reflexivity|]. split; [exact Hfst|]. split; [|split; [|split]].
  - rewrite map_map. apply map_ext_Forall. exact Hbox.
  - rewrite map_map.
    apply (@StronglySorted_map _ _
             (fun p : contour * (Z * Z * Z * Z) =>
                let '(x, _, _, _) := snd p in x) Z.le).
    apply (sort_key_sorted (@Ears.box_x contour)).
  - unfold Ears.count_ears. rewrite Hcount, Hlen. lia.
  - unfold Ears.count_ears. rewrite Hcount, Hlen.
    destruct cnts; [congruence|]. cbn [length]. lia.
Qed.

Lemma ears_left_to_right_witness :
  Ears.sort_ears (fun c : Z => (c, 0, 5, 9)%Z) [40; 7; 23]%Z
  = Returns ([7; 23; 40]%Z, [(7, 0, 5, 9); (23, 0, 5, 9); (40, 0, 5, 9)]%Z)
  /\ Ears.sort_ears (fun c : Z => (c, 0, 5, 9)%Z) [] = Raises ValueError.
Proof.
  destruct (@ears_left_to_right Z (fun c : Z => (c, 0, 5, 9)%Z) [40; 7; 23]%Z)
    as [_ Hsome].
  destruct Hsome as (cs & bs & Hrun & _); [discriminate|].
  split.
  - rewrite Hrun. vm_compute in Hrun. injection Hrun as <- <-. reflexivity.
  - apply (@ears_left_to_right Z (fun c : Z => (c, 0, 5, 9)%Z) []).
    reflexivity.
Defined.

(* ================================================================== *)
(** * The colour checker option and the result tables *)
(* ================================================================== *)

Module OptionsFacts.

Import String.

(** The colour correction module cannot be turned off: the option's default
    is the string ["None"], not [None], so the test of line 229 holds for
    every command line.  What reaches [utility.img_parse] is the first
    character of the option's value, ["N"] when the option is not given, and
    an empty value raises [IndexError].  For the same reason the
    pixels-per-metric module always measures on the colour checker mask and
    never looks for a square in the photograph. *)
Theorem color_module_always_on (o : Options.occurrence) :
  Options.color_reference (Options.color_checker o) <> Returns None /\
  Options.ppm_input (Options.color_checker o) = Options.TarChk /\
  (forall reff,
     Options.color_reference (Options.color_checker o) = Returns (Some reff)
     -> String.length reff = 1%nat) /\
  (o = Options.Absent ->
   Options.color_reference (Options.color_checker o)
   = Returns (Some "N"%string)) /\
  (o = Options.Bare ->
   Options.color_reference (Options.color_checker o) = Raises IndexError) /\
  (forall value,
     o = Options.Given value ->
     Options.color_reference (Options.color_checker o)
     = match value with
       | EmptyString => Raises IndexError
       | String ch _ => Returns (Some (String ch EmptyString))
       end).
Proof.
  split; [|split; [|split; [|split; [|split]]]].
  - destruct o as [| |[|ch value]]; discriminate.
  - destruct o; reflexivity.
  - intro reff. destruct o as [| |[|ch value]]; cbn; intro H;
      try discriminate; injection H as <-; reflexivity.
  - intros ->. reflexivity.
  - intros ->. reflexivity.
  - intros value ->. destruct value; reflexivity.
Qed.

End OptionsFacts.

Module TableFacts.

Import String.

(** Two headers of color_correction.csv are ["Square1"]: the value of the
    first square, [csv_field[2]], reaches no column, and the value of the
    second, [csv_field[3]], is written under both.  Every other column
    carries its own value.  A [csv_field] of fewer than 26 values raises
    [IndexError]. *)
Theorem color_row_loses_first_square (V : Type) (restval : V)
    (csv_field : list V) :
  ((List.length csv_field < 26)%nat ->
   Table.color_row restval csv_field = Raises IndexError) /\
  ((26 <= List.length csv_field)%nat ->
   exists row,
     Table.color_row restval csv_field = Returns row /\
     List.length row = 26%nat /\
     nth_error row 2 = nth_error csv_field 3 /\
     forall i, (i < 26)%nat -> i <> 2%nat ->
       nth_error row i = nth_error csv_field i).
Proof.
  split.
  - intro H.
    do 26 (destruct csv_field as [|? csv_field];
           [vm_compute; reflexivity|]).
    cbn [List.length] in H. lia.
  - intro H.
    do 26 (destruct csv_field as [|? csv_field];
           [cbn [List.length] in H; lia|]).
    eexists. split; [vm_compute; reflexivity|].
    split; [reflexivity|]. split; [reflexivity|].
    intros i Hi Hne.
    do 26 (destruct i as [|i]; [try reflexivity; congruence|]).
    lia.
Qed.

Lemma color_row_loses_first_square_witness :
  exists row,
    Table.color_row 0%nat (seq 100 26) = Returns row /\
    nth_error row 2 = Some 103%nat /\ nth_error row 3 = Some 103%nat.
Proof.
  destruct (proj2 (@color_row_loses_first_square nat 0%nat (seq 100 26)))
    as (row & Hrow & _ & H2 & Hothers).
  - cbn. lia.
  - exists row. split; [exact Hrow|]. split; [exact H2|].
    apply (Hothers 3%nat); lia.
Defined.

(** The row of features.csv: the keys of the dict display are exactly the
    34 headers, so [writerow] does not raise and every value is written
    under the header of its own name, in the order of the display. *)
Theorem features_row_complete (V : Type) (restval : V) (values : list V) :
  List.length values = 34%nat ->
  Table.features_row restval values = Returns values.
Proof.
  intro H.
  do 34 (destruct values as [|? values]; [discriminate|]).
  destruct values; [|discriminate].
  vm_compute. reflexivity.
Qed.

Lemma features_row_complete_witness :
  Table.features_row 0%nat (seq 1 34) = Returns (seq 1 34).
Proof.
  apply (@features_row_complete nat 0%nat (seq 1 34)). reflexivity.
Defined.

End TableFacts.

(* ================================================================== *)
(** * The QR scan *)
(* ================================================================== *)

Section QrFacts.
Variable image : Type.
Variable symbol : Type.
Variable text : Type.
Variable invert : image -> image.
Variable crop : image -> Z -> Z -> Z -> Z -> image.
Variable shape : image -> Z * Z.
Variable decode : image -> list symbol.
Variable data_decode : symbol -> exn + text.
Variable start_points : Z -> Z -> float64 -> list Z.

Variable qr_img : image.
Variable split : Z.

(** The image handed to [decode] for the window at [w]. *)
Local Abbreviation inverted w :=
  (invert (crop qr_img (fst w) (snd w) split split)).
Local Abbreviation empty w := (decode (inverted w) = []).

Lemma read_symbols_last (symbols : list symbol) (sym : symbol) (data : text) :
  forall st : Qr.qr_state image symbol text,
    Forall (fun s => exists t, data_decode s = inr t) symbols ->
    data_decode sym = inr data ->
    Qr.read_symbols data_decode (symbols ++ [sym]) st
    = Returns (Qr.mkQr (Some sym) (Some data) (Qr.qr_count st)
                 (Qr.qr_proof st)).
Proof.
  unfold Qr.read_symbols.
  induction symbols as [|s symbols IH]; intros st Hall Hsym;
    cbn [app for_each].
  - rewrite Hsym. reflexivity.
  - inversion Hall as [|? ? [t Ht] Hall']; subst.
    rewrite Ht. cbn [call bind]. rewrite IH by assumption. reflexivity.
Qed.

Lemma scan_image_empty (img : image) (st : Qr.qr_state image symbol text) :
  decode img = [] ->
  Qr.scan_image decode data_decode img st = Returns (st, false).
Proof. unfold Qr.scan_image. intros ->. reflexivity. Qed.

Lemma scan_image_found (img : image) (st : Qr.qr_state image symbol text)
    (symbols : list symbol) (sym : symbol) (data : text) :
  decode img = symbols ++ [sym] ->
  Forall (fun s => exists t, data_decode s = inr t) symbols ->
  data_decode sym = inr data ->
  Qr.scan_image decode data_decode img st
  = Returns (Qr.mkQr (Some sym) (Some data) (Qr.qr_count st) (Some img), true).
Proof.
  intros Hd Hall Hsym. unfold Qr.scan_image. rewrite Hd.
  rewrite (read_symbols_last _ Hall Hsym). cbn [bind Qr.qr_count Qr.qr_proof].
  destruct symbols; reflexivity.
Qed.

Lemma counted_0 (st : Qr.qr_state image symbol text) : counted st 0 = st.
Proof. destruct st. unfold counted. cbn. f_equal. lia. Qed.

Lemma counted_S (st : Qr.qr_state image symbol text) (n : nat) :
  counted (counted st 1) n = counted st (S n).
Proof.
  unfold counted. cbn [Qr.QRcode Qr.QRcodeData Qr.qr_count Qr.qr_proof].
  f_equal. lia.
Qed.

(** A row without a code: every window is counted, and the row is not left
    by [break]. *)
Lemma scan_row_empty (i : Z) (X_points : list Z) :
  forall st,
    Forall (fun j => empty (i, j)) X_points ->
    Qr.scan_row invert crop decode data_decode qr_img split split i X_points
      st
    = Returns (counted st (length X_points), false).
Proof.
  induction X_points as [|j X IH]; intros st Hall; cbn [Qr.scan_row length].
  - rewrite counted_0. reflexivity.
  - inversion Hall as [|? ? Hj Hall']; subst. cbn [fst snd] in Hj.
    rewrite (scan_image_empty _ Hj). cbn [bind].
    change (Qr.mkQr (Qr.QRcode st) (Qr.QRcodeData st) (Qr.qr_count st + 1)
              (Qr.qr_proof st)) with (counted st 1).
    rewrite IH by assumption. rewrite counted_S. reflexivity.
Qed.

(** A row whose first code is in the window at [j]. *)
Lemma scan_row_found (i j : Z) (before after : list Z)
    (st' : Qr.qr_state image symbol text) :
  forall st,
    Forall (fun j' => empty (i, j')) before ->
    Qr.scan_image decode data_decode (inverted (i, j))
      (counted st (S (length before))) = Returns (st', true) ->
    Qr.scan_row invert crop decode data_decode qr_img split split i
      (before ++ j :: after) st
    = Returns (st', true).
Proof.
  induction before as [|j0 before IH]; intros st Hall Hfound;
    cbn [app Qr.scan_row length].
  - cbn [fst snd length] in Hfound.
    change (Qr.mkQr (Qr.QRcode st) (Qr.QRcodeData st) (Qr.qr_count st + 1)
              (Qr.qr_proof st)) with (counted st 1).
    rewrite Hfound. reflexivity.
  - inversion Hall as [|? ? Hj Hall']; subst. cbn [fst snd] in Hj.
    rewrite (scan_image_empty _ Hj). cbn [bind].
    change (Qr.mkQr (Qr.QRcode st) (Qr.QRcodeData st) (Qr.qr_count st + 1)
              (Qr.qr_proof st)) with (counted st 1).
    apply IH; [assumption|]. rewrite counted_S. exact Hfound.
Qed.

Lemma counted_add (st : Qr.qr_state image symbol text) (n m : nat) :
  counted (counted st n) m = counted st (n + m).
Proof.
  unfold counted. cbn [Qr.QRcode Qr.QRcodeData Qr.qr_count Qr.qr_proof].
  f_equal. lia.
Qed.

Lemma windows_cons (i : Z) (Y_points X_points : list Z) :
  windows (i :: Y_points) X_points
  = map (fun j => (i, j)) X_points ++ windows Y_points X_points.
Proof. reflexivity. Qed.

Lemma scan_rows_empty (Y_points X_points : list Z) :
  forall st,
    Forall (fun w => empty w) (windows Y_points X_points) ->
    Qr.scan_rows invert crop decode data_decode qr_img split split Y_points
      X_points st
    = Returns (counted st (length (windows Y_points X_points))).
Proof.
  induction Y_points as [|i Y IH]; intros st Hall; cbn [Qr.scan_rows].
  - cbn [windows flat_map length]. rewrite counted_0. reflexivity.
  - rewrite windows_cons in Hall. apply Forall_app in Hall.
    destruct Hall as [Hrow Hrest].
    rewrite scan_row_empty.
    + cbn [bind]. rewrite IH by assumption. rewrite counted_add.
      rewrite windows_cons, length_app, length_map. reflexivity.
    + rewrite Forall_forall in *. intros j Hj. apply (Hrow (i, j)).
      apply in_map_iff. now exists j.
Qed.

Lemma scan_rows_found (Y_points X_points : list Z) (w : Z * Z)
    (st' : Qr.qr_state image symbol text) :
  forall (before after : list (Z * Z)) st,
    windows Y_points X_points = before ++ w :: after ->
    Forall (fun v => empty v) before ->
    Qr.scan_image decode data_decode (inverted w)
      (counted st (S (length before))) = Returns (st', true) ->
    Qr.scan_rows invert crop decode data_decode qr_img split split Y_points
      X_points st
    = Returns st'.
Proof.
  induction Y_points as [|i Y IH]; intros before after st Hw Hall Hfound.
  - cbn in Hw. destruct before; discriminate.
  - rewrite windows_cons in Hw. cbn [Qr.scan_rows].
    apply app_eq_app in Hw. destruct Hw as [l [[Hrow Hrest]|[Hbefore Hrest]]].
    + (* the row holds the window *)
      destruct l as [|v l].
      * (* the row ends just before the window *)
        rewrite app_nil_r in Hrow. cbn [app] in Hrest.
        rewrite scan_row_empty.
        2:{ rewrite Forall_forall in *. intros j Hj. apply Hall.
            rewrite <- Hrow. apply in_map_iff. now exists j. }
        cbn [bind].
        apply (IH [] after); [now rewrite <- Hrest|constructor|].
        rewrite counted_add.
        replace (length X_points + S (length (@nil (Z * Z))))%nat
          with (S (length before))
          by (rewrite <- Hrow, length_map; cbn [length]; lia).
        exact Hfound.
      * injection Hrest as -> Hafter.
        apply map_eq_app in Hrow.
        destruct Hrow as (Xb & Xa & -> & Hb & Ha).
        symmetry in Ha. destruct Xa as [|j Xa]; [discriminate|].
        cbn [map] in Ha. injection Ha as Hv Hl.
        rewrite (@scan_row_found i j Xb Xa st').
        -- reflexivity.
        -- rewrite Forall_forall in *. intros j' Hj'. apply Hall.
           rewrite <- Hb. apply in_map_iff. now exists j'.
        -- rewrite Hv in Hfound. rewrite <- Hb, length_map in Hfound.
           exact Hfound.
    + (* the window is in a later row *)
      subst before. apply Forall_app in Hall. destruct Hall as [Hrow Hl].
      rewrite scan_row_empty.
      2:{ rewrite Forall_forall in *. intros j Hj. apply (Hrow (i, j)).
          apply in_map_iff. now exists j. }
      cbn [bind]. apply (IH l after); [exact Hrest|exact Hl|].
      rewrite counted_add.
      rewrite length_app, length_map in Hfound.
      replace (length X_points + S (length l))%nat
        with (S (length X_points + length l)) by lia.
      exact Hfound.
Qed.
End QrFacts.

(** The windowed QR scan.  The windows are visited row by row; the scan
    stops at the first window in which a code is decoded, returns the last
    symbol decoded there with that window as proof, and [qr_count] is the
    number of windows visited, that one included.  When no window shows a
    code, every window is visited and [QRcodeType], [QRcodeData],
    [QRcodeRect] and [qr_proof] stay [None].  A window size of [nan] raises
    [ValueError]. *)
Theorem qr_scan_stops_at_first_code (image symbol text : Type)
    (invert : image -> image) (crop : image -> Z -> Z -> Z -> Z -> image)
    (shape : image -> Z * Z) (decode : image -> list symbol)
    (data_decode : symbol -> exn + text)
    (start_points : Z -> Z -> float64 -> list Z)
    (qr_img : image) (size : Q) (overlap : float64) :
  let split := truncate size in
  let X_points := start_points (snd (shape qr_img)) split overlap in
  let Y_points := start_points (fst (shape qr_img)) split overlap in
  let inverted w := invert (crop qr_img (fst w) (snd w) split split) in
  let scan :=
    Qr.qr_scan invert crop shape decode data_decode start_points qr_img
      (Some (Fin size)) overlap in
  (Forall (fun w => decode (inverted w) = []) (windows Y_points X_points) ->
   scan = Returns (Qr.mkQr None None
                     (Z.of_nat (length (windows Y_points X_points))) None)) /\
  (forall before w after symbols sym data,
     windows Y_points X_points = before ++ w :: after ->
     Forall (fun v => decode (inverted v) = []) before ->
     decode (inverted w) = symbols ++ [sym] ->
     Forall (fun s => exists t, data_decode s = inr t) symbols ->
     data_decode sym = inr data ->
     scan = Returns (Qr.mkQr (Some sym) (Some data)
                       (Z.of_nat (length before) + 1)
                       (Some (inverted w)))) /\
  Qr.qr_scan invert crop shape decode data_decode start_points qr_img
    (Some NaN) overlap = Raises ValueError.
Proof.
  intros split X_points Y_points inverted scan.
  assert (Hscan : scan =
    Qr.scan_rows invert crop decode data_decode qr_img split split Y_points
      X_points (Qr.mkQr None None 0 None)).
  { subst scan X_points Y_points. unfold Qr.qr_scan.
    destruct (shape qr_img) as [img_h img_w]. reflexivity. }
  split; [|split].
  - intro Hall. rewrite Hscan, scan_rows_empty by exact Hall.
    unfold counted.
    cbn [Qr.QRcode Qr.QRcodeData Qr.qr_count Qr.qr_proof]. reflexivity.
  - intros before w after symbols sym data Hw Hall Hd Hsyms Hsym.
    rewrite Hscan.
    rewrite (@scan_rows_found _ _ _ invert crop decode data_decode qr_img
               split Y_points X_points w
               (Qr.mkQr (Some sym) (Some data)
                  (Z.of_nat (length before) + 1) (Some (inverted w)))
               before after _ Hw Hall); [reflexivity|].
    erewrite scan_image_found; [|exact Hd|exact Hsyms|exact Hsym].
    unfold counted.
    cbn [Qr.QRcode Qr.QRcodeData Qr.qr_count Qr.qr_proof].
    do 3 f_equal. lia.
  - unfold Qr.qr_scan. destruct (shape qr_img). reflexivity.
Qed.

Lemma qr_scan_stops_at_first_code_witness :
  Qr.qr_scan (fun img => img) crop_example shape_example decode_example
    data_example start_points_example None (Some (Fin 100)) (Fin (1 # 100))
  = Returns (Qr.mkQr (Some 8%Z) (Some 8%Z) 3 (Some (Some (200, 0)%Z))).
Proof.
  destruct (@qr_scan_stops_at_first_code (option (Z * Z)) Z Z
              (fun img => img) crop_example shape_example decode_example
              data_example start_points_example None 100 (Fin (1 # 100)))
    as (_ & Hfound & _).
  apply (Hfound [(0, 0); (0, 400)]%Z (200, 0)%Z [(200, 400)%Z] [7%Z] 8%Z 8%Z).
  - reflexivity.
  - repeat constructor.
  - reflexivity.
  - repeat constructor. exists 7%Z. reflexivity.
  - reflexivity.
Defined.

(** The scan of the whole image counts one window whatever it finds, and
    when several codes are decoded it returns the last one. *)
Theorem qr_scan_whole_image (image symbol text : Type)
    (invert : image -> image) (crop : image -> Z -> Z -> Z -> Z -> image)
    (shape : image -> Z * Z) (decode : image -> list symbol)
    (data_decode : symbol -> exn + text)
    (start_points : Z -> Z -> float64 -> list Z)
    (qr_img : image) (overlap : float64) :
  let scan :=
    Qr.qr_scan invert crop shape decode data_decode start_points qr_img
      None overlap in
  (decode (invert qr_img) = [] ->
   scan = Returns (Qr.mkQr None None 1 None)) /\
  (forall symbols sym data,
     decode (invert qr_img) = symbols ++ [sym] ->
     Forall (fun s => exists t, data_decode s = inr t) symbols ->
     data_decode sym = inr data ->
     scan = Returns (Qr.mkQr (Some sym) (Some data) 1
                       (Some (invert qr_img)))) /\
  (forall symbols sym e after,
     decode (invert qr_img) = symbols ++ sym :: after ->
     Forall (fun s => exists t, data_decode s = inr t) symbols ->
     data_decode sym = inl e ->
     scan = Raises e).
Proof.
  intro scan. subst scan. unfold Qr.qr_scan. split; [|split].
  - intro Hd. rewrite scan_image_empty by exact Hd. reflexivity.
  - intros symbols sym data Hd Hall Hsym.
    erewrite scan_image_found; [|exact Hd|exact Hall|exact Hsym].
    reflexivity.
  - intros symbols sym e after Hd Hall Hsym.
    unfold Qr.scan_image. rewrite Hd.
    assert (Hraise : forall st : Qr.qr_state image symbol text,
              Qr.read_symbols data_decode (symbols ++ sym :: after) st
              = Raises e).
    { unfold Qr.read_symbols. clear Hd.
      induction symbols as [|s symbols IH]; intro st; cbn [app for_each].
      - rewrite Hsym. reflexivity.
      - inversion Hall as [|? ? [t Ht] Hall']; subst.
        rewrite Ht. cbn [call bind]. now apply IH. }
    rewrite Hraise. destruct symbols; reflexivity.
Qed.

Lemma qr_scan_whole_image_witness :
  Qr.qr_scan (fun img => img) crop_example shape_example
    (fun _ : option (Z * Z) => [7; 8]%Z) data_example start_points_example
    None None NaN
  = Returns (Qr.mkQr (Some 8%Z) (Some 8%Z) 1 (Some None)).
Proof.
  destruct (@qr_scan_whole_image (option (Z * Z)) Z Z
              (fun img => img) crop_example shape_example
              (fun _ : option (Z * Z) => [7; 8]%Z) data_example
              start_points_example None NaN)
    as (_ & Hfound & _).
  apply (Hfound [7%Z] 8%Z 8%Z).
  - reflexivity.
  - repeat constructor. exists 7%Z. reflexivity.
  - reflexivity.
Defined.

(* ================================================================== *)
(** * The components kept as tip and as bottom *)
(* ================================================================== *)

Section ComponentFacts.
Variable pixel : Type.
Variable output : pixel -> Z.

Lemma in_range_from (a b x : Z) :
  In x (CobShank.range_from a b) <-> (a <= x < b)%Z.
Proof.
  unfold CobShank.range_from. rewrite in_map_iff. split.
  - intros (k & <- & Hk). apply in_seq in Hk. lia.
  - intro H. exists (Z.to_nat (x - a)). split; [lia|].
    apply in_seq. lia.
Qed.

Lemma fold_paint (labels : list Z) :
  forall (img : CobShank.gray pixel) (p : pixel),
    fold_left (CobShank.paint output) labels img p
    = if existsb (Z.eqb (output p)) labels then 255%Z else img p.
Proof.
  induction labels as [|l labels IH]; intros img p; cbn [fold_left existsb];
    [reflexivity|].
  rewrite IH. unfold CobShank.paint.
  destruct (output p =? l)%Z; cbn [orb]; [|reflexivity].
  destruct (existsb _ labels); reflexivity.
Qed.

Lemma existsb_range_from (a b x : Z) :
  existsb (Z.eqb x) (CobShank.range_from a b) = ((a <=? x) && (x <? b))%Z.
Proof.
  apply eq_true_iff_eq. rewrite existsb_exists, andb_true_iff.
  rewrite Z.leb_le, Z.ltb_lt. split.
  - intros (y & Hy & E). apply Z.eqb_eq in E. subst y.
    now apply in_range_from.
  - intro H. exists x. split; [now apply in_range_from|apply Z.eqb_refl].
Qed.

(** The loop of [bottom_seg] over the labels [labels], all of them rows of
    [stats]: it marks the pixels of the labels whose component is larger
    than the bound. *)
Lemma bottom_loop (sizes : list Z) (bound : float64) (labels : list Z) :
  forall bottom0 : CobShank.gray pixel,
    Forall (fun i => (0 <= i < Z.of_nat (length sizes))%Z) labels ->
    exists bottom,
      for_each labels
        (fun bottom i =>
           size <- getitem sizes (Z.to_nat i) ;;
           if fgt (of_int size) bound
           then Returns (CobShank.paint output bottom i)
           else Returns bottom) bottom0
      = Returns bottom /\
      forall p,
        bottom p
        = if existsb (fun i => (output p =? i)%Z
                               && fgt (of_int (nth (Z.to_nat i) sizes 0%Z))
                                    bound) labels
          then 255%Z else bottom0 p.
Proof.
  induction labels as [|i labels IH]; intros bottom0 Hall;
    cbn [for_each existsb].
  - exists bottom0. split; reflexivity.
  - inversion Hall as [|? ? Hi Hall']; subst.
    destruct (@getitem_lt _ sizes (Z.to_nat i)) as (size & Hsize & _);
      [lia|].
    rewrite Hsize. cbn [bind].
    assert (Hnth : nth (Z.to_nat i) sizes 0%Z = size).
    { unfold getitem in Hsize.
      destruct (nth_error sizes (Z.to_nat i)) as [y|] eqn:E;
        [|discriminate].
      injection Hsize as <-. now apply nth_error_nth. }
    rewrite Hnth.
    destruct (fgt (of_int size) bound).
    + destruct (IH (CobShank.paint output bottom0 i) Hall')
        as (bottom & Hrun & Hbottom).
      exists bottom. split; [exact Hrun|]. intro p. rewrite Hbottom.
      unfold CobShank.paint. rewrite andb_true_r.
      destruct (output p =? i)%Z; cbn [orb]; [|reflexivity].
      destruct (existsb _ labels); reflexivity.
    + destruct (IH bottom0 Hall') as (bottom & Hrun & Hbottom).
      exists bottom. split; [exact Hrun|]. intro p. rewrite Hbottom.
      rewrite andb_false_r. reflexivity.
Qed.
End ComponentFacts.

(** The tip mask of [top_seg] is made of the components labelled 1 to
    [extent - 1], whatever their size: with the [extent] of 5 that every
    call in main.py passes, the first four components.  The background and
    any further component are never part of it, and with an [extent] of 1 or
    less the mask is empty. *)
Theorem top_seg_keeps_first_components (pixel : Type) (output : pixel -> Z)
    (extent : Z) (p : pixel) :
  CobShank.top_seg_components output extent p
  = (if ((1 <=? output p) && (output p <? extent))%Z then 255 else 0)%Z /\
  (CobShank.top_seg_components output 5 p = 255%Z <->
   (1 <= output p <= 4)%Z) /\
  ((extent <= 1)%Z -> CobShank.top_seg_components output extent p = 0%Z).
Proof.
  assert (H : forall e,
            CobShank.top_seg_components output e p
            = (if ((1 <=? output p) && (output p <? e))%Z then 255 else 0)%Z).
  { intro e. unfold CobShank.top_seg_components.
    rewrite fold_paint, existsb_range_from. reflexivity. }
  split; [apply H|]. split.
  - rewrite H.
    destruct (Z.leb_spec 1 (output p)), (Z.ltb_spec (output p) 5);
      cbn [andb]; split; intro; try lia; discriminate.
  - intro He. rewrite H.
    destruct (Z.leb_spec 1 (output p)), (Z.ltb_spec (output p) extent);
      cbn [andb]; try reflexivity; lia.
Qed.

(** The bottom mask of [bottom_seg], for the labels, statistics and
    centroids of one call of [connectedComponentsWithStats].  The component
    with the highest label is always part of it; a component labelled 2 or
    more is part of it when its area is above a thousandth of the image; the
    component labelled 1 only when it is the last one.  When there is no
    component but the background, the whole image is marked. *)
Theorem bottom_seg_keeps_last_component (pixel : Type) (output : pixel -> Z)
    (nb_components : Z) (sizes : list Z) (height width : Z) :
  Z.of_nat (length sizes) = nb_components ->
  (forall p, 0 <= output p < nb_components)%Z ->
  let bound := fmul (of_int (height * width)) (lit (1 # 1000)) in
  exists bottom,
    CobShank.bottom_seg_components output nb_components sizes nb_components
      height width = Returns bottom /\
    (forall p,
       bottom p
       = if ((output p =? nb_components - 1)
             || ((2 <=? output p)
                 && fgt (of_int (nth (Z.to_nat (output p)) sizes 0)) bound))%Z
         then 255%Z else 0%Z) /\
    (nb_components = 1%Z -> forall p, bottom p = 255%Z).
Proof.
  intros Hlen Hout bound. unfold CobShank.bottom_seg_components.
  fold bound.
  assert (Hloop : exists bottom1,
    (if (1 <? length sizes)%nat
     then
       for_each (CobShank.range_from 2 nb_components)
         (fun bottom i =>
            size <- getitem sizes (Z.to_nat i) ;;
            if fgt (of_int size) bound
            then Returns (CobShank.paint output bottom i)
            else Returns bottom) (@CobShank.zeros pixel)
     else Returns (@CobShank.zeros pixel)) = Returns bottom1 /\
    forall p,
      bottom1 p
      = if ((2 <=? output p)
            && fgt (of_int (nth (Z.to_nat (output p)) sizes 0)) bound)%Z
        then 255%Z else 0%Z).
  { destruct (1 <? length sizes)%nat eqn:Hmany.
    - destruct (@bottom_loop pixel output sizes bound
                  (CobShank.range_from 2 nb_components)
                  (@CobShank.zeros pixel)) as (bottom1 & Hrun & Hb).
      { rewrite Forall_forall. intros i Hi. apply in_range_from in Hi. lia. }
      exists bottom1. split; [exact Hrun|]. intro p. rewrite Hb.
      unfold CobShank.zeros.
      assert (E : existsb
                    (fun i => (output p =? i)%Z
                              && fgt (of_int (nth (Z.to_nat i) sizes 0%Z))
                                   bound)
                    (CobShank.range_from 2 nb_components)
                  = ((2 <=? output p)%Z
                     && fgt (of_int (nth (Z.to_nat (output p)) sizes 0%Z))
                          bound)).
      { apply eq_true_iff_eq. rewrite existsb_exists, andb_true_iff.
        rewrite Z.leb_le. split.
        - intros (i & Hi & E). apply andb_true_iff in E.
          destruct E as [E1 E2]. apply Z.eqb_eq in E1. subst i.
          apply in_range_from in Hi. split; [lia|exact E2].
        - intros [H2 Hbig]. exists (output p). split.
          + apply in_range_from. specialize (Hout p). lia.
          + rewrite Z.eqb_refl. exact Hbig. }
      rewrite E. reflexivity.
    - exists (@CobShank.zeros pixel). split; [reflexivity|]. intro p.
      apply Nat.ltb_ge in Hmany. specialize (Hout p).
      destruct (Z.leb_spec 2 (output p)); [lia|]. reflexivity. }
  destruct Hloop as (bottom1 & -> & Hb1). cbn [bind].
  eexists. split; [reflexivity|].
  assert (Hall : forall p,
    CobShank.paint output
      (CobShank.paint output bottom1 nb_components) (nb_components - 1) p
    = if ((output p =? nb_components - 1)
          || ((2 <=? output p)
              && fgt (of_int (nth (Z.to_nat (output p)) sizes 0)) bound))%Z
      then 255%Z else 0%Z).
  { intro p. unfold CobShank.paint. specialize (Hout p).
    destruct (output p =? nb_components - 1)%Z; [reflexivity|].
    destruct (Z.eqb_spec (output p) nb_components); [lia|].
    cbn [orb]. apply Hb1. }
  split; [exact Hall|].
  intros H1 p. rewrite Hall. specialize (Hout p).
  destruct (Z.eqb_spec (output p) (nb_components - 1)); [reflexivity|lia].
Qed.

Lemma bottom_seg_keeps_last_component_witness :
  exists bottom,
    CobShank.bottom_seg_components (labels_example 1) 1 [5000]%Z 1 50 100
    = Returns bottom /\
    (forall p, bottom p = 255%Z).
Proof.
  destruct (@bottom_seg_keeps_last_component Z (labels_example 1) 1
              [5000]%Z 50 100) as (bottom & Hrun & _ & Hblank).
  - reflexivity.
  - intro p. unfold labels_example.
    destruct ((0 <=? p) && (p <? 1))%Z eqn:E; [|lia].
    apply andb_true_iff in E. destruct E as [E1 E2].
    apply Z.leb_le in E1. apply Z.ltb_lt in E2. lia.
  - exists bottom. split; [exact Hrun|]. apply Hblank. reflexivity.
Defined.

(* ================================================================== *)
(** * Rounding to binary64 *)
(* ================================================================== *)

Section Binary64Facts.
Local Open Scope Q_scope.

Lemma inject_Z_pow2_pos (k : Z) : (0 <= k)%Z -> 0 < inject_Z (2 ^ k).
Proof.
  intro H. change 0 with (inject_Z 0). rewrite <- Zlt_Qlt.
  apply Z.pow_pos_nonneg; lia.
Qed.

Lemma Qpow2_frac (x y : Z) :
  (0 <= x)%Z -> (0 <= y)%Z ->
  Qpow2 (x - y) == inject_Z (2 ^ x) / inject_Z (2 ^ y).
Proof.
  intros Hx Hy. unfold Qpow2.
  pose proof (inject_Z_pow2_pos Hy) as Hy0.
  destruct (Z.leb_spec 0 (x - y)) as [H|H].
  - replace x with ((x - y) + y)%Z at 2 by lia.
    rewrite Z.pow_add_r by lia. rewrite inject_Z_mult. field. lra.
  - assert (Hd : 0 < inject_Z (2 ^ (- (x - y))))
      by (apply inject_Z_pow2_pos; lia).
    pose proof (inject_Z_pow2_pos Hx) as Hx0.
    replace y with ((- (x - y)) + x)%Z at 2 by lia.
    rewrite Z.pow_add_r by lia. rewrite inject_Z_mult. field. split; lra.
Qed.

Lemma Qpow2_as_frac (e : Z) :
  Qpow2 e == inject_Z (2 ^ Z.max e 0) / inject_Z (2 ^ Z.max (- e) 0).
Proof.
  rewrite <- Qpow2_frac by lia.
  replace (Z.max e 0 - Z.max (- e) 0)%Z with e by lia. reflexivity.
Qed.

Lemma Qpow2_pos (e : Z) : 0 < Qpow2 e.
Proof.
  rewrite Qpow2_as_frac. apply Qlt_shift_div_l.
  - apply inject_Z_pow2_pos. lia.
  - rewrite Qmult_0_l. apply inject_Z_pow2_pos. lia.
Qed.

Lemma Qpow2_shift (e k : Z) :
  (0 <= k)%Z -> Qpow2 (e + k) == inject_Z (2 ^ k) * Qpow2 e.
Proof.
  intro Hk.
  assert (E : Qpow2 (e + k)
              == inject_Z (2 ^ (Z.max e 0 + k)) / inject_Z (2 ^ Z.max (- e) 0)).
  { rewrite <- Qpow2_frac by lia.
    replace (Z.max e 0 + k - Z.max (- e) 0)%Z with (e + k)%Z by lia.
    reflexivity. }
  rewrite E, (Qpow2_as_frac e), Z.pow_add_r by lia. rewrite inject_Z_mult.
  assert (Hy : 0 < inject_Z (2 ^ Z.max (- e) 0))
    by (apply inject_Z_pow2_pos; lia).
  field. lra.
Qed.

Lemma Qpow2_mono (e e' : Z) : (e <= e')%Z -> Qpow2 e <= Qpow2 e'.
Proof.
  intro H. replace e' with (e + (e' - e))%Z by lia.
  rewrite Qpow2_shift by lia.
  assert (H1 : 1 <= inject_Z (2 ^ (e' - e))).
  { change 1 with (inject_Z 1). rewrite <- Zle_Qle.
    assert (0 < 2 ^ (e' - e))%Z by (apply Z.pow_pos_nonneg; lia). lia. }
  pose proof (Qpow2_pos e). nra.
Qed.

(** [binade] finds the power of two at or below a positive rational. *)
Lemma binade_spec (q : Q) :
  0 < q -> Qpow2 (binade q) <= q /\ q < Qpow2 (binade q + 1).
Proof.
  intro Hq. unfold binade.
  destruct q as [n d]. assert (Hn : (0 < n)%Z).
  { unfold Qlt in Hq. cbn in Hq. lia. }
  cbn [Qnum Qden].
  set (a := Z.log2 n). set (b := Z.log2 (Zpos d)).
  assert (Ha : (0 <= a)%Z) by apply Z.log2_nonneg.
  assert (Hb : (0 <= b)%Z) by apply Z.log2_nonneg.
  destruct (Z.log2_spec n Hn) as [Ha1 Ha2]. fold a in Ha1, Ha2.
  destruct (Z.log2_spec (Zpos d) ltac:(lia)) as [Hb1 Hb2].
  fold b in Hb1, Hb2.
  assert (Hlow : Qpow2 (a - b - 1) <= n # d).
  { replace (a - b - 1)%Z with (a - (b + 1))%Z by lia.
    rewrite Qpow2_frac by lia.
    apply Qle_shift_div_r; [apply inject_Z_pow2_pos; lia|].
    unfold Qle. cbn [Qnum Qden inject_Z Qmult].
    replace (Z.succ b) with (b + 1)%Z in * by lia.
    assert (0 < 2 ^ a)%Z by (apply Z.pow_pos_nonneg; lia).
    nia. }
  assert (Hhigh : n # d < Qpow2 (a - b + 1)).
  { replace (a - b + 1)%Z with (a + 1 - b)%Z by lia.
    rewrite Qpow2_frac by lia.
    apply Qlt_shift_div_l; [apply inject_Z_pow2_pos; lia|].
    unfold Qlt. cbn [Qnum Qden inject_Z Qmult].
    replace (Z.succ a) with (a + 1)%Z in * by lia.
    assert (0 < 2 ^ b)%Z by (apply Z.pow_pos_nonneg; lia).
    nia. }
  destruct (Qle_bool (Qpow2 (a - b)) (n # d)) eqn:E.
  - apply Qle_bool_iff in E. split; [exact E|exact Hhigh].
  - split; [exact Hlow|].
    replace (a - b - 1 + 1)%Z with (a - b)%Z by lia.
    apply Qnot_le_lt. intro H. apply Qle_bool_iff in H. congruence.
Qed.

Lemma binade_mono (p q : Q) :
  0 < p -> p <= q -> (binade p <= binade q)%Z.
Proof.
  intros Hp Hpq.
  destruct (binade_spec Hp) as [Hp1 _].
  destruct (@binade_spec q ltac:(lra)) as [_ Hq2].
  destruct (Z_lt_le_dec (binade q) (binade p)) as [Hlt|]; [|assumption].
  exfalso. pose proof (@Qpow2_mono (binade q + 1) (binade p) ltac:(lia)).
  lra.
Qed.

Lemma round_half_even_bounds (x : Q) :
  (Qfloor x <= round_half_even x <= Qfloor x + 1)%Z.
Proof.
  unfold round_half_even.
  destruct (Qcompare _ _); [destruct (Z.even _)| |]; lia.
Qed.

Lemma round_half_even_upper (x : Q) :
  inject_Z (round_half_even x) <= x + (1 # 2).
Proof.
  unfold round_half_even. pose proof (Qfloor_le x) as Hf.
  destruct (Qcompare (x - inject_Z (Qfloor x)) (1 # 2)) eqn:E.
  - apply Qeq_alt in E.
    destruct (Z.even (Qfloor x)); [lra|].
    rewrite inject_Z_plus. change (inject_Z 1) with 1. lra.
  - lra.
  - apply Qgt_alt in E. rewrite inject_Z_plus. change (inject_Z 1) with 1.
    lra.
Qed.

Lemma round_half_even_ge (k : Z) (x : Q) :
  inject_Z k <= x -> (k <= round_half_even x)%Z.
Proof.
  intro H. apply Qfloor_resp_le in H. rewrite Qfloor_Z in H.
  pose proof (round_half_even_bounds x). lia.
Qed.

Lemma round_half_even_le (k : Z) (x : Q) :
  x <= inject_Z k -> (round_half_even x <= k)%Z.
Proof.
  intro H. pose proof (Qfloor_resp_le _ _ H) as Hf. rewrite Qfloor_Z in Hf.
  pose proof (round_half_even_bounds x) as Hb.
  destruct (Z.eq_dec (Qfloor x) k) as [E|]; [|lia].
  unfold round_half_even.
  assert (Hlt : x - inject_Z (Qfloor x) < 1 # 2) by (rewrite E; lra).
  destruct (Qcompare (x - inject_Z (Qfloor x)) (1 # 2)) eqn:Ec.
  - apply Qeq_alt in Ec. lra.
  - lia.
  - apply Qgt_alt in Ec. lra.
Qed.

Lemma round_half_even_mono (x y : Q) :
  x <= y -> (round_half_even x <= round_half_even y)%Z.
Proof.
  intro H. pose proof (Qfloor_resp_le _ _ H) as Hf.
  pose proof (round_half_even_bounds x) as Hx.
  pose proof (round_half_even_bounds y) as Hy.
  destruct (Z.eq_dec (Qfloor x) (Qfloor y)) as [E|]; [|lia].
  clear Hx Hy Hf. unfold round_half_even. rewrite <- E.
  destruct (Qcompare (x - inject_Z (Qfloor x)) (1 # 2)) eqn:Ex;
    destruct (Qcompare (y - inject_Z (Qfloor x)) (1 # 2)) eqn:Ey.
  - destruct (Z.even (Qfloor x)); lia.
  - apply Qeq_alt in Ex. apply Qlt_alt in Ey. lra.
  - destruct (Z.even (Qfloor x)); lia.
  - destruct (Z.even (Qfloor x)); lia.
  - lia.
  - lia.
  - apply Qgt_alt in Ex. apply Qeq_alt in Ey. lra.
  - apply Qgt_alt in Ex. apply Qlt_alt in Ey. lra.
  - lia.
Qed.

(** The rounding of a positive rational: a whole number of units in the
    last place, between [2^52] and [2^53] of them. *)
Lemma round64_pos (q : Q) :
  0 < q ->
  let ulp := Qpow2 (binade q - 52) in
  round64 q == inject_Z (round_half_even (q / ulp)) * ulp /\
  0 < ulp /\
  inject_Z (2 ^ 52) * ulp == Qpow2 (binade q) /\
  inject_Z (2 ^ 53) * ulp == Qpow2 (binade q + 1) /\
  inject_Z (2 ^ 52) <= q / ulp /\ q / ulp <= inject_Z (2 ^ 53).
Proof.
  intros Hq ulp.
  assert (Hu : 0 < ulp) by apply Qpow2_pos.
  assert (H52 : inject_Z (2 ^ 52) * ulp == Qpow2 (binade q)).
  { subst ulp. rewrite <- Qpow2_shift by lia.
    replace (binade q - 52 + 52)%Z with (binade q) by lia. reflexivity. }
  assert (H53 : inject_Z (2 ^ 53) * ulp == Qpow2 (binade q + 1)).
  { subst ulp. rewrite <- Qpow2_shift by lia.
    replace (binade q - 52 + 53)%Z with (binade q + 1)%Z by lia.
    reflexivity. }
  destruct (binade_spec Hq) as [Hlo Hhi].
  split; [|split; [exact Hu|split; [exact H52|split; [exact H53|split]]]].
  - unfold round64.
    destruct (Qeq_bool q 0) eqn:E; [apply Qeq_bool_iff in E; lra|].
    assert (Habs : Qabs q = q).
    { destruct q as [n d]. unfold Qlt in Hq. cbn in Hq.
      unfold Qabs. rewrite Z.abs_eq by lia. reflexivity. }
    rewrite Habs. fold ulp. apply Qred_correct.
  - apply Qle_shift_div_l; [exact Hu|]. lra.
  - apply Qle_shift_div_r; [exact Hu|]. lra.
Qed.

Lemma round64_nonneg (q : Q) : 0 <= q -> 0 <= round64 q.
Proof.
  intro Hq. destruct (Qeq_bool q 0) eqn:E.
  - unfold round64. rewrite E. lra.
  - assert (Hpos : 0 < q).
    { apply Qnot_le_lt. intro H. assert (q == 0) by lra.
      apply Qeq_bool_iff in H0. congruence. }
    destruct (round64_pos Hpos) as (Hr & Hu & _ & _ & Hlo & _).
    rewrite Hr. apply round_half_even_ge in Hlo.
    assert (0 <= inject_Z (round_half_even (q / Qpow2 (binade q - 52)))).
    { change 0 with (inject_Z 0). rewrite <- Zle_Qle.
      assert (0 < 2 ^ 52)%Z by (apply Z.pow_pos_nonneg; lia). lia. }
    nra.
Qed.

(** Rounding is monotone (on the non-negative rationals). *)
Lemma round64_mono (p q : Q) :
  0 <= p -> p <= q -> round64 p <= round64 q.
Proof.
  intros Hp Hpq.
  destruct (Qeq_bool p 0) eqn:E.
  { unfold round64 at 1. rewrite E. apply round64_nonneg. lra. }
  assert (Hp0 : 0 < p).
  { apply Qnot_le_lt. intro H. assert (H0 : p == 0) by lra.
    apply Qeq_bool_iff in H0. congruence. }
  assert (Hq0 : 0 < q) by lra.
  destruct (round64_pos Hp0) as (Hrp & Hup & Hp52 & Hp53 & Hplo & Hphi).
  destruct (round64_pos Hq0) as (Hrq & Huq & Hq52 & Hq53 & Hqlo & Hqhi).
  rewrite Hrp, Hrq.
  pose proof (binade_mono Hp0 Hpq) as Hbin.
  destruct (Z.eq_dec (binade p) (binade q)) as [Eb|Hne].
  - rewrite Eb in *.
    set (u := Qpow2 (binade q - 52)) in *.
    assert (Hdiv : p / u <= q / u).
    { apply Qle_shift_div_l; [exact Huq|].
      unfold Qdiv. rewrite <- Qmult_assoc, (Qmult_comm (/ u)), Qmult_inv_r;
        lra. }
    apply round_half_even_mono in Hdiv. rewrite Zle_Qle in Hdiv. nra.
  - apply round_half_even_le in Hphi. apply round_half_even_ge in Hqlo.
    rewrite Zle_Qle in Hphi, Hqlo.
    pose proof (@Qpow2_mono (binade p + 1) (binade q) ltac:(lia)) as Hm.
    set (up := Qpow2 (binade p - 52)) in *.
    set (uq := Qpow2 (binade q - 52)) in *.
    set (kp := inject_Z (round_half_even (p / up))) in *.
    set (kq := inject_Z (round_half_even (q / uq))) in *.
    apply Qle_trans with (inject_Z (2 ^ 53) * up); [nra|].
    apply Qle_trans with (inject_Z (2 ^ 52) * uq); [lra|nra].
Qed.

(** Rounding a positive rational moves it up by at most one part in
    [2^53]. *)
Lemma round64_upper (q : Q) :
  0 < q -> round64 q <= q + q * (1 # 9007199254740992).
Proof.
  intro Hq.
  destruct (round64_pos Hq) as (Hr & Hu & _ & _ & Hlo & _).
  set (u := Qpow2 (binade q - 52)) in *.
  pose proof (round_half_even_upper (q / u)) as Hk.
  set (k := inject_Z (round_half_even (q / u))) in *.
  assert (Hqu : q / u * u == q).
  { unfold Qdiv. rewrite <- Qmult_assoc, (Qmult_comm (/ u)), Qmult_inv_r;
      lra. }
  change (2 ^ 52)%Z with 4503599627370496%Z in Hlo.
  change (inject_Z 4503599627370496) with (4503599627370496 # 1) in Hlo.
  set (x := q / u) in *.
  rewrite Hr. rewrite <- Hqu.
  assert (H1 : k * u <= (x + (1 # 2)) * u) by nra.
  assert (H2 : (1 # 2) * u <= x * u * (1 # 9007199254740992)) by nra.
  nra.
Qed.
End Binary64Facts.

(* ================================================================== *)
(** * How many peaks [krn] returns *)
(* ================================================================== *)

Lemma increasing_finite (l : list float64) :
  increasing l -> (2 <= length l)%nat ->
  Forall (fun a => exists q, a = Fin q) l.
Proof.
  intros Hinc Hlen. destruct l as [|a [|b r]]; cbn in Hlen; try lia.
  inversion Hinc as [|? ? Hr Ha]; subst.
  assert (Hfin : forall x y, flt x y = true ->
            (exists q, x = Fin q) /\ exists q, y = Fin q).
  { intros [|x] [|y] H; try discriminate. split; eexists; reflexivity. }
  constructor.
  - inversion Ha as [|? ? Hab _]; subst. exact (proj1 (Hfin _ _ Hab)).
  - eapply Forall_impl; [|exact Ha]. intros x Hx. exact (proj2 (Hfin _ _ Hx)).
Qed.

Lemma diff_finite (l : list float64) :
  Forall (fun a => exists q, a = Fin q) l ->
  Forall (fun a => exists q, a = Fin q) (Np.diff l).
Proof.
  induction l as [|a [|b r] IH]; intro H; cbn [Np.diff]; try constructor.
  - inversion H as [|? ? [x ->] H']; subst.
    inversion H' as [|? ? [y ->] _]; subst. eexists. reflexivity.
  - apply IH. now inversion H.
Qed.

Lemma fold_fmax_in (ds : list float64) :
  forall d,
    Forall (fun a => exists q, a = Fin q) (d :: ds) ->
    In (fold_left Np.fmax ds d) (d :: ds).
Proof.
  induction ds as [|x ds IH]; intros d H; cbn [fold_left]; [now left|].
  inversion H as [|? ? [dq ->] H']; subst.
  inversion H' as [|? ? [xq ->] H'']; subst.
  cbn [Np.fmax]. destruct (Qle_bool dq xq).
  - right. apply IH. constructor; [now exists xq|exact H''].
  - destruct (IH (Fin dq)) as [E|E].
    + constructor; [now exists dq|exact H''].
    + left. exact E.
    + right. now right.
Qed.

Lemma diff_in_split (l : list float64) (x : float64) :
  In x (Np.diff l) ->
  exists pre a b post, l = pre ++ a :: b :: post /\ x = fsub b a.
Proof.
  induction l as [|a [|b r] IH]; cbn [Np.diff]; try contradiction.
  intros [<-|H].
  - exists [], a, b, r. split; reflexivity.
  - destruct (IH H) as (pre & a' & b' & post & E & ->).
    exists (a :: pre), a', b', post. rewrite E. split; reflexivity.
Qed.

Lemma retain_keeps (bound x : float64) (l1 l2 : list float64) :
  forall prev,
    (forall p, In p (prev :: l1) -> flt (fsub x p) bound = false) ->
    In x (retain bound prev (l1 ++ x :: l2)).
Proof.
  induction l1 as [|y l1 IH]; intros prev H; cbn [app retain].
  - rewrite (H prev) by now left. now left.
  - destruct (flt (fsub y prev) bound).
    + apply IH. intros p [<-|Hp]; apply H; [now left|right; now right].
    + right. apply IH. intros p [<-|Hp]; apply H; right; [now left|now right].
Qed.

(** A peak on the far side of a gap stays, whatever peak before the gap
    was retained last, when the bound is at most 0.91 times that gap. *)
Lemma gap_keeps (t a b p : Q) :
  0 <= t -> t <= 91 # 100 -> p <= a -> a < b ->
  flt (fsub (Fin b) (Fin p)) (fmul (Fin t) (fsub (Fin b) (Fin a))) = false.
Proof.
  intros Ht0 Ht Hpa Hab. cbn [fsub fmul flt].
  apply negb_false_iff, Qle_bool_iff.
  set (m := round64 (b - a)).
  assert (Hm : 0 <= m) by (apply round64_nonneg; lra).
  apply Qle_trans with m; [|apply round64_mono; lra].
  destruct (Qeq_bool (t * m) 0) eqn:E.
  - unfold round64. rewrite E. exact Hm.
  - assert (Hpos : 0 < t * m).
    { apply Qnot_le_lt. intro H. assert (H0 : t * m == 0) by nra.
      apply Qeq_bool_iff in H0. congruence. }
    pose proof (round64_upper Hpos) as Hup.
    assert (Hm0 : 0 < m) by nra.
    nra.
Qed.

Lemma pass_spec_two (t : Q) (l : list float64) :
  0 <= t -> t <= 91 # 100 ->
  increasing l -> (2 <= length l)%nat ->
  (2 <= length (pass_spec (Fin t) l))%nat.
Proof.
  intros Ht0 Ht Hinc Hlen.
  pose proof (increasing_finite Hinc Hlen) as Hfin.
  destruct l as [|p0 rest]; [cbn in Hlen; lia|].
  unfold pass_spec. cbn [length].
  assert (Hmax : In (max_gap (p0 :: rest)) (Np.diff (p0 :: rest))).
  { unfold max_gap. pose proof (diff_finite Hfin) as Hd.
    destruct (Np.diff (p0 :: rest)) as [|d ds] eqn:E.
    - destruct rest; [cbn in Hlen; lia|discriminate].
    - now apply fold_fmax_in. }
  destruct (diff_in_split _ _ Hmax) as (pre & a & b & post & Hl & Hgap).
  rewrite Hgap.
  assert (Hkeep : forall p, In p (pre ++ [a]) ->
            flt (fsub b p) (fmul (Fin t) (fsub b a)) = false).
  { rewrite Hl in Hinc, Hfin.
    rewrite Forall_forall in Hfin.
    destruct (Hfin a) as [aq ->]; [apply in_or_app; right; now left|].
    destruct (Hfin b) as [bq ->];
      [apply in_or_app; right; right; now left|].
    assert (Hab : aq < bq).
    { clear - Hinc. induction pre as [|x pre IH]; cbn [app] in Hinc.
      - inversion Hinc as [|? ? _ Ha]; subst.
        inversion Ha as [|? ? Hab _]; subst. cbn [flt] in Hab.
        apply negb_true_iff in Hab. apply Qnot_le_lt. intro H.
        apply Qle_bool_iff in H. congruence.
      - inversion Hinc; subst. now apply IH. }
    intros p Hp. destruct (Hfin p) as [pq ->].
    { apply in_app_or in Hp. apply in_or_app.
      destruct Hp as [Hp|[<-|[]]]; [now left|right; now left]. }
    apply gap_keeps; try assumption.
    apply in_app_or in Hp. destruct Hp as [Hp|[E|[]]].
    - apply in_split in Hp. destruct Hp as (l1 & l2 & ->).
      rewrite <- app_assoc in Hinc. cbn [app] in Hinc.
      clear - Hinc. induction l1 as [|x l1 IH]; cbn [app] in Hinc.
      + inversion Hinc as [|? ? _ Hp]; subst.
        rewrite Forall_forall in Hp.
        assert (Hpa : flt (Fin pq) (Fin aq) = true).
        { apply Hp. apply in_or_app. right. now left. }
        cbn [flt] in Hpa. apply negb_true_iff in Hpa.
        apply Qlt_le_weak, Qnot_le_lt. intro H.
        apply Qle_bool_iff in H. congruence.
      + inversion Hinc; subst. now apply IH.
    - injection E as ->. lra. }
  assert (Hin : In b (retain (fmul (Fin t) (fsub b a)) p0 rest)).
  { destruct pre as [|p pre]; cbn [app] in Hl; injection Hl as -> ->.
    - apply (@retain_keeps _ b [] post). intros p [<-|[]].
      apply Hkeep. now left.
    - replace (pre ++ a :: b :: post) with ((pre ++ [a]) ++ b :: post)
        by (rewrite <- app_assoc; reflexivity).
      apply retain_keeps. intros q Hq. apply Hkeep. exact Hq. }
  destruct (retain _ p0 rest); [contradiction|cbn [length]; lia].
Qed.

Lemma nth_threshold_range (n : nat) :
  (n <= 6)%nat ->
  exists t, nth_threshold n = Fin t /\ 0 <= t /\ t <= 91 # 100.
Proof.
  intro H.
  do 7 (destruct n as [|n];
        [eexists; split; [vm_compute; reflexivity|];
         split; apply Qle_bool_iff; vm_compute; reflexivity|]).
  lia.
Qed.

Lemma retain_length (bound : float64) (l : list float64) :
  forall prev, (length (retain bound prev l) <= length l)%nat.
Proof.
  induction l as [|x r IH]; intro prev; cbn [retain length]; [lia|].
  destruct (flt _ bound); cbn [length].
  - specialize (IH prev). lia.
  - specialize (IH x). lia.
Qed.

Lemma consensus_count (pooled : list Z) :
  (2 <= length pooled)%nat ->
  exists peaks,
    consensus pooled = Returns peaks /\
    (length peaks <= length pooled)%nat.
Proof.
  intro Hlen. exists (spec_consensus pooled).
  split; [now apply consensus_refine_spec|].
  unfold spec_consensus, spec_clusters.
  pose proof (sort_length Z.leb pooled) as Hl. fold Np.sort_int in Hl.
  destruct (Np.sort_int pooled) as [|first rest]; [cbn in Hl; lia|].
  cbv zeta. rewrite length_map, <- Hl. cbn [length]. apply spec_walk_count.
Qed.

(** Whenever [krn] returns (six ranges, and a budget that covers the 27
    valleys three bands can pool), it reports at least 2 and at most 27
    peaks, one drawn line per peak, and the second statistic is a number,
    never [nan]: the peak after the largest gap of the clustered list
    survives every pass. *)
Theorem krn_peak_count_bounds (ranges : Z -> Z -> list (Z * Z))
    (raw_valleys : Z -> Z -> list Z)
    (smoothed_valleys : Z -> Z -> Z -> exn + list Z)
    (fuel : nat) (width : Z) (r : krn_result) :
  length (ranges width 6%Z) = 6%nat ->
  (28 <= fuel)%nat ->
  krn ranges raw_valleys smoothed_valleys fuel width = Returns r ->
  (2 <= num_peaks r <= 27)%nat /\
  length (krn_proof r) = num_peaks r /\
  is_nan (diff_post_consensus r) = false.
Proof.
  intros H6 Hfuel. unfold krn. rewrite band_loop_unfold. intro H.
  destruct (for_each (bands ranges width)
              (band_body raw_valleys smoothed_valleys fuel) ([], []))
    as [[dis all]| |] eqn:Hloop; try discriminate.
  destruct (@band_loop_inv raw_valleys smoothed_valleys fuel _ [] dis [] all
              Hloop) as (cs & Hcs & -> & ->).
  cbn [bind app] in H.
  assert (Hall : (length (concat cs) <= 27)%nat).
  { rewrite (bands_of_six ranges width H6) in Hcs. cbv zeta in Hcs.
    assert (Hnine : forall band c0,
              band_result raw_valleys smoothed_valleys fuel band c0 ->
              (length c0 <= 9)%nat).
    { intros band c0 [u0 Hu].
      apply fine_pass_at_most_9 in Hu. exact Hu. }
    inversion Hcs as [|? c1 ? ? H1 Hcs1]; subst.
    inversion Hcs1 as [|? c2 ? ? H2 Hcs2]; subst.
    inversion Hcs2 as [|? c3 ? ? H3 Hcs3]; subst.
    inversion Hcs3; subst.
    apply Hnine in H1, H2, H3.
    cbn [concat]. rewrite !length_app. cbn [length]. lia. }
  destruct (krn_consensus_returns_inv _ _ _ H) as (Hpooled & peaks & Hc & Hp2).
  destruct (consensus_increasing _ Hpooled) as (peaks' & Hc' & Hinc & _).
  rewrite Hc in Hc'. injection Hc' as <-.
  destruct (@consensus_count _ Hpooled) as (peaks' & Hc' & Hcount).
  rewrite Hc in Hc'. injection Hc' as <-.
  assert (Hpf : (length peaks <= fuel)%nat) by lia.
  assert (H8 : (8 <= fuel)%nat) by lia.
  destruct (@krn_consensus_returns fuel (map band_median cs) _ peaks Hc
              Hpooled Hp2 H8 Hpf) as (s & Hs & Hr).
  rewrite Hr in H. injection H as <-.
  cbn [num_peaks krn_proof diff_post_consensus]. rewrite length_map.
  destruct (prune_last_pass Hinc Hp2 H8 Hpf)
    as (s' & n & Hs' & _ & Hn & Hfinal).
  rewrite Hs in Hs'. injection Hs' as <-.
  destruct (nth_threshold_range Hn) as (t & Ht & Ht0 & Ht1).
  rewrite Ht in Hfinal.
  pose proof (pass_spec_two Ht0 Ht1 Hinc Hp2) as Htwo.
  rewrite <- Hfinal in Htwo.
  assert (Hsub : sublist (all_peaks_final s) peaks)
    by (eapply prune_sublist; eauto).
  assert (Hle : (length (all_peaks_final s) <= length peaks)%nat).
  { rewrite Hfinal. destruct peaks as [|p0 rest]; [cbn; lia|].
    cbn [pass_spec length]. pose proof (retain_length
      (fmul (Fin t) (max_gap (p0 :: rest))) rest p0). lia. }
  split; [lia|]. split; [reflexivity|].
  assert (Hinc' : increasing (all_peaks_final s))
    by (eapply sublist_StronglySorted; eauto).
  pose proof (diff_finite (increasing_finite Hinc' Htwo)) as Hd.
  destruct (is_nan (Np.median (Np.diff (all_peaks_final s)))) eqn:E;
    [|reflexivity].
  exfalso. apply median_nan in E. destruct E as [E|E].
  - destruct (all_peaks_final s) as [|x [|y l]]; cbn in Htwo; try lia.
    discriminate.
  - apply existsb_exists in E. destruct E as (x & Hx & Hnan).
    rewrite Forall_forall in Hd. destruct (Hd x Hx) as [q ->].
    discriminate.
Qed.

Lemma krn_peak_count_bounds_witness :
  (2 <= num_peaks (mkResult (Fin 41) (Fin (79 # 2)) 3 [11; 50; 90]%Z)
   <= 27)%nat.
Proof.
  apply (@krn_peak_count_bounds ranges_even raw_example smoothed_example
           28 60%Z (mkResult (Fin 41) (Fin (79 # 2)) 3 [11; 50; 90]%Z)).
  - reflexivity.
  - lia.
  - vm_compute. reflexivity.
Defined.

(* ================================================================== *)
(** * Where the lines are drawn *)
(* ================================================================== *)

Lemma truncate_bounds (lo hi : Z) (q : Q) :
  inject_Z lo <= q -> q <= inject_Z hi -> (lo <= truncate q <= hi)%Z.
Proof.
  intros Hlo Hhi. unfold truncate. destruct (Qle_bool 0 q).
  - split.
    + apply Qfloor_resp_le in Hlo. now rewrite Qfloor_Z in Hlo.
    + apply Qfloor_resp_le in Hhi. now rewrite Qfloor_Z in Hhi.
  - split.
    + apply Qceiling_resp_le in Hlo. now rewrite Qceiling_Z in Hlo.
    + apply Qceiling_resp_le in Hhi. now rewrite Qceiling_Z in Hhi.
Qed.

Lemma truncate_mono (x y : Q) : x <= y -> (truncate x <= truncate y)%Z.
Proof.
  intro H. unfold truncate.
  destruct (Qle_bool 0 x) eqn:Ex, (Qle_bool 0 y) eqn:Ey.
  - now apply Qfloor_resp_le.
  - apply Qle_bool_iff in Ex.
    assert (Hy : Qle_bool 0 y = true) by (apply Qle_bool_iff; lra).
    congruence.
  - apply Qle_bool_iff in Ey.
    assert (Hx : x <= inject_Z 0).
    { change (inject_Z 0) with 0. apply Qlt_le_weak, Qnot_le_lt.
      intro Hx. apply Qle_bool_iff in Hx. congruence. }
    apply Qceiling_resp_le in Hx. rewrite Qceiling_Z in Hx.
    assert (Hy : inject_Z 0 <= y) by exact Ey.
    apply Qfloor_resp_le in Hy. rewrite Qfloor_Z in Hy. lia.
  - now apply Qceiling_resp_le.
Qed.

Lemma StronglySorted_impl (A : Type) (R R' : A -> A -> Prop) (l : list A) :
  (forall a b, R a b -> R' a b) -> StronglySorted R l -> StronglySorted R' l.
Proof.
  intros Himp. induction 1 as [|x l Hs IH Hx]; constructor; [exact IH|].
  eapply Forall_impl; [|exact Hx]. intros b. apply Himp.
Qed.

(** Every consensus peak lies between the smallest and the largest pooled
    index. *)
Lemma consensus_within (pooled : list Z) (lo hi : Z) :
  (2 <= length pooled)%nat ->
  (forall x, In x pooled -> (lo <= x <= hi)%Z) ->
  exists peaks,
    consensus pooled = Returns peaks /\
    Forall (fun m => exists q, m = Fin q /\ inject_Z lo <= q /\
                               q <= inject_Z hi) peaks.
Proof.
  intros Hlen Hbounds. exists (spec_consensus pooled).
  split; [now apply consensus_refine_spec|].
  unfold spec_consensus, spec_clusters.
  pose proof (sort_length Z.leb pooled) as Hl. fold Np.sort_int in Hl.
  assert (Hin : forall x, In x (Np.sort_int pooled) -> In x pooled).
  { intros x Hx. unfold Np.sort_int in Hx. now apply sort_In in Hx. }
  destruct (Np.sort_int pooled) as [|first rest]; [cbn in Hl; lia|].
  cbv zeta.
  set (med := Np.median_int (Np.diff_int (first :: rest))).
  pose proof (spec_walk_concat med rest first [first]) as Hconcat.
  pose proof (@spec_walk_nonempty med rest first [first] ltac:(discriminate))
    as Hne.
  rewrite Forall_forall in *. intros m Hm.
  apply in_map_iff in Hm. destruct Hm as (cl & <- & Hcl).
  apply median_int_bounds; [now apply Hne|].
  intros x Hx. apply Hbounds, Hin. cbn [app] in Hconcat.
  rewrite <- Hconcat. apply in_concat. exists cl. split; assumption.
Qed.

(** The lines on the proof image: one per peak, at non-decreasing columns,
    each between the smallest and the largest valley index the bands
    retained. *)
Theorem krn_lines_between_valleys (ranges : Z -> Z -> list (Z * Z))
    (raw_valleys : Z -> Z -> list Z)
    (smoothed_valleys : Z -> Z -> Z -> exn + list Z)
    (fuel : nat) (width : Z) (r : krn_result) :
  krn ranges raw_valleys smoothed_valleys fuel width = Returns r ->
  exists cs,
    Forall2 (band_result raw_valleys smoothed_valleys fuel)
      (bands ranges width) cs /\
    length (krn_proof r) = num_peaks r /\
    StronglySorted Z.le (krn_proof r) /\
    forall lo hi,
      (forall x, In x (concat cs) -> (lo <= x <= hi)%Z) ->
      Forall (fun x => (lo <= x <= hi)%Z) (krn_proof r).
Proof.
  unfold krn. rewrite band_loop_unfold. intro H.
  destruct (for_each (bands ranges width)
              (band_body raw_valleys smoothed_valleys fuel) ([], []))
    as [[dis all]| |] eqn:Hloop; try discriminate.
  destruct (@band_loop_inv raw_valleys smoothed_valleys fuel _ [] dis [] all
              Hloop) as (cs & Hcs & -> & ->).
  cbn [bind app] in H. exists cs. split; [exact Hcs|].
  destruct (krn_consensus_returns_inv _ _ _ H) as (Hpooled & _).
  destruct (consensus_increasing _ Hpooled) as (peaks & Hc & Hinc & Hfin & _).
  unfold krn_consensus in H. rewrite Hc in H. cbn [bind] in H.
  destruct (prune fuel peaks) as [s| |] eqn:Hs; try discriminate.
  cbn [bind] in H.
  pose proof (prune_sublist _ _ Hs) as Hsub.
  assert (Hfin' : Forall (fun m => is_nan m = false) (all_peaks_final s))
    by (eapply sublist_Forall; eauto).
  assert (Hinc' : increasing (all_peaks_final s))
    by (eapply sublist_StronglySorted; eauto).
  rewrite (draw_lines_finite Hfin') in H. cbn [bind] in H.
  injection H as <-. cbn [krn_proof num_peaks].
  split; [apply length_map|]. split.
  - apply StronglySorted_map.
    eapply StronglySorted_impl; [|exact Hinc'].
    intros [|a] [|b] Hab; try discriminate. cbn [Np.value flt] in *.
    apply truncate_mono. apply negb_true_iff in Hab.
    apply Qlt_le_weak, Qnot_le_lt. intro Hle.
    apply Qle_bool_iff in Hle. congruence.
  - intros lo hi Hbounds.
    destruct (@consensus_within _ lo hi Hpooled Hbounds)
      as (peaks' & Hc' & Hwithin).
    rewrite Hc in Hc'. injection Hc' as <-.
    pose proof (sublist_Forall Hsub Hwithin) as Hw.
    rewrite Forall_forall in *. intros x Hx.
    apply in_map_iff in Hx. destruct Hx as (m & <- & Hm).
    destruct (Hw m Hm) as (q & -> & Hlo & Hhi). cbn [Np.value].
    now apply truncate_bounds.
Qed.

Lemma krn_lines_between_valleys_witness :
  exists cs,
    Forall2 (band_result raw_example smoothed_example 8)
      (bands ranges_even 60%Z) cs /\
    length [11; 50; 90]%Z = 3%nat /\
    StronglySorted Z.le [11; 50; 90]%Z.
Proof.
  destruct (@krn_lines_between_valleys ranges_even raw_example
              smoothed_example 8 60%Z
              (mkResult (Fin 41) (Fin (79 # 2)) 3 [11; 50; 90]%Z))
    as (cs & Hcs & Hlen & Hsorted & _).
  - vm_compute. reflexivity.
  - exists cs. repeat split; assumption.
Defined.

(* ================================================================== *)
(** * Lower thresholds keep more peaks *)
(* ================================================================== *)

Lemma flt_Fin_true (x y : Q) : flt (Fin x) (Fin y) = true <-> x < y.
Proof.
  cbn [flt]. rewrite negb_true_iff. split.
  - intro H. apply Qnot_le_lt. intro Hle. apply Qle_bool_iff in Hle.
    congruence.
  - intro H. destruct (Qle_bool y x) eqn:E; [|reflexivity].
    apply Qle_bool_iff in E. lra.
Qed.

Lemma flt_Fin_false (x y : Q) : flt (Fin x) (Fin y) = false <-> y <= x.
Proof.
  cbn [flt]. rewrite negb_false_iff. apply Qle_bool_iff.
Qed.

(** An increasing list of two or more floats is a list of rationals in
    increasing order. *)
Lemma increasing_rationals (l : list float64) :
  increasing l -> (2 <= length l)%nat ->
  exists ql, l = map Fin ql /\ StronglySorted Qlt ql.
Proof.
  intros Hinc Hlen. pose proof (increasing_finite Hinc Hlen) as Hfin.
  clear Hlen. induction l as [|a l IH].
  - exists []. split; [reflexivity|constructor].
  - inversion Hinc as [|? ? Hinc' Ha]; subst.
    inversion Hfin as [|? ? [q ->] Hfin']; subst.
    destruct (IH Hinc' Hfin') as (ql & -> & Hs).
    exists (q :: ql). split; [reflexivity|]. constructor; [exact Hs|].
    rewrite Forall_forall in *. intros x Hx.
    apply flt_Fin_true. apply Ha. now apply in_map.
Qed.

(** Two passes over the same peaks, the second with the lower bound: the
    second keeps at least as many peaks when it starts from a peak that is
    not later, and at most one fewer wherever it starts. *)
Lemma retain_lockstep (b1 b2 : Q) (ql : list Q) :
  b2 <= b1 -> StronglySorted Qlt ql ->
  forall p1 p2,
    Forall (fun x => p1 <= x) ql -> Forall (fun x => p2 <= x) ql ->
    (length (retain (Fin b1) (Fin p1) (map Fin ql))
     <= S (length (retain (Fin b2) (Fin p2) (map Fin ql))))%nat /\
    (p2 <= p1 ->
     (length (retain (Fin b1) (Fin p1) (map Fin ql))
      <= length (retain (Fin b2) (Fin p2) (map Fin ql)))%nat).
Proof.
  intros Hb Hsorted.
  induction Hsorted as [|x r Hs IH Hx]; intros p1 p2 Hp1 Hp2.
  - cbn. split; [lia|intros _; lia].
  - inversion Hp1 as [|? ? Hp1x Hp1r]; subst.
    inversion Hp2 as [|? ? Hp2x Hp2r]; subst.
    assert (Hxr : Forall (fun y => x <= y) r).
    { eapply Forall_impl; [|exact Hx]. intros y Hy. cbn in Hy. lra. }
    cbn [map retain].
    destruct (flt (fsub (Fin x) (Fin p1)) (Fin b1)) eqn:E1;
      destruct (flt (fsub (Fin x) (Fin p2)) (Fin b2)) eqn:E2;
      cbn [length].
    + destruct (IH p1 p2 Hp1r Hp2r) as [IHa IHb].
      split; [exact IHa|exact IHb].
    + destruct (IH p1 x Hp1r Hxr) as [IHa _].
      split; [lia|intros _; exact IHa].
    + destruct (IH x p2 Hxr Hp2r) as [_ IHb].
      specialize (IHb Hp2x). split; [lia|].
      intro Hle. exfalso.
      cbn [fsub] in E1, E2. apply flt_Fin_false in E1.
      apply flt_Fin_true in E2.
      pose proof (@round64_mono (x - p1) (x - p2) ltac:(lra) ltac:(lra)).
      lra.
    + destruct (IH x x Hxr Hxr) as [_ IHb].
      specialize (IHb ltac:(lra)). split; [lia|intros _; lia].
Qed.

Lemma diff_nonneg (ql : list Q) :
  StronglySorted Qlt ql ->
  Forall (fun d => exists m, d = Fin m /\ 0 <= m) (Np.diff (map Fin ql)).
Proof.
  induction 1 as [|a r Hs IH Ha]; [constructor|].
  destruct r as [|b r]; [constructor|].
  change (Np.diff (map Fin (a :: b :: r)))
    with (fsub (Fin b) (Fin a) :: Np.diff (map Fin (b :: r))).
  constructor; [|exact IH].
  inversion Ha as [|? ? Hab _]; subst. cbn [fsub]. eexists.
  split; [reflexivity|]. apply round64_nonneg. lra.
Qed.

Lemma max_gap_nonneg (l : list float64) :
  increasing l -> (2 <= length l)%nat ->
  exists m, max_gap l = Fin m /\ 0 <= m.
Proof.
  intros Hinc Hlen.
  destruct (increasing_rationals Hinc Hlen) as (ql & -> & Hs).
  pose proof (diff_nonneg Hs) as Hd. unfold max_gap.
  destruct (Np.diff (map Fin ql)) as [|d ds] eqn:E.
  - destruct ql as [|a [|b ql]]; cbn in Hlen; try lia. discriminate.
  - assert (Hin : In (fold_left Np.fmax ds d) (d :: ds)).
    { apply fold_fmax_in. eapply Forall_impl; [|exact Hd].
      intros a (m & -> & _). now exists m. }
    rewrite Forall_forall in Hd. exact (Hd _ Hin).
Qed.

Lemma nth_threshold_step (k : nat) :
  (k < 6)%nat ->
  exists t t',
    nth_threshold k = Fin t /\ nth_threshold (S k) = Fin t' /\
    0 <= t' /\ t' <= t.
Proof.
  intro H.
  do 6 (destruct k as [|k];
        [eexists; eexists; split; [vm_compute; reflexivity|];
         split; [vm_compute; reflexivity|];
         split; apply Qle_bool_iff; vm_compute; reflexivity|]).
  lia.
Qed.

Lemma pass_spec_step (k : nat) (peaks : list float64) :
  increasing peaks -> (2 <= length peaks)%nat -> (k < 6)%nat ->
  (length (pass_spec (nth_threshold k) peaks)
   <= length (pass_spec (nth_threshold (S k)) peaks))%nat.
Proof.
  intros Hinc Hlen Hk.
  destruct (nth_threshold_step Hk) as (t & t' & -> & -> & Ht0 & Ht).
  destruct (max_gap_nonneg Hinc Hlen) as (m & Hm & Hm0).
  destruct (increasing_rationals Hinc Hlen) as (ql & -> & Hs).
  destruct ql as [|p0 rest]; [cbn in Hlen; lia|].
  unfold pass_spec. cbn [map] in *. rewrite Hm. cbn [fmul length].
  inversion Hs as [|? ? Hs' Hp0]; subst.
  assert (Hle : Forall (fun x => p0 <= x) rest).
  { eapply Forall_impl; [|exact Hp0]. intros y Hy. cbn in Hy. lra. }
  assert (Hb : round64 (t' * m) <= round64 (t * m)).
  { apply round64_mono; nra. }
  destruct (@retain_lockstep _ _ rest Hb Hs' p0 p0 Hle Hle) as [_ H].
  specialize (H ltac:(lra)). lia.
Qed.

(** The adaptive loop is monotone: on an increasing list of consensus
    peaks, a pass at a lower threshold never keeps fewer peaks than a pass
    at a higher one (in binary64, for the seven thresholds the loop can
    reach), so the list [krn] ends with is at least as long as the list any
    earlier pass left. *)
Theorem pruning_passes_keep_more (fuel : nat) (peaks : list float64) :
  increasing peaks -> (2 <= length peaks)%nat ->
  (8 <= fuel)%nat -> (length peaks <= fuel)%nat ->
  (forall j k, (j <= k <= 6)%nat ->
     (length (pass_spec (nth_threshold j) peaks)
      <= length (pass_spec (nth_threshold k) peaks))%nat) /\
  exists s n,
    prune fuel peaks = Returns s /\ num_exec s = S n /\
    forall j r, (j <= n)%nat ->
      prune_pass fuel (nth_threshold j) peaks = Returns r ->
      (length r <= length (all_peaks_final s))%nat.
Proof.
  intros Hinc Hlen H8 Hfuel.
  assert (Hmono : forall j k, (j <= k <= 6)%nat ->
            (length (pass_spec (nth_threshold j) peaks)
             <= length (pass_spec (nth_threshold k) peaks))%nat).
  { intros j k [Hjk Hk]. induction Hjk as [|k Hjk IH]; [lia|].
    specialize (IH ltac:(lia)).
    pose proof (@pass_spec_step k peaks Hinc Hlen ltac:(lia)). lia. }
  split; [exact Hmono|].
  destruct (prune_last_pass Hinc Hlen H8 Hfuel)
    as (s & n & Hrun & Hn & Hn6 & Hfinal).
  exists s, n. split; [exact Hrun|]. split; [exact Hn|].
  intros j r Hj Hr.
  rewrite (prune_pass_spec (nth_threshold j) Hinc Hlen Hfuel) in Hr.
  injection Hr as <-. rewrite Hfinal. apply Hmono. lia.
Qed.

Lemma pruning_passes_keep_more_witness :
  (length (pass_spec (nth_threshold 0)
             [Fin 0; Fin 1; Fin 9; Fin 18; Fin 28])
   <= length (pass_spec (nth_threshold 6)
                [Fin 0; Fin 1; Fin 9; Fin 18; Fin 28]))%nat.
Proof.
  destruct (@pruning_passes_keep_more 8
              [Fin 0; Fin 1; Fin 9; Fin 18; Fin 28]) as [Hmono _].
  - repeat constructor.
  - cbn. lia.
  - lia.
  - cbn. lia.
  - apply Hmono. lia.
Defined.

(* ================================================================== *)
(** * An exception in one band *)
(* ================================================================== *)

Lemma for_each_raises (A S : Type) (body : S -> A -> run S) (x : A)
    (e : exn) (before after : list A) :
  forall s0 s1,
    for_each before body s0 = Returns s1 ->
    body s1 x = Raises e ->
    for_each (before ++ x :: after) body s0 = Raises e.
Proof.
  induction before as [|y before IH]; intros s0 s1 Hrun Hx;
    cbn [app for_each] in *.
  - injection Hrun as ->. rewrite Hx. reflexivity.
  - destruct (body s0 y) as [s'| |]; try discriminate.
    cbn [bind] in *. now apply (IH s' s1).
Qed.

(** [krn] has no handler around the fine pass: when SciPy raises while a
    band is smoothed (as [savgol_filter] does for a window longer than the
    profile), [krn] raises that exception, whatever the bands before it
    gave and without looking at the bands after it. *)
Theorem krn_band_error_aborts (ranges : Z -> Z -> list (Z * Z))
    (raw_valleys : Z -> Z -> list Z)
    (smoothed_valleys : Z -> Z -> Z -> exn + list Z)
    (fuel : nat) (width : Z) (before after : list (Z * Z)) (band : Z * Z)
    (cs : list (list Z)) (e : exn) :
  bands ranges width = before ++ band :: after ->
  Forall2 (band_result raw_valleys smoothed_valleys fuel) before cs ->
  fine_pass (smoothed_valleys (fst band) (snd band)) fuel
    (raw_valleys (fst band) (snd band)) = Raises e ->
  krn ranges raw_valleys smoothed_valleys fuel width = Raises e.
Proof.
  intros Hbands Hbefore Hraise. unfold krn. rewrite band_loop_unfold, Hbands.
  rewrite (@for_each_raises _ _ (band_body raw_valleys smoothed_valleys fuel)
             band e before after ([], []) _
             (@band_loop_appends raw_valleys smoothed_valleys fuel before cs
                [] [] Hbefore)).
  - reflexivity.
  - unfold band_body. destruct band as [lo hi]. cbn [fst snd] in Hraise.
    rewrite Hraise. reflexivity.
Qed.

Lemma krn_band_error_aborts_witness :
  krn ranges_even raw_example_busy smoothed_example 8 60%Z
  = Raises ValueError.
Proof.
  apply (@krn_band_error_aborts ranges_even raw_example_busy smoothed_example
           8 60%Z [(10, 20)%Z] [(30, 40)%Z] (20, 30)%Z [[10; 50; 90]%Z]
           ValueError).
  - reflexivity.
  - repeat constructor. exists 19%Z. reflexivity.
  - reflexivity.
Defined.
